(** * Jinn: message routing, AI invocation and scheduled delivery

    A shallow embedding of the orchestration logic of the WhatsApp
    assistant's server (the module-level state, [sendToAI], the file queue,
    the typing indicator and the [message_create] handler), followed by the
    properties established about it.

    JavaScript strings are sequences of UTF-16 code units; they are modelled
    as lists of code units so that [\s], [trim] and the regular expressions
    of the server see exactly the characters the engine sees. *)

From Stdlib Require Import String Ascii NArith ZArith Bool Arith Lia.
From Stdlib Require Import Sorted Permutation List.
Import ListNotations.

(** ** Strings *)

Definition char := N.
Definition str := list char.

(** A literal of the source, for ASCII text. *)
Fixpoint js (s : string) : str :=
  match s with
  | EmptyString => []
  | String a s' => N_of_ascii a :: js s'
  end.

Fixpoint str_eqb (a b : str) : bool :=
  match a, b with
  | [], [] => true
  | x :: a', y :: b' => (x =? y)%N && str_eqb a' b'
  | _, _ => false
  end.

(** WhiteSpace and LineTerminator code points: what [\s] matches and what
    [String.prototype.trim] removes. *)
Definition is_space (c : char) : bool :=
  ((9 <=? c) && (c <=? 13) || (c =? 32) || (c =? 0xa0) || (c =? 0x1680)
   || (0x2000 <=? c) && (c <=? 0x200a) || (c =? 0x2028) || (c =? 0x2029)
   || (c =? 0x202f) || (c =? 0x205f) || (c =? 0x3000) || (c =? 0xfeff))%N.

Definition is_digit (c : char) : bool := ((48 <=? c) && (c <=? 57))%N.

(** [\w] without the unicode flag: [A-Za-z0-9_]. *)
Definition is_word (c : char) : bool :=
  ((65 <=? c) && (c <=? 90) || (97 <=? c) && (c <=? 122) || is_digit c
   || (c =? 95))%N.

(** [.] matches everything but the four line terminators. *)
Definition is_dot (c : char) : bool :=
  negb ((c =? 10) || (c =? 13) || (c =? 0x2028) || (c =? 0x2029))%N.

Fixpoint trimStart (s : str) : str :=
  match s with
  | c :: s' => if is_space c then trimStart s' else s
  | [] => []
  end.

Definition trimEnd (s : str) : str := rev (trimStart (rev s)).

Definition trim (s : str) : str := trimEnd (trimStart s).

Fixpoint startsWith (s p : str) {struct p} : bool :=
  match p, s with
  | [], _ => true
  | a :: p', b :: s' => (a =? b)%N && startsWith s' p'
  | _ :: _, [] => false
  end.

Fixpoint includes (s p : str) : bool :=
  startsWith s p ||
  match s with
  | [] => false
  | _ :: s' => includes s' p
  end.

(** [s.substring(0, n)] *)
Definition substring0 (n : nat) (s : str) : str := firstn n s.

(** A JavaScript string is truthy when it is not empty. *)
Definition truthy (s : str) : bool :=
  match s with [] => false | _ => true end.

(** ** Regular expressions

    The backtracking matcher of the language specification, written with
    continuations as the specification does.  Only the constructs that occur
    in the server's patterns are present; none of the patterns has a
    capturing group under a quantifier, a back-reference or a look-around. *)

Module Regex.

Inductive regex : Type :=
| Eps
| Chr (p : char -> bool)
| Seq (r1 r2 : regex)
| Alt (r1 r2 : regex)
| Star (greedy : bool) (r : regex)
| Group (i : nat) (r : regex)
| Eos.

(** Captures, most recent first. *)
Definition caps := list (nat * str).
Definition answer := option (caps * str).
Definition cont := str -> caps -> answer.

Definition orElse (a : answer) (b : answer) : answer :=
  match a with Some x => Some x | None => b end.

(** The repetition of a matcher [mr]: each iteration has to consume input,
    so [length s] iterations are all there can be. *)
Fixpoint star_loop (mr : str -> caps -> cont -> answer) (greedy : bool)
  (k : cont) (n : nat) (s : str) (cs : caps) {struct n} : answer :=
  match n with
  | O => k s cs
  | S n' =>
      let more :=
        mr s cs (fun s' cs' =>
          if length s' <? length s then star_loop mr greedy k n' s' cs'
          else None) in
      if greedy then orElse more (k s cs) else orElse (k s cs) more
  end.

Fixpoint m (r : regex) (s : str) (cs : caps) (k : cont) {struct r} : answer :=
  match r with
  | Eps => k s cs
  | Chr p =>
      match s with
      | c :: s' => if p c then k s' cs else None
      | [] => None
      end
  | Seq r1 r2 => m r1 s cs (fun s' cs' => m r2 s' cs' k)
  | Alt r1 r2 => orElse (m r1 s cs k) (m r2 s cs k)
  | Star greedy r1 => star_loop (m r1) greedy k (length s) s cs
  | Group i r1 =>
      m r1 s cs (fun s' cs' =>
        k s' ((i, firstn (length s - length s') s) :: cs'))
  | Eos => match s with [] => k s cs | _ :: _ => None end
  end.

(** One attempt at the current position. *)
Definition match_here (r : regex) (s : str) : answer :=
  m r s [] (fun s' cs => Some (cs, s')).

Record found : Type := mkFound
  { index : nat; whole : str; groups : caps; rest : str }.

(** [RegExp.prototype.exec] without the global flag: the leftmost position
    at which the pattern matches. *)
Fixpoint exec_from (r : regex) (i : nat) (s : str) : option found :=
  match match_here r s with
  | Some (cs, s') =>
      Some (mkFound i (firstn (length s - length s') s) cs s')
  | None =>
      match s with
      | [] => None
      | _ :: t => exec_from r (S i) t
      end
  end.

Definition exec (r : regex) (s : str) : option found := exec_from r 0 s.

Fixpoint group (i : nat) (cs : caps) : option str :=
  match cs with
  | [] => None
  | (j, v) :: cs' => if Nat.eqb i j then Some v else group i cs'
  end.

(** [s.replace(r, rep)] for a pattern with the global flag; an empty match
    advances by one code unit. *)
Fixpoint replace_loop (fuel : nat) (r : regex) (rep : caps -> str) (s : str)
  : str :=
  match fuel with
  | O => s
  | S fuel' =>
      let step :=
        match s with
        | [] => []
        | c :: t => c :: replace_loop fuel' r rep t
        end in
      match match_here r s with
      | Some (cs, s') =>
          rep cs ++
          (if length s' <? length s then replace_loop fuel' r rep s' else step)
      | None => step
      end
  end.

Definition replaceAll (r : regex) (rep : caps -> str) (s : str) : str :=
  replace_loop (S (length s)) r rep s.

(** Pattern builders. *)
Definition chr (c : char) : regex := Chr (N.eqb c).

Fixpoint lit (cs : str) : regex :=
  match cs with
  | [] => Eps
  | c :: cs' => Seq (chr c) (lit cs')
  end.

(** Canonicalisation of the ignore-case flag, exact whenever one of the two
    characters compared is ASCII (all pattern characters are). *)
Definition canon (c : char) : char :=
  if ((97 <=? c) && (c <=? 122))%N then (c - 32)%N else c.

Definition ichr (c : char) : regex := Chr (fun x => (canon x =? canon c)%N).

Fixpoint ilit (cs : str) : regex :=
  match cs with
  | [] => Eps
  | c :: cs' => Seq (ichr c) (ilit cs')
  end.

Definition plus (greedy : bool) (r : regex) : regex := Seq r (Star greedy r).
Definition opt (r : regex) : regex := Alt r Eps.

Fixpoint alts (rs : list regex) : regex :=
  match rs with
  | [] => Chr (fun _ => false)
  | [r] => r
  | r :: rs' => Alt r (alts rs')
  end.

End Regex.

Import Regex.

Definition nl : str := [10%N].

(** [x?.[0] || fallback] and the like: an absent or empty string gives the
    fallback. *)
Definition orDefault (x : option str) (fallback : str) : str :=
  match x with
  | Some v => if truthy v then v else fallback
  | None => fallback
  end.

(** ** The AI adapter: [sendToAI] and the conversation history *)

Module AI.

Inductive role : Type := user | assistant.

Record entry : Type := mkEntry { role_of : role; content : str }.

Definition MAX_HISTORY : nat := 20.

(** [l.slice(-n)] for [n > 0] *)
Definition slice_last {A : Type} (n : nat) (l : list A) : list A :=
  skipn (length l - n) l.

(** What the [exec] callback receives: [error] (its message, when not
    null), [stdout] and [stderr]. *)
Record exec_result : Type := mkExec
  { error : option str; stdout : str; stderr : str }.

(** What the spawned process does first: it closes with its accumulated
    output, or the spawn itself fails. *)
Inductive spawn_event : Type :=
| Closed (output errorOutput : str)
| Failed (message : str).

Inductive settled : Type :=
| Resolved (response : str)
| Rejected (message : str).

Definition systemInstructions : str :=
  js "IMPORTANT: When asked to share, attach, or send a file, you MUST output the FULL absolute file path on a separate line in this exact format:" ++ nl ++
  js "[SEND_FILE:/full/path/to/file.ext]" ++ nl ++ nl ++
  js "For example:" ++ nl ++
  js "[SEND_FILE:/Users/basim/Desktop/image.png]" ++ nl ++ nl ++
  js "After outputting the file path, you can add a brief description. Do NOT just describe the file - you must include the [SEND_FILE:path] tag for the file to actually be sent." ++ nl ++ nl.

Definition roleLabel (r : role) : str :=
  match r with user => js "User" | assistant => js "Assistant" end.

Definition historyLines (h : list entry) : str :=
  flat_map (fun msg => roleLabel (role_of msg) ++ js ": " ++ content msg ++ nl) h.

(** The prompt built from the history that already holds the current
    message as its last entry. *)
Definition buildPrompt (h : list entry) (prompt : str) : str :=
  if 1 <? length h then
    systemInstructions ++ js "Previous conversation:" ++ nl ++
    historyLines (removelast h) ++ nl ++ js "Current message:" ++ nl ++ prompt
  else systemInstructions ++ prompt.

(** [[^\s\]]] *)
Definition urlChar (c : char) : bool := negb (is_space c || (c =? 93)%N).

(** [/https:\/\/[^\s\]]+/] *)
Definition urlRe : regex :=
  Seq (lit (js "https://")) (plus true (Chr urlChar)).

Definition authUrl (errText : str) : option str :=
  option_map whole (exec urlRe errText).

Definition hasAuthMarker (errText : str) : bool :=
  includes errText (js "authorize") || includes errText (js "login").

(** The body of the [exec] callback up to the history update. *)
Definition claudeResponse (r : exec_result) : str :=
  if truthy r.(stdout) && truthy (trim r.(stdout)) then trim r.(stdout)
  else if truthy r.(stderr) && hasAuthMarker r.(stderr) then
    js "Please authorize Claude first: " ++
    orDefault (authUrl r.(stderr)) (js "Check terminal for auth URL")
  else if truthy r.(stderr) && truthy (trim r.(stderr)) then
    js "Claude: " ++ trim r.(stderr)
  else match r.(error) with
       | Some message => js "Claude error: " ++ message
       | None => js "No response from Claude"
       end.

(** The body of the [close] handler of the spawned process. *)
Definition spawnResponse (provider output errorOutput : str) : str :=
  if truthy (trim output) then trim output
  else if hasAuthMarker errorOutput then
    js "Please authorize " ++ provider ++ js " first: " ++
    orDefault (authUrl errorOutput) (js "Check terminal for auth URL")
  else if truthy (trim errorOutput) then
    provider ++ js ": " ++ trim errorOutput
  else js "No response from " ++ provider.

Record ai_state : Type := mkState
  { currentAI : str; conversationHistory : list entry }.

(** The synchronous part of the Claude branch: push the user entry, build
    the prompt, trim the history. *)
Definition claudeBegin (prompt : str) (st : ai_state) : ai_state * str :=
  let h1 := st.(conversationHistory) ++ [mkEntry user prompt] in
  let fullPrompt := buildPrompt h1 prompt in
  let h2 := if MAX_HISTORY <? length h1 then slice_last MAX_HISTORY h1 else h1 in
  (mkState st.(currentAI) h2, fullPrompt).

(** The [exec] callback: classify, push the assistant entry, resolve. *)
Definition claudeFinish (r : exec_result) (st : ai_state) : ai_state * settled :=
  let response := claudeResponse r in
  (mkState st.(currentAI)
           (st.(conversationHistory) ++ [mkEntry assistant response]),
   Resolved response).

(** [sendToAI(prompt, provider)], run to the point where its promise
    settles.  The two backends are external: [ex] is what the Claude
    process turns out to produce, [sp] what the spawned process does. *)
Definition sendToAI (prompt provider : str) (ex : exec_result)
  (sp : spawn_event) (st : ai_state) : ai_state * settled :=
  if str_eqb provider (js "claude") then
    let (st1, _) := claudeBegin prompt st in
    claudeFinish ex st1
  else
    match sp with
    | Closed output errorOutput =>
        (st, Resolved (spawnResponse provider output errorOutput))
    | Failed message => (st, Rejected message)
    end.

(** The prompt handed to the Claude process by a call of [sendToAI]. *)
Definition promptSent (prompt : str) (st : ai_state) : str :=
  snd (claudeBegin prompt st).

(** A completed round on the Claude backend that runs alone: nothing else
    touches the history between its prompt and its answer. *)
Definition round (st : ai_state) (pr : str * exec_result) : ai_state :=
  fst (sendToAI (fst pr) (js "claude") (snd pr) (Failed []) st).

Definition rounds (st : ai_state) (prs : list (str * exec_result)) : ai_state :=
  fold_left round prs st.

(** Every entry a sequence of rounds inserts, in insertion order. *)
Definition inserted (prs : list (str * exec_result)) : list entry :=
  flat_map (fun pr => [mkEntry user (fst pr);
                       mkEntry assistant (claudeResponse (snd pr))]) prs.

(** Eleven rounds, each answered on standard output. *)
Definition elevenRounds : list (str * exec_result) :=
  repeat (js "hi", mkExec None (js "ok") []) 11.

End AI.

(** ** Post-processing of an AI reply in the [message_create] handler *)

Module Reply.

Definition tag : str := js "[SEND_FILE:".
Definition rb : char := 93%N.
Definition notRb (c : char) : bool := negb (c =? rb)%N.

(** [/\[SEND_FILE:([^\]]+)\]/] *)
Definition sendFileRe : regex :=
  Seq (lit tag) (Seq (Group 1 (plus true (Chr notRb))) (chr rb)).

(** [/\s*\[SEND_FILE:[^\]]+\]\s*/g] *)
Definition stripRe : regex :=
  Seq (Star true (Chr is_space))
      (Seq (lit tag)
           (Seq (plus true (Chr notRb))
                (Seq (chr rb) (Star true (Chr is_space))))).

(** [/ (AM|PM)\./g] *)
Definition ampmRe : regex :=
  Seq (chr 32%N)
      (Seq (Group 1 (Alt (lit (js "AM")) (lit (js "PM")))) (chr 46%N)).

(** [[\/\w\-\.\s]] *)
Definition pathChar (c : char) : bool :=
  ((c =? 47) || is_word c || (c =? 45) || (c =? 46) || is_space c)%N.

(** [/(?:saved|screenshot|image|file).*?[:\s]+(\/[\/\w\-\.\s]+\.(?:png|jpg|jpeg|gif|webp))/i] *)
Definition imageRe : regex :=
  Seq (alts [ilit (js "saved"); ilit (js "screenshot"); ilit (js "image");
             ilit (js "file")])
      (Seq (Star false (Chr is_dot))
           (Seq (plus true (Chr (fun c => (c =? 58)%N || is_space c)))
                (Group 1
                   (Seq (chr 47%N)
                        (Seq (plus true (Chr pathChar))
                             (Seq (chr 46%N)
                                  (alts [ilit (js "png"); ilit (js "jpg");
                                         ilit (js "jpeg"); ilit (js "gif");
                                         ilit (js "webp")]))))))).

(** [/(\/Users\/[\/\w\-\.\s]+\.(?:png|jpg|jpeg|gif|webp|pdf|csv|txt|doc|docx))/i] *)
Definition usersRe : regex :=
  Group 1
    (Seq (ilit (js "/Users/"))
         (Seq (plus true (Chr pathChar))
              (Seq (chr 46%N)
                   (alts [ilit (js "png"); ilit (js "jpg"); ilit (js "jpeg");
                          ilit (js "gif"); ilit (js "webp"); ilit (js "pdf");
                          ilit (js "csv"); ilit (js "txt"); ilit (js "doc");
                          ilit (js "docx")])))).

(** [m && m[1]] *)
Definition group1 (mt : option found) : option str :=
  match mt with
  | Some f =>
      match group 1 f.(groups) with
      | Some g => if truthy g then Some g else None
      | None => None
      end
  | None => None
  end.

Definition sendFileMatch (aiResponse : str) : option found :=
  exec sendFileRe aiResponse.

Definition imagePathMatch (aiResponse : str) : option found :=
  match exec imageRe aiResponse with
  | Some f => Some f
  | None => exec usersRe aiResponse
  end.

(** [aiResponse.replace(/\s*\[SEND_FILE:[^\]]+\]\s*/g, ' ')] *)
Definition blanked (aiResponse : str) : str :=
  replaceAll stripRe (fun _ => js " ") aiResponse.

(** [aiResponse.replace(/\s*\[SEND_FILE:[^\]]+\]\s*/g, ' ').trim()] *)
Definition stripDirectives (aiResponse : str) : str :=
  trim (blanked aiResponse).

(** [filePath.replace(/ (AM|PM)\./g, '\u202f$1.')]: the narrow no-break space
    of macOS screenshot names put in place of the plain one. *)
Definition narrowSpaceFix (filePath : str) : str :=
  replaceAll ampmRe
    (fun cs => [0x202f%N] ++
               match group 1 cs with Some g => g | None => [] end ++ js ".")
    filePath.

Record outcome : Type := mkOutcome
  { filePath : option str;        (* the path extracted, if any *)
    viaHeuristic : bool;
    cleanResponse : str;
    media : option (str * str);   (* path and caption handed to the transport *)
    fileSent : bool;
    reply : option str }.         (* the text reply, when one is sent *)

Section Handler.

(** The file system and the transport are external. *)
Variable existsSync : str -> bool.
Variable sendWhatsAppMedia : str -> str -> bool.

Definition textReply (fileSent : bool) (cleanResponse aiResponse : str)
  : option str :=
  if fileSent then None
  else Some (if truthy cleanResponse then cleanResponse else aiResponse).

Definition resolvePath (path0 : str) : str :=
  if existsSync path0 then path0
  else
    let fixedPath := narrowSpaceFix path0 in
    if existsSync fixedPath then fixedPath else path0.

(** From the reply of [sendToAI] to the text reply of the handler. *)
Definition postProcess (aiResponse : str) : outcome :=
  match group1 (sendFileMatch aiResponse) with
  | Some g =>
      let filePath := resolvePath (trim g) in
      let clean := stripDirectives aiResponse in
      if existsSync filePath then
        let sent := sendWhatsAppMedia filePath (substring0 200 clean) in
        mkOutcome (Some filePath) false clean
                  (Some (filePath, substring0 200 clean)) sent
                  (textReply sent clean aiResponse)
      else
        let notice := js "File not found: " ++ filePath ++ nl ++ nl ++ clean in
        mkOutcome (Some filePath) false notice None false
                  (textReply false notice aiResponse)
  | None =>
      match group1 (imagePathMatch aiResponse) with
      | Some g =>
          let imagePath := trim g in
          if existsSync imagePath then
            let sent := sendWhatsAppMedia imagePath (substring0 200 aiResponse) in
            mkOutcome (Some imagePath) true aiResponse
                      (Some (imagePath, substring0 200 aiResponse)) sent
                      (textReply sent aiResponse aiResponse)
          else
            mkOutcome (Some imagePath) true aiResponse None false
                      (textReply false aiResponse aiResponse)
      | None =>
          mkOutcome None false aiResponse None false
                    (textReply false aiResponse aiResponse)
      end
  end.

End Handler.

(** Replies to run the handler on. *)
Definition doneReply : str := js "Done! [SEND_FILE:/tmp/a.png] enjoy".

Definition savedReply : str := js "Saved screenshot: /Users/x/Desktop/shot.png".

(** A reply of 218 code units that names an image. *)
Definition longReply : str := js "image: /tmp/a.png " ++ repeat 120%N 200.

End Reply.

(** ** Interval timers of the event loop *)

Module Timers.

(** The live timers, each with its handle and period, and the next fresh
    handle. *)
Record table : Type := mkTable { live : list (nat * Z); fresh : nat }.

Definition empty : table := mkTable [] 0.

(** The longest delay a timer takes, [2^31 - 1] milliseconds. *)
Definition TIMEOUT_MAX : Z := 2147483647%Z.

(** The delay a timer is armed with: one below 1 or above [TIMEOUT_MAX] is
    replaced by 1. *)
Definition armedDelay (after : Z) : Z :=
  if ((1 <=? after) && (after <=? TIMEOUT_MAX))%Z then after else 1%Z.

Definition setInterval (period : Z) (t : table) : nat * table :=
  (t.(fresh),
   mkTable ((t.(fresh), armedDelay period) :: t.(live)) (S t.(fresh))).

Definition clearInterval (h : nat) (t : table) : table :=
  mkTable (filter (fun e => negb (Nat.eqb (fst e) h)) t.(live)) t.(fresh).

Definition isLive (h : nat) (t : table) : bool :=
  existsb (fun e => Nat.eqb (fst e) h) t.(live).

End Timers.

(** ** The scheduled file queue *)

Module Queue.

Import Timers.

Record status : Type := mkStatus
  { active : bool;
    folder : option str;
    intervalMs : Z;
    totalFiles : nat;
    sentFiles : nat;
    sentList : list str }.

(** The module-level variables [fileQueue], [queueInterval] and
    [queueStatus], with the timers of the event loop. *)
Record queue_state : Type := mkQ
  { fileQueue : list str;
    queueInterval : option nat;
    queueStatus : status;
    timers : table }.

Definition initial : queue_state :=
  mkQ [] None (mkStatus false None 60000%Z 0 0 []) Timers.empty.

(** What a run of [sendNextQueuedFile] does towards the chat; captions,
    notifications to the dashboard and log lines are left out. *)
Inductive event : Type :=
| Delivered (filePath : str)
| NotDelivered (filePath : str)
| QueueComplete (total : nat).

(** The [{success, message}] object [startFileQueue] returns: the files were
    queued, the folder holds no regular file, or reading it threw. *)
Inductive result : Type :=
| Queued (count : nat) (interval : Z)
| NoFilesFound
| ReadError.

Definition success (r : result) : bool :=
  match r with Queued _ _ => true | _ => false end.

(** A directory as [readdirSync] and [statSync] show it: the names in
    listing order, each with whether it is a regular file. *)
Definition listing := list (str * bool).

Definition stopFileQueue (st : queue_state) : queue_state :=
  let t := match st.(queueInterval) with
           | Some h => clearInterval h st.(timers)
           | None => st.(timers)
           end in
  let q := st.(queueStatus) in
  mkQ [] None
      (mkStatus false q.(folder) q.(intervalMs) q.(totalFiles) q.(sentFiles)
                q.(sentList))
      t.

Record report : Type := mkReport
  { current : status; remaining : nat; remainingFiles : list str }.

(** [fs.readdirSync] on a POSIX system: the names come back sorted,
    whatever the order the file system keeps them in (the directory scan
    of the runtime sorts them with [strcmp]).  [before] is that order on
    names and [content] the folder as it is stored; each name carries what
    [statSync(...).isFile()] answers for it. *)
Fixpoint listedIn (before : str -> str -> bool) (e : str * bool) (l : listing)
  : listing :=
  match l with
  | [] => [e]
  | x :: l' =>
      if before (fst e) (fst x) then e :: l else x :: listedIn before e l'
  end.

Definition readdirSync (before : str -> str -> bool) (content : listing)
  : listing :=
  fold_right (listedIn before) [] content.

(** The order of [strcmp] on names of ASCII characters: code unit by code
    unit, a proper prefix first. *)
Fixpoint unitLeb (a b : str) : bool :=
  match a, b with
  | [], _ => true
  | _ :: _, [] => false
  | x :: a', y :: b' => (x <? y)%N || ((x =? y)%N && unitLeb a' b')
  end.

(** The queue together with the deliveries under way.  A call of
    [sendNextQueuedFile] that took a path is suspended at its [await] until
    the transport answers; [underWay] holds the paths of those calls,
    oldest first, and [handed] every path passed to the transport so far,
    in order. *)
Record running : Type := mkRun
  { now : queue_state; underWay : list str; handed : list str }.

(** What happens to the queue, one event of the event loop at a time: a
    call of [startFileQueue], a firing of the interval timer, the answer of
    the transport to the [i]-th delivery under way, and [/queue-stop]. *)
Inductive act : Type :=
| Starts (folderPath : str) (interval : Z) (dir : option listing)
| Fires
| Settles (i : nat) (sent : bool)
| Stops.

Definition taken (f : option str) : list str :=
  match f with Some filePath => [filePath] | None => [] end.

(** The idle queue of a fresh process. *)
Definition idle : running := mkRun initial [] [].

Section Paths.

(** [path.join] and [path.basename] of the platform. *)
Variable join : str -> str -> str.
Variable basename : str -> str.

(** [sendNextQueuedFile] up to its [await]: the queue is found empty and
    stopped, or its head is shifted out and handed to the transport. *)
Definition takeNext (st : queue_state) : queue_state * option str :=
  match st.(fileQueue) with
  | [] => (stopFileQueue st, None)
  | filePath :: others =>
      (mkQ others st.(queueInterval) st.(queueStatus) st.(timers),
       Some filePath)
  end.

(** [sendNextQueuedFile] after its [await], [sent] being what
    [sendWhatsAppMedia] answered. *)
Definition delivered (filePath : str) (sent : bool) (st : queue_state) : queue_state :=
  if sent then
    let q := st.(queueStatus) in
    mkQ st.(fileQueue) st.(queueInterval)
        (mkStatus q.(active) q.(folder) q.(intervalMs) q.(totalFiles)
                  (S q.(sentFiles)) (q.(sentList) ++ [basename filePath]))
        st.(timers)
  else
    mkQ (filePath :: st.(fileQueue)) st.(queueInterval) st.(queueStatus)
        st.(timers).

(** One whole run of [sendNextQueuedFile]. *)
Definition sendNextQueuedFile (sent : bool) (st : queue_state) : queue_state * event :=
  match takeNext st with
  | (st1, None) => (st1, QueueComplete st.(queueStatus).(totalFiles))
  | (st1, Some filePath) =>
      (delivered filePath sent st1,
       if sent then Delivered filePath else NotDelivered filePath)
  end.

(** [startFileQueue(folderPath, intervalMs)] up to its return.  [dir] is
    what the file system shows for the folder, [None] when reading it
    throws.  The first file is taken at once; its delivery settles later. *)
Definition startFileQueue (folderPath : str) (interval : Z)
  (dir : option listing) (st : queue_state) : queue_state * result * option str :=
  let t0 := match st.(queueInterval) with
            | Some h => clearInterval h st.(timers)
            | None => st.(timers)
            end in
  let st0 := mkQ st.(fileQueue) st.(queueInterval) st.(queueStatus) t0 in
  match dir with
  | None => (st0, ReadError, None)
  | Some entries =>
      let files := map (fun e => join folderPath (fst e))
                       (filter (fun e => snd e) entries) in
      match files with
      | [] => (st0, NoFilesFound, None)
      | _ :: _ =>
          let st1 := mkQ files st.(queueInterval)
                         (mkStatus true (Some folderPath) interval
                                   (length files) 0 [])
                         t0 in
          let (st2, inFlight) := takeNext st1 in
          let (h, t1) := setInterval interval st2.(timers) in
          (mkQ st2.(fileQueue) (Some h) st2.(queueStatus) t1,
           Queued (length files) interval, inFlight)
      end
  end.

Definition getQueueStatus (st : queue_state) : report :=
  mkReport st.(queueStatus) (length st.(fileQueue))
           (map basename st.(fileQueue)).

(** The [/queue-stop] command. *)
Definition queueStop (st : queue_state) : queue_state :=
  if st.(queueStatus).(active) then stopFileQueue st else st.

(** The operations on a queue whose deliveries are answered at once: a
    start with the outcome of its immediate delivery, a firing of the
    interval timer with the outcome of its delivery, and a stop.  In
    general the answer comes later, with other events in between; see
    [perform] below. *)
Inductive op : Type :=
| Start (folderPath : str) (interval : Z) (dir : option listing) (sent : bool)
| Tick (sent : bool)
| Stop.

Definition start (folderPath : str) (interval : Z) (dir : option listing)
  (sent : bool) (st : queue_state) : queue_state :=
  match startFileQueue folderPath interval dir st with
  | (st1, _, Some filePath) => delivered filePath sent st1
  | (st1, _, None) => st1
  end.

Definition tick (sent : bool) (st : queue_state) : queue_state :=
  fst (sendNextQueuedFile sent st).

(** The timer fires only while the handle in [queueInterval] is live. *)
Definition armed (st : queue_state) : bool :=
  match st.(queueInterval) with
  | Some h => isLive h st.(timers)
  | None => false
  end.

Definition enabled (o : op) (st : queue_state) : bool :=
  match o with
  | Tick _ => armed st
  | _ => true
  end.

Definition apply (o : op) (st : queue_state) : queue_state :=
  match o with
  | Start folderPath interval dir sent => start folderPath interval dir sent st
  | Tick sent => tick sent st
  | Stop => queueStop st
  end.

(** One event on the running queue.  A start and a firing of the timer
    run up to the [await] of the delivery they begin; the timer fires only
    while it is live; the answer of the transport resumes the suspended
    call on the state as it is by then. *)
Definition perform (a : act) (r : running) : running :=
  match a with
  | Starts folderPath interval dir =>
      let '(st, _, f) := startFileQueue folderPath interval dir r.(now) in
      mkRun st (r.(underWay) ++ taken f) (r.(handed) ++ taken f)
  | Fires =>
      if armed r.(now) then
        let (st, f) := takeNext r.(now) in
        mkRun st (r.(underWay) ++ taken f) (r.(handed) ++ taken f)
      else r
  | Settles i sent =>
      match nth_error r.(underWay) i with
      | Some filePath =>
          mkRun (delivered filePath sent r.(now))
                (firstn i r.(underWay) ++ skipn (S i) r.(underWay))
                r.(handed)
      | None => r
      end
  | Stops => mkRun (queueStop r.(now)) r.(underWay) r.(handed)
  end.

Definition performs (acts : list act) (r : running) : running :=
  fold_left (fun x a => perform a x) acts r.

(** The states reached from the idle queue by events that [allowed]
    admits. *)
Inductive attained (allowed : act -> running -> bool) : running -> Prop :=
| attained_idle : attained allowed idle
| attained_step : forall r a,
    attained allowed r -> allowed a r = true ->
    attained allowed (perform a r).

(** The state of a started queue in which [done] are the names delivered
    and [todo] the names still queued. *)
Definition serving (folderPath : str) (interval : Z) (total h : nat)
  (t : table) (done todo : list str) : queue_state :=
  mkQ (map (join folderPath) todo) (Some h)
      (mkStatus true (Some folderPath) interval total (length done) done) t.

End Paths.

(** The timers left when the stored handle has been cleared. *)
Definition cleared (st : queue_state) : table :=
  match st.(queueInterval) with
  | Some h => clearInterval h st.(timers)
  | None => st.(timers)
  end.

(** Every event admitted. *)
Definition anytime (a : act) (r : running) : bool := true.

(** No start while a delivery is under way. *)
Definition orderly (a : act) (r : running) : bool :=
  match a, r.(underWay) with
  | Starts _ _ _, _ :: _ => false
  | _, _ => true
  end.

(** Firings of the timer and deliveries that succeed. *)
Definition calm (a : act) : bool :=
  match a with
  | Fires => true
  | Settles _ sent => sent
  | _ => false
  end.

Definition fires (acts : list act) : nat :=
  length (filter (fun a => match a with Fires => true | _ => false end) acts).

(** The schedule in which each delivery succeeds before the timer fires
    again, for [n] firings. *)
Fixpoint steady (n : nat) : list act :=
  match n with
  | O => []
  | S n' => Fires :: Settles 0 true :: steady n'
  end.

(** No timer is live, or the only live timer is the one whose handle is
    stored, armed with the interval of the status, on an active queue. *)
Definition timed (st : queue_state) : Prop :=
  st.(timers).(live) = [] \/
  exists h, st.(queueInterval) = Some h /\
            st.(timers).(live) =
              [(h, armedDelay st.(queueStatus).(intervalMs))] /\
            st.(queueStatus).(active) = true.

(** The files sent, queued and under way. *)
Definition accounted (r : running) : nat :=
  r.(now).(queueStatus).(sentFiles) + length r.(now).(fileQueue) +
  length r.(underWay).

(** The counts agree while the queue is active, and never exceed the
    total. *)
Definition counted (r : running) : Prop :=
  (r.(now).(queueStatus).(active) = true ->
   accounted r = r.(now).(queueStatus).(totalFiles)) /\
  accounted r <= r.(now).(queueStatus).(totalFiles).

(** POSIX [path.join] and [path.basename] on paths in normal form (no
    [.] or [..] segment, no doubled or trailing separator), for running the
    queue on concrete folders. *)
Definition joinPlain (dirPath name : str) : str := dirPath ++ js "/" ++ name.

Fixpoint lastSegment (acc p : str) : str :=
  match p with
  | [] => acc
  | c :: p' => if (c =? 47)%N then lastSegment [] p'
               else lastSegment (acc ++ [c]) p'
  end.

Definition basenamePlain (p : str) : str := lastSegment [] p.

(** A folder that keeps its entries out of name order, what [readdirSync]
    lists for it, and the queue on it stopped after its first delivery. *)
Definition fixture : listing :=
  [(js "b.txt", true); (js "a.txt", true); (js "c.txt", true)].

Definition listed : listing := readdirSync unitLeb fixture.

Definition stoppedEarly : running :=
  performs joinPlain basenamePlain
    [Starts (js "/data") 1000%Z (Some listed); Settles 0 true; Stops] idle.

(** The first interval in seconds that [/queue] turns into a delay above
    [TIMEOUT_MAX]. *)
Definition overflowing : Z := (2147484 * 1000)%Z.

End Queue.

(** ** The typing indicator *)

Module Typing.

Import Timers.

(** [selfChatId] is [null] until the self-chat is known; the identifiers it
    is set to are not empty. *)
Record typing_state : Type := mkT
  { isReady : bool;
    selfChatId : option str;
    typingInterval : option nat;
    timers : table;
    signals : nat }.            (* typing states sent to the chat so far *)

(** The period of the refresh timer. *)
Definition period : Z := 5000%Z.

(** [startTyping()]; [chatOk] tells whether looking the chat up and the
    first [sendStateTyping] succeed (else the failure is caught and logged). *)
Definition startTyping (chatOk : bool) (st : typing_state) : typing_state :=
  match st.(isReady), st.(selfChatId) with
  | true, Some _ =>
      if chatOk then
        let (h, t) := setInterval period st.(timers) in
        mkT st.(isReady) st.(selfChatId) (Some h) t (S st.(signals))
      else st
  | _, _ => st
  end.

Definition stopTyping (st : typing_state) : typing_state :=
  match st.(typingInterval) with
  | Some h =>
      mkT st.(isReady) st.(selfChatId) None (clearInterval h st.(timers))
          st.(signals)
  | None => st
  end.

(** A firing of timer [h]: a live timer sends the typing state again. *)
Definition fire (h : nat) (st : typing_state) : typing_state :=
  if isLive h st.(timers) then
    mkT st.(isReady) st.(selfChatId) st.(typingInterval) st.(timers)
        (S st.(signals))
  else st.

Definition running (st : typing_state) : bool :=
  match st.(typingInterval) with Some _ => true | None => false end.

(** A session that is connected, with no indicator running. *)
Definition ready : typing_state := mkT true (Some (js "me@lid")) None Timers.empty 0.

End Typing.

(** ** Classification of a self-chat message *)

Module Router.

Inductive route : Type :=
| SwitchProvider (name : str)
| Status
| Clear
| QueueStart (folder : str) (seconds : option str)
| QueueUsage
| QueueStatus
| QueueStop
| SendFile (path : str)
| SendUsage
| Screenshot (url : str)
| ScreenshotUsage
| FreeformPrompt (text : str)
| MediaPrompt (caption : str)
| Ignored.

(** [/\/queue\s+(.+?)(?:\s+(\d+))?$/i] *)
Definition queueRe : regex :=
  Seq (ilit (js "/queue"))
      (Seq (plus true (Chr is_space))
           (Seq (Group 1 (plus false (Chr is_dot)))
                (Seq (opt (Seq (plus true (Chr is_space))
                               (Group 2 (plus true (Chr is_digit)))))
                     Eos))).

(** [/\/send\s+(.+)/i] *)
Definition sendRe : regex :=
  Seq (ilit (js "/send"))
      (Seq (plus true (Chr is_space)) (Group 1 (plus true (Chr is_dot)))).

(** [/\/screenshot\s+(\S+)/i] *)
Definition screenshotRe : regex :=
  Seq (ilit (js "/screenshot"))
      (Seq (plus true (Chr is_space))
           (Group 1 (plus true (Chr (fun c => negb (is_space c)))))).

Definition capture (i : nat) (f : found) : str :=
  match group i f.(groups) with Some g => g | None => [] end.

Section Classify.

(** [String.prototype.toLowerCase], with the case tables of the engine. *)
Variable toLowerCase : str -> str.

(** The branch of the handler a message takes.  [hasMedia] is the flag of
    the message, [downloaded] whether its media could be fetched. *)
Definition classify (body : str) (hasMedia downloaded : bool) : route :=
  if truthy body && truthy (trim body) && negb hasMedia then
    let text := trim body in
    let lower := toLowerCase text in
    if str_eqb lower (js "/claude") then SwitchProvider (js "claude")
    else if str_eqb lower (js "/qwen") then SwitchProvider (js "qwen")
    else if str_eqb lower (js "/status") then Status
    else if str_eqb lower (js "/clear") then Clear
    else if startsWith lower (js "/queue ") then
      match exec queueRe text with
      | None => QueueUsage
      | Some f => QueueStart (trim (capture 1 f)) (group 2 f.(groups))
      end
    else if str_eqb lower (js "/queue-status") then QueueStatus
    else if str_eqb lower (js "/queue-stop") then QueueStop
    else if startsWith lower (js "/send") then
      match exec sendRe text with
      | None => SendUsage
      | Some f => SendFile (trim (capture 1 f))
      end
    else if startsWith lower (js "/screenshot") then
      match exec screenshotRe text with
      | None => ScreenshotUsage
      | Some f =>
          let url := capture 1 f in
          if negb (startsWith url (js "http://")) &&
             negb (startsWith url (js "https://"))
          then Screenshot (js "https://" ++ url)
          else Screenshot url
      end
    else FreeformPrompt text
  else if hasMedia && downloaded then MediaPrompt body
  else Ignored.

End Classify.

(** Lower-casing of the ASCII letters, the part of [toLowerCase] that does
    not depend on the case tables. *)
Definition asciiLower (s : str) : str :=
  map (fun c => if ((65 <=? c) && (c <=? 90))%N then (c + 32)%N else c) s.

End Router.

(** ** Shell quoting of the commands handed to [exec] *)

Module Shell.

Definition backslash : char := 92%N.
Definition dquote : char := 34%N.
Definition dollar : char := 36%N.
Definition backtick : char := 96%N.

(** [s.replace(/c/g, rep)] for a pattern of one literal character. *)
Definition replaceChar (c : char) (rep : str) (s : str) : str :=
  replaceAll (chr c) (fun _ => rep) s.

(** [fullPrompt.replace(/"/g, '\\"').replace(/`/g, '\\`')
      .replace(/\$/g, '\\$').replace(/\n/g, '\\n')] in [sendToAI] *)
Definition escapedPrompt (fullPrompt : str) : str :=
  replaceChar 10%N [backslash; 110%N]
    (replaceChar dollar [backslash; dollar]
       (replaceChar backtick [backslash; backtick]
          (replaceChar dquote [backslash; dquote] fullPrompt))).

(** [message.replace(/"/g, '\\"').replace(/`/g, '\\`').replace(/\$/g, '\\$')]
    in the [claude-message] handler *)
Definition escapedMsg (message : str) : str :=
  replaceChar dollar [backslash; dollar]
    (replaceChar backtick [backslash; backtick]
       (replaceChar dquote [backslash; dquote] message)).

(** [String(value).replace(/\\/g, '\\\\').replace(/"/g, '\\"')
      .replace(/\$/g, '\\$').replace(/`/g, '\\`')] in [addMcpWithEnv] *)
Definition escapedValue (value : str) : str :=
  replaceChar backtick [backslash; backtick]
    (replaceChar dollar [backslash; dollar]
       (replaceChar dquote [backslash; dquote]
          (replaceChar backslash [backslash; backslash] value))).

(** [name.replace(/"/g, '\\"')] in the MCP handlers *)
Definition escapedName (name : str) : str :=
  replaceChar dquote [backslash; dquote] name.

(** The command line of the Claude process. *)
Definition claudeCommand (mediaDir fullPrompt : str) : str :=
  js "/Users/basim/.local/bin/claude --add-dir " ++ [dquote] ++ mediaDir ++
  [dquote] ++ js " -p " ++ [dquote] ++ escapedPrompt fullPrompt ++ [dquote] ++
  js " < /dev/null".

(** The characters the escapes put a backslash before. *)
Definition special (c : char) : bool :=
  ((c =? dquote) || (c =? dollar) || (c =? backtick))%N.

(** The three escapes read character by character. *)
Definition escMsgChar (x : char) : str :=
  if special x then [backslash; x] else [x].

Definition escValueChar (x : char) : str :=
  if special x || (x =? backslash)%N then [backslash; x] else [x].

Definition escPromptChar (x : char) : str :=
  if special x then [backslash; x]
  else if (x =? 10)%N then [backslash; 110%N] else [x].

(** The prompt as the shell is left to read it: a newline has become a
    backslash and the letter n. *)
Definition newlinesSpelled (s : str) : str :=
  flat_map (fun x => if (x =? 10)%N then [backslash; 110%N] else [x]) s.

(** How [sh] reads the inside of a double-quoted word: a backslash before
    [$], a backquote, a double quote or a backslash gives that character, a
    backslash before a newline is a line continuation, any other backslash
    stands for itself.  The reading is [None] when a bare double quote ends
    the word early or a bare [$] or backquote starts an expansion. *)
Fixpoint plainRead (s : str) : option str :=
  match s with
  | [] => Some []
  | c :: t =>
      if (c =? backslash)%N then
        match t with
        | [] => Some [c]
        | d :: t' =>
            if ((d =? dollar) || (d =? backtick) || (d =? dquote)
                || (d =? backslash))%N
            then option_map (cons d) (plainRead t')
            else if (d =? 10)%N then plainRead t'
            else option_map (cons c) (plainRead t)
        end
      else if ((c =? dquote) || (c =? dollar) || (c =? backtick))%N then None
      else option_map (cons c) (plainRead t)
  end.

End Shell.

(** ** Media files and images *)

Module Media.

(** [s.split(sep)] for a separator of one character. *)
Fixpoint splitFrom (sep : char) (cur s : str) : list str :=
  match s with
  | [] => [cur]
  | c :: t =>
      if (c =? sep)%N then cur :: splitFrom sep [] t
      else splitFrom sep (cur ++ [c]) t
  end.

Definition split (sep : char) (s : str) : list str := splitFrom sep [] s.

(** [media.mimetype.split('/')[1]?.split(';')[0] || 'bin'] *)
Definition extension (mimetype : str) : str :=
  match nth_error (split 47%N mimetype) 1 with
  | Some sub => orDefault (Some (hd [] (split 59%N sub))) (js "bin")
  | None => js "bin"
  end.

Definition isAlnum (c : char) : bool :=
  ((65 <=? c) && (c <=? 90) || (97 <=? c) && (c <=? 122) || is_digit c)%N.

(** [message.id._serialized.replace(/[^a-zA-Z0-9]/g, '_')] *)
Definition sanitizedId (serialized : str) : str :=
  replaceAll (Chr (fun c => negb (isAlnum c))) (fun _ => js "_") serialized.

Section Paths.

Variable join : str -> str -> str.
Variable mediaDir : str.

(** The name and the path [saveMediaFile(media, messageId)] writes to. *)
Definition mediaFileName (mimetype messageId : str) : str :=
  messageId ++ js "." ++ extension mimetype.

Definition saveMediaFile (mimetype messageId : str) : str :=
  join mediaDir (mediaFileName mimetype messageId).

End Paths.

(** The file name the handler of a media message saves under. *)
Definition savedName (mimetype serialized : str) : str :=
  mediaFileName mimetype (sanitizedId serialized).

(** [/^data:image\/\w+;base64,/] without its anchor. *)
Definition dataUrlRe : regex :=
  Seq (lit (js "data:image/"))
      (Seq (plus true (Chr is_word)) (lit (js ";base64,"))).

(** [base64Data.replace(/^data:image\/\w+;base64,/, '')]: the pattern is
    anchored and not global, so it is tried at the start of the text only. *)
Definition stripDataUrl (base64Data : str) : str :=
  match match_here dataUrlRe base64Data with
  | Some (_, behind) => behind
  | None => base64Data
  end.

End Media.

(** ** Tool permissions in the settings file *)

Module Permissions.

(** [settings.permissions]; a list that is missing counts as empty. *)
Record permissions : Type := mkPerms
  { allow : option (list str); deny : option (list str);
    ask : option (list str) }.

Definition orEmpty (l : option (list str)) : list str :=
  match l with Some v => v | None => [] end.

(** [`mcp__${mcp}__${tool}`] *)
Definition permString (mcp tool : str) : str :=
  js "mcp__" ++ mcp ++ js "__" ++ tool.

(** [list.filter(p => p !== perm)] *)
Definition without (perm : str) (l : list str) : list str :=
  filter (fun p => negb (str_eqb p perm)) l.

(** The permissions the update starts from. *)
Definition before (settings : option permissions) : permissions :=
  match settings with
  | Some p => p
  | None => mkPerms (Some []) (Some []) (Some [])
  end.

(** The settings written by [update-mcp-permission], [settings] being the
    permissions read from the file, if it has any. *)
Definition updatePermission (mcp tool action : str)
  (settings : option permissions) : permissions :=
  let perm := permString mcp tool in
  let p := before settings in
  let a := without perm (orEmpty p.(allow)) in
  let d := without perm (orEmpty p.(deny)) in
  let k := without perm (orEmpty p.(ask)) in
  if str_eqb action (js "allow") then mkPerms (Some (a ++ [perm])) (Some d) (Some k)
  else if str_eqb action (js "deny") then mkPerms (Some a) (Some (d ++ [perm])) (Some k)
  else mkPerms (Some a) (Some d) (Some k).

(** [update-mcp-all-permissions]: the same on the wildcard of the server. *)
Definition updateAllPermissions (mcp action : str)
  (settings : option permissions) : permissions :=
  updatePermission mcp (js "*") action settings.

(** How often [perm] stands in a list. *)
Definition occurrences (perm : str) (l : list str) : nat :=
  length (filter (fun p => str_eqb p perm) l).

Definition notUnderscore (c : char) : bool := negb (c =? 95)%N.

(** A server name and a tool name that the pattern of the listing takes
    apart again: the server name is not empty and has no underscore, the
    tool name is not empty and has no line terminator. *)
Definition splittable (mcp tool : str) : Prop :=
  mcp <> [] /\ forallb notUnderscore mcp = true /\
  tool <> [] /\ forallb is_dot tool = true.

(** [/^mcp__([^_]+)__(.+)$/] without its first anchor. *)
Definition permRe : regex :=
  Seq (lit (js "mcp__"))
      (Seq (Group 1 (plus true (Chr notUnderscore)))
           (Seq (lit (js "__"))
                (Seq (Group 2 (plus true (Chr is_dot))) Eos))).

Record entry : Type := mkEntry { mcp : str; tool : str; raw : str }.

(** The entry [emitMcpPermissions] makes of one permission, if any; the
    pattern is anchored, so it is tried at the start of the text only. *)
Definition parsePermission (perm : str) : option entry :=
  if startsWith perm (js "mcp__") then
    match match_here permRe perm with
    | Some (cs, _) =>
        match group 1 cs, group 2 cs with
        | Some a, Some b => Some (mkEntry a b perm)
        | _, _ => None
        end
    | None => None
    end
  else None.

Fixpoint parseAll (l : list str) : list entry :=
  match l with
  | [] => []
  | perm :: l' =>
      match parsePermission perm with
      | Some e => e :: parseAll l'
      | None => parseAll l'
      end
  end.

Record listing : Type := mkListing
  { allowed : list entry; denied : list entry; asked : list entry }.

(** The permissions [emitMcpPermissions] sends to the dashboard. *)
Definition mcpPermissions (p : permissions) : listing :=
  mkListing (parseAll (orEmpty p.(allow))) (parseAll (orEmpty p.(deny)))
            (parseAll (orEmpty p.(ask))).

End Permissions.

(** ** Text messages of the self-chat and the session *)

Module Session.

Import AI Router.

(** The provider and the history, with the number of Claude processes
    whose [exec] callback is still to run. *)
Record session : Type := mkSession { state : ai_state; waiting : nat }.

(** What touches the provider and the history, one event of the event loop
    at a time: a text message handled up to its first [await], a call of
    [sendToAI], and the [exec] callback of a Claude process. *)
Inductive event : Type :=
| Command (body : str)
| Prompted (prompt : str)
| Answered (ex : exec_result).

(** The synchronous part of [sendToAI(prompt)], the provider being
    [currentAI] at the time of the call; the other providers leave the
    history alone. *)
Definition prompted (prompt : str) (s : session) : session :=
  if str_eqb s.(state).(currentAI) (js "claude") then
    mkSession (fst (claudeBegin prompt s.(state))) (S s.(waiting))
  else s.

(** The [exec] callback, on the history as it is by then. *)
Definition answered (ex : exec_result) (s : session) : session :=
  match s.(waiting) with
  | O => s
  | S n => mkSession (fst (claudeFinish ex s.(state))) n
  end.

Section Handle.

Variable toLowerCase : str -> str.

(** What a text message without media does to the provider and the
    history before the handler first awaits: the two switches and
    [/clear].  A prompt for the AI reaches [sendToAI] later, as an event of
    its own; the other commands leave both alone. *)
Definition command (body : str) (s : session) : session :=
  match classify toLowerCase body false false with
  | SwitchProvider name =>
      mkSession (mkState name s.(state).(conversationHistory)) s.(waiting)
  | Clear => mkSession (mkState s.(state).(currentAI) []) s.(waiting)
  | _ => s
  end.

Definition handle (e : event) (s : session) : session :=
  match e with
  | Command body => command body s
  | Prompted prompt => prompted prompt s
  | Answered ex => answered ex s
  end.

Definition handles (evs : list event) (s : session) : session :=
  fold_left (fun x e => handle e x) evs s.

(** At most [n] Claude processes are waiting to answer, now and after
    each of the events. *)
Fixpoint within (n : nat) (evs : list event) (s : session) : bool :=
  (s.(waiting) <=? n) &&
  match evs with
  | [] => true
  | e :: evs' => within n evs' (handle e s)
  end.

End Handle.

(** Rounds one after the other, each answered before the next prompt. *)
Definition inTurn (prs : list (str * exec_result)) : list event :=
  flat_map (fun pr => [Prompted (fst pr); Answered (snd pr)]) prs.

(** A session on Claude with twenty entries and no process waiting, and
    two prompts sent before either is answered. *)
Definition twenty : session :=
  mkSession (rounds (mkState (js "claude") [])
                    (repeat (js "hi", mkExec None (js "ok") []) 10)) 0.

Definition overlapping : list event :=
  [Prompted (js "a"); Prompted (js "b");
   Answered (mkExec None (js "ok") []); Answered (mkExec None (js "ok") [])].

End Session.

(** ** Direct readings of the patterns

    What the patterns of the handler mean on the text itself, without the
    matcher; the properties below relate the two. *)

Fixpoint takeWhile (p : char -> bool) (s : str) : str :=
  match s with
  | c :: t => if p c then c :: takeWhile p t else []
  | [] => []
  end.

Fixpoint dropWhile (p : char -> bool) (s : str) : str :=
  match s with
  | c :: t => if p c then dropWhile p t else s
  | [] => []
  end.

(** The answers of a continuation behind a greedy run of [p]: the longest
    run first, then each shorter one. *)
Fixpoint backoff (p : char -> bool) (k : cont) (cs : caps) (s : str) : answer :=
  match s with
  | c :: t => if p c then orElse (backoff p k cs t) (k s cs) else k s cs
  | [] => k [] cs
  end.

Definition suffix (s' s : str) : Prop := exists pre, s = pre ++ s'.

Module Url.

Import AI.

(** [https://] followed by at least one character that is neither white
    space nor a closing bracket. *)
Definition isUrl (u : str) : Prop :=
  exists body, u = js "https://" ++ body /\ body <> [] /\
               forallb urlChar body = true.

(** [u] is the first URL of [s]: it stands in [s], extends as far as URL
    characters go, and no URL starts before it. *)
Definition firstUrl (s u : str) : Prop :=
  exists pre post,
    s = pre ++ u ++ post /\ isUrl u /\
    (forall c post', post = c :: post' -> urlChar c = false) /\
    (forall a b c t, pre = a ++ b -> b <> [] ->
                     b ++ u ++ post = js "https://" ++ c :: t ->
                     urlChar c = false).

Definition noUrl (s : str) : Prop :=
  forall pre c t, s = pre ++ js "https://" ++ c :: t -> urlChar c = false.

End Url.

Module Directive.

Import Reply.

(** [[SEND_FILE:cap]] *)
Definition directive (cap : str) : str := tag ++ cap ++ [rb].

(** The path of a directive is not empty and holds no closing bracket. *)
Definition wellFormed (cap : str) : Prop :=
  cap <> [] /\ forallb notRb cap = true.

Definition contains (s : str) : Prop :=
  exists pre cap post, wellFormed cap /\ s = pre ++ directive cap ++ post.

Definition blank (s : str) : Prop := forallb is_space s = true.

(** A directive with white space around it. *)
Definition padded (o : str) : Prop :=
  exists ws1 cap ws2,
    blank ws1 /\ blank ws2 /\ wellFormed cap /\
    o = ws1 ++ directive cap ++ ws2.

(** A text cut into a first stretch and then occurrences, each followed by
    the stretch after it; and the stretches alone, one space for each
    occurrence. *)
Definition weave (g0 : str) (pieces : list (str * str)) : str :=
  g0 ++ flat_map (fun p => fst p ++ snd p) pieces.

Definition spaced (g0 : str) (pieces : list (str * str)) : str :=
  g0 ++ flat_map (fun p => js " " ++ snd p) pieces.

(** The directive at the head of [s], if there is one: its path and the
    text behind it. *)
Definition directiveAt (s : str) : option (str * str) :=
  if startsWith s tag then
    let u := skipn (length tag) s in
    match takeWhile notRb u, dropWhile notRb u with
    | _ :: _, _ :: behind => Some (takeWhile notRb u, behind)
    | _, _ => None
    end
  else None.

End Directive.

(** What [narrowSpaceFix] may do to one character: leave it, or put the
    narrow no-break space in place of a plain space. *)
Definition narrowed (a b : char) : Prop :=
  a = b \/ (a = 32%N /\ b = 0x202f%N).

(** * Properties *)

Lemma str_eqb_eq (a b : str) : str_eqb a b = true <-> a = b.
Proof.
  revert b. induction a as [|x a IH]; intros [|y b]; simpl;
    try (split; [discriminate | discriminate]); try tauto.
  rewrite andb_true_iff, N.eqb_eq, IH.
  split; [intros [-> ->]; reflexivity | intros H; injection H; auto].
Qed.

Lemma str_eqb_refl (a : str) : str_eqb a a = true.
Proof. apply str_eqb_eq. reflexivity. Qed.

(** ** The matcher *)

Module RegexFacts.

Import Regex.

Lemma orElse_none_r (a : answer) : orElse a None = a.
Proof. destruct a; reflexivity. Qed.

Lemma takeWhile_dropWhile (p : char -> bool) (s : str) :
  takeWhile p s ++ dropWhile p s = s.
Proof.
  induction s as [|c t IH]; simpl; [reflexivity|].
  destruct (p c); simpl; [rewrite IH|]; reflexivity.
Qed.

Lemma takeWhile_all (p : char -> bool) (s : str) :
  forallb p (takeWhile p s) = true.
Proof.
  induction s as [|c t IH]; simpl; [reflexivity|].
  destruct (p c) eqn:E; simpl; [rewrite E, IH|]; reflexivity.
Qed.

Lemma dropWhile_head (p : char -> bool) (s : str) (c : char) (t : str) :
  dropWhile p s = c :: t -> p c = false.
Proof.
  induction s as [|d u IH]; simpl; [discriminate|].
  destruct (p d) eqn:E; [exact IH|].
  intros H. injection H as <- _. exact E.
Qed.

(** A run followed by a character outside the class is the longest run. *)
Lemma span_app (p : char -> bool) (run : str) (c : char) (t : str) :
  forallb p run = true -> p c = false ->
  takeWhile p (run ++ c :: t) = run /\ dropWhile p (run ++ c :: t) = c :: t.
Proof.
  intros Hr Hc. induction run as [|d run IH]; simpl.
  - rewrite Hc. split; reflexivity.
  - simpl in Hr. apply andb_true_iff in Hr. destruct Hr as [Hd Hr].
    rewrite Hd. destruct (IH Hr) as [-> ->]. split; reflexivity.
Qed.

Lemma span_all (p : char -> bool) (run : str) :
  forallb p run = true -> takeWhile p run = run /\ dropWhile p run = [].
Proof.
  intros Hr. induction run as [|d run IH]; simpl; [split; reflexivity|].
  simpl in Hr. apply andb_true_iff in Hr. destruct Hr as [Hd Hr].
  rewrite Hd. destruct (IH Hr) as [-> ->]. split; reflexivity.
Qed.

Lemma suffix_refl (s : str) : suffix s s.
Proof. exists []. reflexivity. Qed.

Lemma suffix_cons (c : char) (s' s : str) : suffix s' s -> suffix s' (c :: s).
Proof. intros [pre ->]. exists (c :: pre). reflexivity. Qed.

Lemma suffix_trans (a b c : str) : suffix a b -> suffix b c -> suffix a c.
Proof.
  intros [p ->] [q ->]. exists (q ++ p). rewrite app_assoc. reflexivity.
Qed.

Lemma suffix_length (s' s : str) : suffix s' s -> length s' <= length s.
Proof. intros [pre ->]. rewrite length_app. lia. Qed.

Lemma suffix_split (s' s : str) :
  suffix s' s -> s = firstn (length s - length s') s ++ s'.
Proof.
  intros [pre ->]. rewrite length_app.
  replace (length pre + length s' - length s') with (length pre) by lia.
  rewrite firstn_app, Nat.sub_diag, firstn_all. simpl.
  rewrite app_nil_r. reflexivity.
Qed.

Lemma dropWhile_suffix (p : char -> bool) (s : str) : suffix (dropWhile p s) s.
Proof.
  exists (takeWhile p s). symmetry. apply takeWhile_dropWhile.
Qed.

(** A greedy repetition of a character class tries the suffixes behind
    the run from the longest run down. *)
Lemma star_loop_class (p : char -> bool) (k : cont) (cs : caps) :
  forall n s, length s <= n ->
    star_loop (m (Chr p)) true k n s cs = backoff p k cs s.
Proof.
  induction n as [|n IH]; intros s Hn.
  - destruct s; [reflexivity | simpl in Hn; lia].
  - destruct s as [|c t]; simpl; [reflexivity|].
    destruct (p c); [|reflexivity].
    rewrite (proj2 (Nat.ltb_lt (length t) (S (length t)))) by lia.
    rewrite IH by (simpl in Hn; lia). reflexivity.
Qed.

Lemma m_star_class (p : char -> bool) (s : str) (cs : caps) (k : cont) :
  m (Star true (Chr p)) s cs k = backoff p k cs s.
Proof.
  simpl. apply star_loop_class. lia.
Qed.

(** When what follows cannot start with a character of the class, only
    the longest run is left. *)
Lemma backoff_commit (p : char -> bool) (k : cont) (cs : caps) (s : str) :
  (forall c t, p c = true -> k (c :: t) cs = None) ->
  backoff p k cs s = k (dropWhile p s) cs.
Proof.
  intros H. induction s as [|c t IH]; simpl; [reflexivity|].
  destruct (p c) eqn:E; [|reflexivity].
  rewrite IH, (H c t E). apply orElse_none_r.
Qed.

(** When what follows always succeeds, the longest run is taken. *)
Lemma backoff_total (p : char -> bool) (k : cont) (cs : caps) (s : str) :
  (forall u, k u cs <> None) ->
  backoff p k cs s = k (dropWhile p s) cs.
Proof.
  intros H. induction s as [|c t IH]; simpl; [reflexivity|].
  destruct (p c) eqn:E; [|reflexivity].
  rewrite IH. destruct (k (dropWhile p t) cs) eqn:Ek; [reflexivity|].
  exfalso. exact (H _ Ek).
Qed.

Lemma m_lit (w : str) :
  forall s cs k,
    m (lit w) s cs k =
    if startsWith s w then k (skipn (length w) s) cs else None.
Proof.
  induction w as [|a w IH]; intros s cs k; simpl.
  - reflexivity.
  - destruct s as [|b s]; [reflexivity|].
    unfold chr. simpl. destruct (a =? b)%N; simpl; [apply IH | reflexivity].
Qed.

Lemma startsWith_cons (a b : char) (s w : str) :
  startsWith (b :: s) (a :: w) = (a =? b)%N && startsWith s w.
Proof. reflexivity. Qed.

Lemma startsWith_app (s w : str) :
  startsWith s w = true <-> exists t, s = w ++ t.
Proof.
  revert s. induction w as [|a w IH]; intros s; simpl.
  - split; [intros _; exists s; reflexivity | reflexivity].
  - destruct s as [|b s].
    + split; [discriminate | intros [t Ht]; discriminate].
    + rewrite andb_true_iff, N.eqb_eq, IH. split.
      * intros [-> [t ->]]. exists t. reflexivity.
      * intros [t Ht]. injection Ht as -> ->. split; [reflexivity|].
        exists t. reflexivity.
Qed.

Lemma skipn_app_exact (w t : str) : skipn (length w) (w ++ t) = t.
Proof.
  rewrite skipn_app, skipn_all, Nat.sub_diag. reflexivity.
Qed.

Lemma m_seq (r1 r2 : regex) (s : str) (cs : caps) (k : cont) :
  m (Seq r1 r2) s cs k = m r1 s cs (fun s' cs' => m r2 s' cs' k).
Proof. reflexivity. Qed.

Lemma m_chr_cons (c d : char) (t : str) (cs : caps) (k : cont) :
  m (chr c) (d :: t) cs k = if (c =? d)%N then k t cs else None.
Proof. reflexivity. Qed.

Lemma m_group (i : nat) (r : regex) (s : str) (cs : caps) (k : cont) :
  m (Group i r) s cs k =
  m r s cs (fun s' cs' => k s' ((i, firstn (length s - length s') s) :: cs')).
Proof. reflexivity. Qed.

Lemma m_plus_class (p : char -> bool) (s : str) (cs : caps) (k : cont) :
  m (plus true (Chr p)) s cs k =
  match s with
  | c :: t => if p c then backoff p k cs t else None
  | [] => None
  end.
Proof.
  unfold plus. rewrite m_seq. simpl.
  destruct s as [|c t]; [reflexivity|].
  destruct (p c); [|reflexivity].
  apply star_loop_class. lia.
Qed.

Lemma m_plus_commit (p : char -> bool) (s : str) (cs : caps) (k : cont) :
  (forall c t, p c = true -> k (c :: t) cs = None) ->
  m (plus true (Chr p)) s cs k =
  match s with
  | c :: t => if p c then k (dropWhile p t) cs else None
  | [] => None
  end.
Proof.
  intros H. rewrite m_plus_class.
  destruct s as [|c t]; [reflexivity|].
  destruct (p c); [|reflexivity].
  apply backoff_commit. exact H.
Qed.

(** The matcher hands its continuation a suffix of the text. *)
Lemma star_loop_suffix (mr : str -> caps -> cont -> answer) (greedy : bool)
  (k : cont) :
  (forall s cs k' res, mr s cs k' = Some res ->
     exists s' cs', suffix s' s /\ k' s' cs' = Some res) ->
  forall n s cs res,
    star_loop mr greedy k n s cs = Some res ->
    exists s' cs', suffix s' s /\ k s' cs' = Some res.
Proof.
  intros Hmr. induction n as [|n IH]; intros s cs res H; simpl in H.
  - exists s, cs. split; [apply suffix_refl | exact H].
  - assert (Hmore : forall res',
      mr s cs (fun s' cs' =>
        if length s' <? length s then star_loop mr greedy k n s' cs' else None)
      = Some res' ->
      exists s' cs', suffix s' s /\ k s' cs' = Some res').
    { intros res' Hm. apply Hmr in Hm. destruct Hm as (s1 & cs1 & Hs1 & Hk).
      destruct (length s1 <? length s); [|discriminate].
      apply IH in Hk. destruct Hk as (s2 & cs2 & Hs2 & Hk).
      exists s2, cs2. split; [eapply suffix_trans; eassumption | exact Hk]. }
    destruct greedy.
    + destruct (mr s cs _) eqn:Em; simpl in H.
      * injection H as <-. apply Hmore. reflexivity.
      * exists s, cs. split; [apply suffix_refl | exact H].
    + destruct (k s cs) eqn:Ek; simpl in H.
      * injection H as <-. exists s, cs. split; [apply suffix_refl | exact Ek].
      * apply Hmore. exact H.
Qed.

Lemma m_suffix (r : regex) :
  forall s cs k res,
    m r s cs k = Some res ->
    exists s' cs', suffix s' s /\ k s' cs' = Some res.
Proof.
  induction r as [|p|r1 IH1 r2 IH2|r1 IH1 r2 IH2|g r1 IH1|i r1 IH1|];
    intros s cs k res H; simpl in H.
  - exists s, cs. split; [apply suffix_refl | exact H].
  - destruct s as [|c t]; [discriminate|].
    destruct (p c); [|discriminate].
    exists t, cs. split; [exists [c]; reflexivity | exact H].
  - apply IH1 in H. destruct H as (s1 & cs1 & Hs1 & H).
    apply IH2 in H. destruct H as (s2 & cs2 & Hs2 & H).
    exists s2, cs2. split; [eapply suffix_trans; eassumption | exact H].
  - destruct (m r1 s cs k) eqn:E1; simpl in H.
    + injection H as <-. apply IH1 in E1. exact E1.
    + apply IH2 in H. exact H.
  - eapply star_loop_suffix; [exact IH1 | exact H].
  - apply IH1 in H. destruct H as (s1 & cs1 & Hs1 & H).
    exists s1, ((i, firstn (length s - length s1) s) :: cs1).
    split; assumption.
  - destruct s; [|discriminate].
    exists [], cs. split; [apply suffix_refl | exact H].
Qed.

Lemma match_here_suffix (r : regex) (s : str) (cs : caps) (s' : str) :
  match_here r s = Some (cs, s') -> suffix s' s.
Proof.
  intros H. apply m_suffix in H. destruct H as (s1 & cs1 & Hs & H).
  injection H as _ <-. exact Hs.
Qed.

(** [exec] finds the leftmost position at which the pattern matches. *)
Lemma exec_from_some (r : regex) :
  forall s i f,
    exec_from r i s = Some f ->
    exists pre,
      f.(index) = i + length pre /\
      s = pre ++ f.(whole) ++ f.(rest) /\
      match_here r (f.(whole) ++ f.(rest)) = Some (f.(groups), f.(rest)) /\
      forall a b, pre = a ++ b -> b <> [] ->
                  match_here r (b ++ f.(whole) ++ f.(rest)) = None.
Proof.
  induction s as [|c t IH]; intros i f H; simpl in H.
  - destruct (match_here r []) as [[cs s']|] eqn:E; [|discriminate].
    injection H as <-. simpl. exists []. simpl.
    pose proof (match_here_suffix _ _ _ _ E) as Hs.
    rewrite (suffix_split _ _ Hs) in E at 1.
    repeat split; try lia.
    + apply (suffix_split _ _ Hs).
    + exact E.
    + intros a b Hab Hb. destruct a; destruct b; try discriminate.
      contradiction.
  - destruct (match_here r (c :: t)) as [[cs s']|] eqn:E.
    + injection H as <-. simpl. exists []. simpl.
      pose proof (match_here_suffix _ _ _ _ E) as Hs.
      pose proof (suffix_split _ _ Hs) as Hsplit. simpl in Hsplit.
      repeat split; try lia.
      * exact Hsplit.
      * rewrite <- Hsplit. exact E.
      * intros a b Hab Hb. destruct a; destruct b; try discriminate.
        contradiction.
    + apply IH in H. destruct H as (pre & Hi & Ht & Hm & Hnone).
      exists (c :: pre). simpl. repeat split.
      * lia.
      * rewrite Ht at 1. reflexivity.
      * exact Hm.
      * intros a b Hab Hb. destruct a as [|a0 a].
        -- simpl in Hab. subst b. simpl. rewrite <- Ht. exact E.
        -- injection Hab as _ Hab. apply (Hnone a b Hab Hb).
Qed.

Lemma exec_from_none (r : regex) :
  forall s i, exec_from r i s = None ->
              forall a b, s = a ++ b -> match_here r b = None.
Proof.
  induction s as [|c t IH]; intros i H a b Hab; simpl in H.
  - destruct a; destruct b; try discriminate.
    destruct (match_here r []) as [[? ?]|]; [discriminate | reflexivity].
  - destruct (match_here r (c :: t)) as [[cs s']|] eqn:E; [discriminate|].
    destruct a as [|a0 a].
    + simpl in Hab. subst b. exact E.
    + injection Hab as _ Hab. exact (IH _ H a b Hab).
Qed.

Lemma exec_from_found (r : regex) :
  forall a b i, match_here r b <> None -> exec_from r i (a ++ b) <> None.
Proof.
  intros a b i Hb H. apply Hb. eapply exec_from_none; [exact H | reflexivity].
Qed.

(** The result of the global replacement does not depend on the fuel, once
    there is enough. *)
Lemma replace_loop_fuel (r : regex) (rep : caps -> str) :
  forall f1 f2 s, length s < f1 -> length s < f2 ->
                  replace_loop f1 r rep s = replace_loop f2 r rep s.
Proof.
  induction f1 as [|f1 IH]; intros f2 s H1 H2; [lia|].
  destruct f2 as [|f2]; [lia|]. simpl.
  assert (Hstep : match s with [] => [] | c :: t => c :: replace_loop f1 r rep t end =
                  match s with [] => [] | c :: t => c :: replace_loop f2 r rep t end).
  { destruct s as [|c t]; [reflexivity|]. f_equal. apply IH; simpl in *; lia. }
  destruct (match_here r s) as [[cs s']|]; [|exact Hstep].
  f_equal. destruct (length s' <? length s) eqn:E; [|exact Hstep].
  apply Nat.ltb_lt in E. apply IH; lia.
Qed.

(** One step of the global replacement. *)
Lemma replaceAll_step (r : regex) (rep : caps -> str) (s : str) :
  replaceAll r rep s =
  let step := match s with [] => [] | c :: t => c :: replaceAll r rep t end in
  match match_here r s with
  | Some (cs, s') =>
      rep cs ++ (if length s' <? length s then replaceAll r rep s' else step)
  | None => step
  end.
Proof.
  unfold replaceAll at 1. simpl.
  assert (Hstep : match s with [] => [] | c :: t => c :: replace_loop (length s) r rep t end =
                  match s with [] => [] | c :: t => c :: replaceAll r rep t end).
  { destruct s as [|c t]; reflexivity. }
  destruct (match_here r s) as [[cs s']|]; [|exact Hstep].
  f_equal. destruct (length s' <? length s) eqn:E; [|exact Hstep].
  apply Nat.ltb_lt in E. unfold replaceAll. apply replace_loop_fuel; lia.
Qed.

(** The matcher on a few texts, as the engine answers on them. *)
Example replace_empty_matches :
  replaceAll (Star true (chr 120%N)) (fun _ => js "-") (js "abxxc") =
  js "-a-b--c-".
Proof. vm_compute. reflexivity. Qed.

Example lazy_then_optional_number :
  option_map (fun f => (group 1 f.(groups), group 2 f.(groups)))
             (exec Router.queueRe (js "/queue /Users/b/My Folder 30")) =
  Some (Some (js "/Users/b/My Folder"), Some (js "30")).
Proof. vm_compute. reflexivity. Qed.

Example greedy_backtracks_to_extension :
  option_map (fun f => group 1 f.(groups))
             (exec Reply.usersRe (js "see /users/a b/c.d.PDF and more")) =
  Some (Some (js "/users/a b/c.d.PDF")).
Proof. vm_compute. reflexivity. Qed.

Example narrow_space_before_pm :
  Reply.narrowSpaceFix (js "/d/Shot at 3.10.11 PM.png") =
  js "/d/Shot at 3.10.11" ++ [0x202f%N] ++ js "PM.png".
Proof. vm_compute. reflexivity. Qed.

End RegexFacts.

(** ** Conversation history *)

Module AIFacts.

Import AI.

Lemma slice_last_length {A : Type} (n : nat) (l : list A) :
  length (slice_last n l) = Nat.min n (length l).
Proof.
  unfold slice_last. rewrite length_skipn. lia.
Qed.

Lemma slice_last_all {A : Type} (n : nat) (l : list A) :
  length l <= n -> slice_last n l = l.
Proof.
  intros H. unfold slice_last.
  replace (length l - n) with 0 by lia. reflexivity.
Qed.

(** Trimming an intermediate history does not change what a later trim
    keeps. *)
Lemma slice_last_app_slice {A : Type} (n : nat) (x y : list A) :
  slice_last n (slice_last n x ++ y) = slice_last n (x ++ y).
Proof.
  unfold slice_last.
  rewrite !length_app, length_skipn, !skipn_app, skipn_skipn, length_skipn.
  f_equal; f_equal; lia.
Qed.

(** One round keeps the last 21 entries: the trim runs before the
    assistant entry is pushed. *)
Lemma round_history (st : ai_state) (pr : str * exec_result) :
  conversationHistory (round st pr) =
  slice_last 21 (conversationHistory st ++
                 [mkEntry user (fst pr);
                  mkEntry assistant (claudeResponse (snd pr))]).
Proof.
  unfold round, sendToAI. simpl.
  set (h := conversationHistory st).
  set (u := mkEntry user (fst pr)).
  set (a := mkEntry assistant (claudeResponse (snd pr))).
  unfold MAX_HISTORY.
  destruct (20 <? length (h ++ [u])) eqn:E.
  - apply Nat.ltb_lt in E. rewrite length_app in E. simpl in E.
    unfold slice_last.
    replace (h ++ [u; a]) with ((h ++ [u]) ++ [a])
      by (rewrite <- app_assoc; reflexivity).
    rewrite !length_app. simpl.
    rewrite (skipn_app (length h + 1 + 1 - 21)).
    replace (length h + 1 + 1 - 21) with (length h + 1 - 20) by lia.
    f_equal. rewrite length_app. simpl.
    replace (length h + 1 - 20 - (length h + 1)) with 0 by lia.
    reflexivity.
  - apply Nat.ltb_ge in E. rewrite length_app in E. simpl in E.
    rewrite slice_last_all.
    + rewrite <- app_assoc. reflexivity.
    + rewrite length_app. simpl. lia.
Qed.

Lemma rounds_history (prs : list (str * exec_result)) :
  forall st,
    length (conversationHistory st) <= 21 ->
    conversationHistory (rounds st prs) =
    slice_last 21 (conversationHistory st ++ inserted prs).
Proof.
  induction prs as [|pr prs IH]; intros st Hlen.
  - simpl. rewrite app_nil_r. symmetry. apply slice_last_all. exact Hlen.
  - change (rounds st (pr :: prs)) with (rounds (round st pr) prs).
    rewrite IH.
    + rewrite round_history, slice_last_app_slice, <- app_assoc.
      reflexivity.
    + rewrite round_history, slice_last_length. lia.
Qed.

Lemma inserted_length (prs : list (str * exec_result)) :
  length (inserted prs) = 2 * length prs.
Proof.
  induction prs as [|pr prs IH]; simpl; lia.
Qed.

(** C1. The stored history does not stay within [MAX_HISTORY]: from an empty
    history, eleven or more completed Claude rounds leave 21 entries at
    rest, the most recent 21 inserted, which is not the most recent 20. *)
Theorem history_exceeds_max (st : ai_state) (prs : list (str * exec_result)) :
  conversationHistory st = [] ->
  11 <= length prs ->
  let h := conversationHistory (rounds st prs) in
  length h = 21 /\ MAX_HISTORY < length h /\
  h = slice_last 21 (inserted prs) /\
  h <> slice_last MAX_HISTORY (inserted prs).
Proof.
  intros Hst Hn h.
  assert (Hh : h = slice_last 21 (inserted prs)).
  { unfold h. rewrite rounds_history; rewrite Hst; simpl; [reflexivity | lia]. }
  assert (Hl : length h = 21).
  { rewrite Hh, slice_last_length, inserted_length. lia. }
  repeat split; try assumption.
  - unfold MAX_HISTORY. lia.
  - intros Heq. rewrite Heq, slice_last_length, inserted_length in Hl.
    unfold MAX_HISTORY in Hl. lia.
Qed.

Lemma history_exceeds_max_witness :
  length (conversationHistory
            (rounds (mkState (js "claude") []) elevenRounds)) = 21.
Proof.
  apply (history_exceeds_max (mkState (js "claude") []) elevenRounds).
  - reflexivity.
  - simpl. lia.
Defined.

(** C10. A round on any provider other than Claude leaves the state, and
    with it the conversation history, as it was; a later Claude round
    sends the same prompt and ends in the same state as if the other round
    had not taken place. *)
Theorem other_provider_keeps_history
  (prompt provider : str) (ex : exec_result) (sp : spawn_event) (st : ai_state) :
  provider <> js "claude" ->
  let st' := fst (sendToAI prompt provider ex sp st) in
  st' = st /\
  conversationHistory st' = conversationHistory st /\
  forall prompt' ex' sp',
    promptSent prompt' st' = promptSent prompt' st /\
    sendToAI prompt' (js "claude") ex' sp' st' =
    sendToAI prompt' (js "claude") ex' sp' st.
Proof.
  intros Hp st'.
  assert (H : st' = st).
  { unfold st', sendToAI.
    destruct (str_eqb provider (js "claude")) eqn:E.
    - apply str_eqb_eq in E. contradiction.
    - destruct sp; reflexivity. }
  rewrite H. repeat split; reflexivity.
Qed.

Lemma other_provider_keeps_history_witness :
  fst (sendToAI (js "hello") (js "qwen") (mkExec None [] [])
                (Closed (js "hi there") [])
                (mkState (js "qwen") [mkEntry user (js "a")])) =
  mkState (js "qwen") [mkEntry user (js "a")].
Proof.
  apply (other_provider_keeps_history (js "hello") (js "qwen")
           (mkExec None [] []) (Closed (js "hi there") [])
           (mkState (js "qwen") [mkEntry user (js "a")])).
  discriminate.
Defined.

End AIFacts.

(** ** Classification of the outcome of the Claude process *)

Module AdapterFacts.

Import Regex RegexFacts AI Url.

Lemma match_here_urlRe (s : str) :
  match_here urlRe s =
  if startsWith s (js "https://") then
    match skipn 8 s with
    | c :: t => if urlChar c then Some ([], dropWhile urlChar t) else None
    | [] => None
    end
  else None.
Proof.
  unfold match_here, urlRe. rewrite m_seq, m_lit.
  destruct (startsWith s (js "https://")); [|reflexivity].
  change (length (js "https://")) with 8.
  rewrite m_plus_class.
  destruct (skipn 8 s) as [|c t]; [reflexivity|].
  destruct (urlChar c); [|reflexivity].
  apply backoff_total. discriminate.
Qed.

Lemma match_here_urlRe_some (s : str) (cs : caps) (s' : str) :
  match_here urlRe s = Some (cs, s') ->
  exists c t, s = js "https://" ++ c :: t /\ urlChar c = true /\
              s' = dropWhile urlChar t.
Proof.
  rewrite match_here_urlRe.
  destruct (startsWith s (js "https://")) eqn:E; [|discriminate].
  apply startsWith_app in E. destruct E as [u ->].
  change 8 with (length (js "https://")). rewrite skipn_app_exact.
  destruct u as [|c t]; [discriminate|].
  destruct (urlChar c) eqn:Ec; [|discriminate].
  intros H. injection H as _ <-. exists c, t. repeat split. exact Ec.
Qed.

Lemma match_here_urlRe_none (c : char) (t : str) :
  match_here urlRe (js "https://" ++ c :: t) = None -> urlChar c = false.
Proof.
  rewrite match_here_urlRe.
  replace (startsWith (js "https://" ++ c :: t) (js "https://")) with true
    by (symmetry; apply startsWith_app; eexists; reflexivity).
  change 8 with (length (js "https://")). rewrite skipn_app_exact.
  destruct (urlChar c); [discriminate | reflexivity].
Qed.

Lemma authUrl_some (s u : str) : authUrl s = Some u -> firstUrl s u.
Proof.
  unfold authUrl, exec. destruct (exec_from urlRe 0 s) as [f|] eqn:E;
    [|discriminate].
  simpl. intros H. injection H as <-.
  apply exec_from_some in E. destruct E as (pre & _ & Hs & Hm & Hleft).
  pose proof (match_here_urlRe_some _ _ _ Hm) as (c & t & Hw & Hc & Hr).
  assert (Hwhole : whole f = js "https://" ++ c :: takeWhile urlChar t).
  { apply (app_inv_tail (rest f)). rewrite Hw, Hr.
    rewrite <- app_assoc. simpl.
    rewrite takeWhile_dropWhile. reflexivity. }
  exists pre, (rest f). repeat split.
  - exact Hs.
  - exists (c :: takeWhile urlChar t). repeat split.
    + exact Hwhole.
    + discriminate.
    + simpl. rewrite Hc. apply takeWhile_all.
  - intros d post' Hp. rewrite Hr in Hp.
    apply (dropWhile_head _ _ _ _ Hp).
  - intros a b d v Hab Hb Heq.
    apply (match_here_urlRe_none d v). rewrite <- Heq.
    apply (Hleft a b Hab Hb).
Qed.

Lemma authUrl_none (s : str) : authUrl s = None -> noUrl s.
Proof.
  unfold authUrl, exec. destruct (exec_from urlRe 0 s) as [f|] eqn:E;
    [discriminate|].
  intros _ pre c t Hs. apply (match_here_urlRe_none c t).
  apply (exec_from_none _ _ _ E pre). exact Hs.
Qed.

Lemma authUrl_truthy (s u : str) : authUrl s = Some u -> truthy u = true.
Proof.
  intros H. apply authUrl_some in H.
  destruct H as (_ & _ & _ & (body & -> & _) & _). reflexivity.
Qed.

Lemma truthy_trim (s : str) : truthy s && truthy (trim s) = truthy (trim s).
Proof. destruct s; reflexivity. Qed.

Lemma truthy_false (s : str) : truthy s = false <-> s = [].
Proof. destruct s; split; (reflexivity || discriminate). Qed.

Lemma truthy_true (s : str) : truthy s = true <-> s <> [].
Proof. destruct s; split; try reflexivity; try discriminate; congruence. Qed.

Lemma hasAuthMarker_truthy (s : str) :
  truthy s && hasAuthMarker s = hasAuthMarker s.
Proof. destruct s; reflexivity. Qed.

(** C4, as the code has it.  The result is chosen by strict precedence,
    the two outputs being tested after trimming: standard output that is
    not blank gives that output, trimmed; otherwise a standard error
    holding [authorize] or [login] gives the authorisation message with the
    first URL of the standard error, or with a generic instruction when it
    has none; otherwise a standard error that is not blank is returned,
    trimmed, behind the name of the backend; otherwise a process error gives
    a message with its text; otherwise the reply is that there was no
    response. *)
Theorem claude_response_precedence (r : exec_result) :
  (trim r.(stdout) <> [] -> claudeResponse r = trim r.(stdout)) /\
  (trim r.(stdout) = [] -> hasAuthMarker r.(stderr) = true ->
   (forall u, authUrl r.(stderr) = Some u ->
      firstUrl r.(stderr) u /\
      claudeResponse r = js "Please authorize Claude first: " ++ u) /\
   (authUrl r.(stderr) = None ->
      noUrl r.(stderr) /\
      claudeResponse r =
      js "Please authorize Claude first: Check terminal for auth URL")) /\
  (trim r.(stdout) = [] -> hasAuthMarker r.(stderr) = false ->
   trim r.(stderr) <> [] ->
   claudeResponse r = js "Claude: " ++ trim r.(stderr)) /\
  (trim r.(stdout) = [] -> hasAuthMarker r.(stderr) = false ->
   trim r.(stderr) = [] ->
   forall message, r.(error) = Some message ->
   claudeResponse r = js "Claude error: " ++ message) /\
  (trim r.(stdout) = [] -> hasAuthMarker r.(stderr) = false ->
   trim r.(stderr) = [] -> r.(error) = None ->
   claudeResponse r = js "No response from Claude").
Proof.
  unfold claudeResponse.
  rewrite truthy_trim, hasAuthMarker_truthy, truthy_trim.
  split; [|split; [|split; [|split]]].
  - intros H. apply truthy_true in H. rewrite H. reflexivity.
  - intros Hout Hmark. apply truthy_false in Hout. rewrite Hout, Hmark.
    split.
    + intros u Hu. split; [apply authUrl_some; exact Hu|].
      rewrite Hu. simpl. rewrite (authUrl_truthy _ _ Hu). reflexivity.
    + intros Hu. split; [apply authUrl_none; exact Hu|].
      rewrite Hu. reflexivity.
  - intros Hout Hmark Herr. apply truthy_false in Hout.
    apply truthy_true in Herr. rewrite Hout, Hmark, Herr. reflexivity.
  - intros Hout Hmark Herr message He. apply truthy_false in Hout, Herr.
    rewrite Hout, Hmark, Herr, He. reflexivity.
  - intros Hout Hmark Herr He. apply truthy_false in Hout, Herr.
    rewrite Hout, Hmark, Herr, He. reflexivity.
Qed.

(** The spawned backend is classified the same way, without the case of a
    process error, which rejects the promise instead. *)
Lemma spawn_response_precedence (provider output errorOutput : str) :
  (trim output <> [] -> spawnResponse provider output errorOutput = trim output) /\
  (trim output = [] -> hasAuthMarker errorOutput = true ->
   spawnResponse provider output errorOutput =
   js "Please authorize " ++ provider ++ js " first: " ++
   match authUrl errorOutput with
   | Some u => u
   | None => js "Check terminal for auth URL"
   end) /\
  (trim output = [] -> hasAuthMarker errorOutput = false ->
   trim errorOutput <> [] ->
   spawnResponse provider output errorOutput =
   provider ++ js ": " ++ trim errorOutput) /\
  (trim output = [] -> hasAuthMarker errorOutput = false ->
   trim errorOutput = [] ->
   spawnResponse provider output errorOutput = js "No response from " ++ provider).
Proof.
  unfold spawnResponse. split; [|split; [|split]].
  - intros H. apply truthy_true in H. rewrite H. reflexivity.
  - intros Hout Hmark. apply truthy_false in Hout. rewrite Hout, Hmark.
    destruct (authUrl errorOutput) as [u|] eqn:Hu; [|reflexivity].
    simpl. rewrite (authUrl_truthy _ _ Hu). reflexivity.
  - intros Hout Hmark Herr. apply truthy_false in Hout.
    apply truthy_true in Herr. rewrite Hout, Hmark, Herr. reflexivity.
  - intros Hout Hmark Herr. apply truthy_false in Hout, Herr.
    rewrite Hout, Hmark, Herr. reflexivity.
Qed.

Lemma claude_response_precedence_witness :
  claudeResponse (mkExec None nl (js "Please login: [https://a.example/x?y] now")) =
  js "Please authorize Claude first: https://a.example/x?y".
Proof.
  destruct (claude_response_precedence
              (mkExec None nl (js "Please login: [https://a.example/x?y] now")))
    as (_ & H & _).
  destruct H as [H _]; [reflexivity | reflexivity |].
  apply (H (js "https://a.example/x?y")). reflexivity.
Defined.

(** C4 as stated fails: standard output that is not empty but blank does
    not give a success; the standard error is reported instead. *)
Lemma blank_stdout_is_not_success :
  let r := mkExec None nl (js "boom") in
  r.(stdout) <> [] /\
  claudeResponse r = js "Claude: boom" /\
  claudeResponse r <> r.(stdout).
Proof.
  repeat split; discriminate.
Qed.

End AdapterFacts.

(** ** The file directive in a reply *)

Module ReplyFacts.

Import Regex RegexFacts Reply Directive.

Lemma notRb_false (c : char) : notRb c = false <-> c = rb.
Proof.
  unfold notRb. rewrite negb_false_iff. apply N.eqb_eq.
Qed.

Lemma chr_rb_after_run (c : char) (t : str) (cs : caps) (k : cont) :
  notRb c = true -> m (chr rb) (c :: t) cs k = None.
Proof.
  intros H. unfold notRb in H. apply negb_true_iff in H.
  change (m (chr rb) (c :: t) cs k) with (if (rb =? c)%N then k t cs else None).
  rewrite N.eqb_sym, H. reflexivity.
Qed.

Lemma firstn_takeWhile (p : char -> bool) (s : str) :
  firstn (length s - length (dropWhile p s)) s = takeWhile p s.
Proof.
  rewrite <- (takeWhile_dropWhile p s) at 1 3.
  rewrite length_app, Nat.add_sub, firstn_app, Nat.sub_diag, firstn_all.
  simpl. apply app_nil_r.
Qed.

(** The pattern of the directive reads as [directiveAt]. *)
Lemma match_here_sendFileRe (s : str) :
  match_here sendFileRe s =
  match directiveAt s with
  | Some (cap, behind) => Some ([(1, cap)], behind)
  | None => None
  end.
Proof.
  unfold match_here, sendFileRe, directiveAt. rewrite m_seq, m_lit.
  destruct (startsWith s tag); [|reflexivity].
  set (u := skipn (length tag) s).
  rewrite m_seq, m_group.
  rewrite m_plus_commit by (intros c t Hc; apply chr_rb_after_run; exact Hc).
  destruct u as [|c t]; [reflexivity|]. simpl takeWhile. simpl dropWhile.
  destruct (notRb c) eqn:Ec; [|reflexivity].
  pose proof (firstn_takeWhile notRb (c :: t)) as Hf.
  simpl takeWhile in Hf. simpl dropWhile in Hf. rewrite Ec in Hf.
  rewrite Hf.
  destruct (dropWhile notRb t) as [|d behind] eqn:Ed; [reflexivity|].
  apply dropWhile_head in Ed. apply notRb_false in Ed. subst d.
  rewrite m_chr_cons, N.eqb_refl. reflexivity.
Qed.

Lemma space_not_bracket (c : char) (t : str) :
  is_space c = true -> startsWith (c :: t) tag = false.
Proof.
  intros H. change tag with (91%N :: js "SEND_FILE:").
  rewrite startsWith_cons.
  destruct (91 =? c)%N eqn:E; [|reflexivity].
  apply N.eqb_eq in E. subst c. discriminate H.
Qed.

(** The pattern of the replacement reads as [directiveAt] behind white
    space, and takes the white space after the directive too. *)
Lemma match_here_stripRe (s : str) :
  match_here stripRe s =
  match directiveAt (dropWhile is_space s) with
  | Some (cap, behind) => Some ([], dropWhile is_space behind)
  | None => None
  end.
Proof.
  unfold match_here, stripRe. rewrite m_seq, m_star_class.
  rewrite backoff_commit.
  2:{ intros c t Hc. rewrite m_seq, m_lit, space_not_bracket by exact Hc.
      reflexivity. }
  set (v := dropWhile is_space s). unfold directiveAt.
  rewrite m_seq, m_lit.
  destruct (startsWith v tag); [|reflexivity].
  set (u := skipn (length tag) v).
  rewrite m_seq.
  rewrite m_plus_commit.
  2:{ intros c t Hc. rewrite m_seq. apply chr_rb_after_run. exact Hc. }
  destruct u as [|c t]; [reflexivity|]. simpl takeWhile. simpl dropWhile.
  destruct (notRb c) eqn:Ec; [|reflexivity].
  destruct (dropWhile notRb t) as [|d behind] eqn:Ed; [reflexivity|].
  apply dropWhile_head in Ed. apply notRb_false in Ed. subst d.
  rewrite m_seq, m_chr_cons, N.eqb_refl, m_star_class.
  apply backoff_total. discriminate.
Qed.

Lemma directiveAt_some (s cap behind : str) :
  directiveAt s = Some (cap, behind) <->
  wellFormed cap /\ s = directive cap ++ behind.
Proof.
  unfold directiveAt, wellFormed, directive. split.
  - destruct (startsWith s tag) eqn:E; [|discriminate].
    apply startsWith_app in E. destruct E as [u ->].
    rewrite skipn_app_exact.
    destruct (takeWhile notRb u) as [|c run] eqn:Et; [discriminate|].
    destruct (dropWhile notRb u) as [|d behind'] eqn:Ed; [discriminate|].
    intros H. injection H as <- <-.
    pose proof (dropWhile_head _ _ _ _ Ed) as Hd. apply notRb_false in Hd.
    subst d.
    pose proof (takeWhile_dropWhile notRb u) as Hu. rewrite Et, Ed in Hu.
    repeat split.
    + discriminate.
    + rewrite <- Et. apply takeWhile_all.
    + rewrite <- Hu, <- !app_assoc. reflexivity.
  - intros [[Hne Hall] ->].
    replace (startsWith ((tag ++ cap ++ [rb]) ++ behind) tag) with true
      by (symmetry; apply startsWith_app; eexists; rewrite <- !app_assoc;
          reflexivity).
    rewrite <- !app_assoc, skipn_app_exact. simpl.
    destruct (span_app notRb cap rb behind Hall eq_refl) as [-> ->].
    destruct cap; [contradiction | reflexivity].
Qed.

(** A text contains a directive exactly where [exec] finds one. *)
Lemma sendFileMatch_none (s : str) :
  sendFileMatch s = None <-> ~ contains s.
Proof.
  unfold sendFileMatch, exec. split.
  - intros H (pre & cap & post & Hw & Hs).
    pose proof (exec_from_none _ _ _ H pre _ Hs) as Hm.
    rewrite match_here_sendFileRe in Hm.
    rewrite (proj2 (directiveAt_some _ cap post)) in Hm by (split; auto).
    discriminate.
  - intros H. destruct (exec_from sendFileRe 0 s) as [f|] eqn:E;
      [|reflexivity].
    exfalso. apply H.
    apply exec_from_some in E. destruct E as (pre & _ & Hs & Hm & _).
    rewrite match_here_sendFileRe in Hm.
    destruct (directiveAt (whole f ++ rest f)) as [[cap behind]|] eqn:Ed;
      [|discriminate].
    apply directiveAt_some in Ed. destruct Ed as [Hw Hd].
    exists pre, cap, behind. split; [exact Hw|]. rewrite Hs, Hd. reflexivity.
Qed.

(** [exec] on the directive pattern: the first occurrence and its path. *)
Lemma sendFileMatch_some (s : str) (f : found) :
  sendFileMatch s = Some f ->
  exists pre cap post,
    s = pre ++ directive cap ++ post /\ wellFormed cap /\
    group1 (Some f) = Some cap /\
    forall pre' cap' post',
      wellFormed cap' -> s = pre' ++ directive cap' ++ post' ->
      length pre <= length pre'.
Proof.
  unfold sendFileMatch, exec. intros E.
  apply exec_from_some in E. destruct E as (pre & _ & Hs & Hm & Hleft).
  rewrite match_here_sendFileRe in Hm.
  destruct (directiveAt (whole f ++ rest f)) as [[cap behind]|] eqn:Ed;
    [|discriminate].
  injection Hm as Hg Hr.
  apply directiveAt_some in Ed. destruct Ed as [Hw Hd].
  exists pre, cap, behind. repeat split.
  - rewrite Hs, Hd. reflexivity.
  - apply Hw.
  - apply Hw.
  - unfold group1. rewrite <- Hg. simpl.
    destruct Hw as [Hne _]. destruct cap; [contradiction | reflexivity].
  - intros pre' cap' post' Hw' Hs'.
    destruct (le_lt_dec (length pre) (length pre')) as [Hle|Hlt]; [exact Hle|].
    exfalso.
    assert (Hcut : exists b, pre = pre' ++ b /\ b <> []).
    { exists (skipn (length pre') pre).
      assert (Hp : pre' = firstn (length pre') pre).
      { apply (f_equal (firstn (length pre'))) in Hs'.
        rewrite Hs in Hs' at 1.
        rewrite !firstn_app, !firstn_all, Nat.sub_diag in Hs'.
        replace (length pre' - length pre) with 0 in Hs' by lia.
        simpl in Hs'. rewrite !app_nil_r in Hs'. symmetry. exact Hs'. }
      split.
      - rewrite Hp at 1. symmetry. apply firstn_skipn.
      - intros Hnil. apply (f_equal (@length char)) in Hnil.
        rewrite length_skipn in Hnil. simpl in Hnil. lia. }
    destruct Hcut as (b & Hpre & Hb).
    pose proof (Hleft pre' b Hpre Hb) as Hnone.
    assert (Hsame : b ++ whole f ++ rest f = directive cap' ++ post').
    { apply (app_inv_head pre'). rewrite app_assoc, <- Hpre, <- Hs.
      exact Hs'. }
    rewrite Hsame, match_here_sendFileRe in Hnone.
    rewrite (proj2 (directiveAt_some _ cap' post')) in Hnone
      by (split; auto).
    discriminate.
Qed.

(** *** The global replacement *)

(** The text with every match of the replacement pattern turned into one
    space, before trimming. *)

Lemma directiveAt_behind_space (s cap behind : str) :
  directiveAt (dropWhile is_space s) = Some (cap, behind) ->
  wellFormed cap /\
  s = (takeWhile is_space s ++ directive cap ++ takeWhile is_space behind) ++
      dropWhile is_space behind.
Proof.
  intros H. apply directiveAt_some in H. destruct H as [Hw Hd].
  split; [exact Hw|].
  rewrite <- (takeWhile_dropWhile is_space s) at 1.
  rewrite Hd.
  rewrite <- (takeWhile_dropWhile is_space behind) at 1.
  rewrite <- !app_assoc. reflexivity.
Qed.

Lemma blanked_step (s : str) :
  blanked s =
  match directiveAt (dropWhile is_space s) with
  | Some (cap, behind) => js " " ++ blanked (dropWhile is_space behind)
  | None => match s with [] => [] | c :: t => c :: blanked t end
  end.
Proof.
  unfold blanked at 1. rewrite replaceAll_step, match_here_stripRe.
  destruct (directiveAt (dropWhile is_space s)) as [[cap behind]|] eqn:E;
    [|reflexivity].
  apply directiveAt_behind_space in E. destruct E as [_ Hs].
  apply (f_equal (@length char)) in Hs.
  unfold directive, tag in Hs. rewrite !length_app in Hs. simpl in Hs.
  rewrite (proj2 (Nat.ltb_lt _ _)) by lia. reflexivity.
Qed.

Lemma padded_intro (ws1 cap ws2 : str) :
  forallb is_space ws1 = true -> forallb is_space ws2 = true ->
  wellFormed cap -> padded (ws1 ++ directive cap ++ ws2).
Proof.
  intros H1 H2 Hw. exists ws1, cap, ws2. repeat split; try assumption; apply Hw.
Qed.

Lemma weave_cons (o g : str) (pieces : list (str * str)) :
  weave [] ((o, g) :: pieces) = o ++ weave g pieces.
Proof. unfold weave. simpl. rewrite <- app_assoc. reflexivity. Qed.

Lemma weave_head (c : char) (g : str) (pieces : list (str * str)) :
  weave (c :: g) pieces = c :: weave g pieces.
Proof. reflexivity. Qed.

Lemma spaced_cons (o g : str) (pieces : list (str * str)) :
  spaced [] ((o, g) :: pieces) = js " " ++ spaced g pieces.
Proof. reflexivity. Qed.

Lemma spaced_head (c : char) (g : str) (pieces : list (str * str)) :
  spaced (c :: g) pieces = c :: spaced g pieces.
Proof. reflexivity. Qed.

(** The replacement keeps every stretch of text between the occurrences
    and puts one space for each occurrence. *)
Lemma blanked_pieces :
  forall n s, length s <= n ->
    exists g0 pieces,
      s = weave g0 pieces /\
      Forall (fun p => padded (fst p)) pieces /\
      blanked s = spaced g0 pieces.
Proof.
  induction n as [|n IH]; intros s Hn.
  - destruct s; [|simpl in Hn; lia].
    exists [], []. repeat split. constructor.
  - rewrite blanked_step.
    destruct (directiveAt (dropWhile is_space s)) as [[cap behind]|] eqn:E.
    + apply directiveAt_behind_space in E. destruct E as [Hw Hs].
      destruct (IH (dropWhile is_space behind)) as (g0 & pieces & Hg & Hp & Hb).
      { apply (f_equal (@length char)) in Hs.
        unfold directive, tag in Hs. rewrite !length_app in Hs. simpl in Hs.
        lia. }
      exists [], ((takeWhile is_space s ++ directive cap ++
                   takeWhile is_space behind, g0) :: pieces).
      repeat split.
      * rewrite weave_cons, <- Hg. exact Hs.
      * constructor; [|exact Hp].
        apply padded_intro; [apply takeWhile_all | apply takeWhile_all | exact Hw].
      * rewrite spaced_cons, Hb. reflexivity.
    + destruct s as [|c t].
      * exists [], []. repeat split. constructor.
      * destruct (IH t) as (g0 & pieces & Hg & Hp & Hb);
          [simpl in Hn; lia|].
        exists (c :: g0), pieces. repeat split.
        -- rewrite weave_head, <- Hg. reflexivity.
        -- exact Hp.
        -- rewrite spaced_head, Hb. reflexivity.
Qed.

(** A character of the result that is not white space is the character of
    the text at that place. *)
Lemma blanked_head (t : str) (x : char) (out : str) :
  blanked t = x :: out -> is_space x = false ->
  exists t', t = x :: t' /\ blanked t' = out.
Proof.
  rewrite blanked_step.
  destruct (directiveAt (dropWhile is_space t)) as [[cap behind]|].
  - simpl. intros H Hx. injection H as <- _. discriminate Hx.
  - destruct t as [|c t']; [discriminate|].
    intros H _. injection H as -> <-. exists t'. split; reflexivity.
Qed.

Lemma blanked_prefix (w : str) :
  forallb (fun x => negb (is_space x)) w = true ->
  forall t out, blanked t = w ++ out ->
                exists t', t = w ++ t' /\ blanked t' = out.
Proof.
  induction w as [|x w IH]; intros Hw t out H.
  - exists t. split; [reflexivity | exact H].
  - simpl in Hw. apply andb_true_iff in Hw. destruct Hw as [Hx Hw].
    apply negb_true_iff in Hx.
    destruct (blanked_head _ _ _ H Hx) as (t1 & -> & H1).
    destruct (IH Hw _ _ H1) as (t' & -> & H2).
    exists t'. split; [reflexivity | exact H2].
Qed.

(** The replacement only writes characters of the text, and spaces. *)
Lemma blanked_chars :
  forall n s, length s <= n ->
    forall x, In x (blanked s) -> In x s \/ x = 32%N.
Proof.
  induction n as [|n IH]; intros s Hn x.
  - destruct s; [|simpl in Hn; lia]. rewrite blanked_step. simpl. tauto.
  - rewrite blanked_step.
    destruct (directiveAt (dropWhile is_space s)) as [[cap behind]|] eqn:E.
    + apply directiveAt_behind_space in E. destruct E as [_ Hs].
      simpl. intros [<-|Hx]; [right; reflexivity|].
      apply IH in Hx.
      * destruct Hx as [Hx|Hx]; [left | right; exact Hx].
        rewrite Hs. apply in_or_app. right. exact Hx.
      * apply (f_equal (@length char)) in Hs.
        unfold directive, tag in Hs. rewrite !length_app in Hs. simpl in Hs.
        lia.
    + destruct s as [|c t]; [simpl; tauto|].
      simpl. intros [<-|Hx]; [left; left; reflexivity|].
      apply IH in Hx; [|simpl in Hn; lia].
      destruct Hx as [Hx|Hx]; [left; right; exact Hx | right; exact Hx].
Qed.

Lemma directiveAt_not_tag (s : str) :
  startsWith s tag = false -> directiveAt s = None.
Proof.
  intros H. unfold directiveAt. rewrite H. reflexivity.
Qed.

(** No directive is left anywhere in the result of the replacement. *)
Lemma blanked_clean :
  forall n s, length s <= n ->
    forall a b, blanked s = a ++ b -> directiveAt b = None.
Proof.
  induction n as [|n IH]; intros s Hn a b.
  - destruct s; [|simpl in Hn; lia]. rewrite blanked_step. simpl.
    intros H. destruct a; destruct b; try discriminate. reflexivity.
  - rewrite blanked_step.
    destruct (directiveAt (dropWhile is_space s)) as [[cap behind]|] eqn:E.
    + apply directiveAt_behind_space in E. destruct E as [_ Hs].
      assert (Hlen : length (dropWhile is_space behind) <= n).
      { apply (f_equal (@length char)) in Hs.
        unfold directive, tag in Hs. rewrite !length_app in Hs. simpl in Hs.
        lia. }
      destruct a as [|x a]; simpl; intros H.
      * subst b. apply directiveAt_not_tag.
        apply space_not_bracket. reflexivity.
      * injection H as _ H. exact (IH _ Hlen a b H).
    + destruct s as [|c t].
      * intros H. destruct a; destruct b; try discriminate. reflexivity.
      * destruct a as [|x a]; simpl; intros H.
        2:{ injection H as _ H. apply (IH t ltac:(simpl in Hn; lia) a b H). }
        subst b.
        destruct (directiveAt (c :: blanked t)) as [[cap' behind']|] eqn:Ed;
          [exfalso | reflexivity].
        apply directiveAt_some in Ed. destruct Ed as [[Hne Hall] Hd].
        unfold directive in Hd.
        change tag with (91%N :: js "SEND_FILE:") in Hd.
        rewrite <- !app_assoc in Hd. simpl in Hd.
        injection Hd as -> Hd.
        change (83%N :: 69%N :: 78%N :: 68%N :: 95%N :: 70%N :: 73%N :: 76%N ::
                69%N :: 58%N :: cap' ++ rb :: behind')
          with (js "SEND_FILE:" ++ cap' ++ rb :: behind') in Hd.
        apply blanked_prefix in Hd; [|reflexivity].
        destruct Hd as (t10 & -> & Hd).
        (* no directive at the head of the text itself *)
        change (91%N :: js "SEND_FILE:" ++ t10) with (tag ++ t10) in E.
        change (dropWhile is_space (tag ++ t10)) with (tag ++ t10) in E.
        unfold directiveAt in E.
        replace (startsWith (tag ++ t10) tag) with true in E
          by (symmetry; apply startsWith_app; eexists; reflexivity).
        rewrite skipn_app_exact in E.
        destruct (dropWhile notRb t10) as [|d behind0] eqn:Edrop.
        -- (* no closing bracket in the rest of the text *)
           assert (Hin : In rb (blanked t10)).
           { rewrite Hd. apply in_or_app. right. left. reflexivity. }
           apply (blanked_chars (length t10)) in Hin; [|lia].
           destruct Hin as [Hin|Hin]; [|discriminate Hin].
           pose proof (takeWhile_dropWhile notRb t10) as Ht.
           rewrite Edrop, app_nil_r in Ht.
           pose proof (takeWhile_all notRb t10) as Hall'. rewrite Ht in Hall'.
           rewrite forallb_forall in Hall'. apply Hall' in Hin.
           discriminate Hin.
        -- (* the closing bracket follows the tag at once *)
           destruct (takeWhile notRb t10) as [|c0 run0] eqn:Etake;
             [|discriminate E].
           pose proof (takeWhile_dropWhile notRb t10) as Ht.
           rewrite Etake, Edrop in Ht. simpl in Ht. subst t10.
           apply dropWhile_head in Edrop. apply notRb_false in Edrop.
           subst d.
           rewrite blanked_step in Hd. simpl dropWhile in Hd.
           rewrite directiveAt_not_tag in Hd by reflexivity.
           destruct cap' as [|c0 cap0]; [contradiction|].
           simpl in Hall. simpl in Hd. injection Hd as <- _.
           discriminate Hall.
Qed.

Lemma trimStart_suffix (s : str) :
  exists a, s = a ++ trimStart s.
Proof.
  induction s as [|c t [a IH]]; simpl.
  - exists []. reflexivity.
  - destruct (is_space c).
    + exists (c :: a). simpl. rewrite <- IH. reflexivity.
    + exists []. reflexivity.
Qed.

Lemma trim_infix (s : str) : exists a b, s = a ++ trim s ++ b.
Proof.
  unfold trim, trimEnd.
  destruct (trimStart_suffix s) as [a Ha].
  destruct (trimStart_suffix (rev (trimStart s))) as [b Hb].
  exists a, (rev b). rewrite <- rev_app_distr, <- Hb, rev_involutive.
  exact Ha.
Qed.

(** No directive is left in the cleaned text. *)
Lemma stripDirectives_clean (s : str) : ~ contains (stripDirectives s).
Proof.
  intros (pre & cap & post & Hw & Hs).
  unfold stripDirectives in Hs.
  destruct (trim_infix (blanked s)) as (a & b & Hab).
  rewrite Hs in Hab.
  assert (H : blanked s = (a ++ pre) ++ directive cap ++ (post ++ b)).
  { rewrite Hab, <- !app_assoc. reflexivity. }
  apply (blanked_clean (length s)) in H; [|lia].
  rewrite (proj2 (directiveAt_some _ cap (post ++ b))) in H; [discriminate|].
  split; [exact Hw | reflexivity].
Qed.

(** *** The handler *)

(** A reply of 218 code units that names an image. *)

Lemma postProcess_directive (existsSync : str -> bool)
  (send : str -> str -> bool) (aiResponse cap : str) :
  group1 (sendFileMatch aiResponse) = Some cap ->
  let o := postProcess existsSync send aiResponse in
  let path := resolvePath existsSync (trim cap) in
  o.(viaHeuristic) = false /\
  o.(filePath) = Some path /\
  (existsSync path = true -> o.(cleanResponse) = stripDirectives aiResponse) /\
  (existsSync path = false ->
   o.(cleanResponse) =
   js "File not found: " ++ path ++ nl ++ nl ++ stripDirectives aiResponse).
Proof.
  intros H. unfold postProcess. rewrite H.
  destruct (existsSync (resolvePath existsSync (trim cap))); simpl;
    repeat split; intros; try reflexivity; discriminate.
Qed.

Lemma resolvePath_existing (existsSync : str -> bool) (path : str) :
  existsSync path = true -> resolvePath existsSync path = path.
Proof.
  intros H. unfold resolvePath. rewrite H. reflexivity.
Qed.

Lemma resolvePath_cases (existsSync : str -> bool) (path : str) :
  resolvePath existsSync path = path \/
  resolvePath existsSync path = narrowSpaceFix path.
Proof.
  unfold resolvePath. destruct (existsSync path); [left; reflexivity|].
  destruct (existsSync (narrowSpaceFix path)); [right | left]; reflexivity.
Qed.

(** C2.  When a reply contains a directive, the path taken is the trimmed
    path of the first occurrence (or its repair with the narrow space when
    only that exists), the cleaned text is the reply with every occurrence,
    and the white space around it, turned into one space and then trimmed:
    it contains no directive, and every stretch of text between the
    occurrences is in it, in order.  The handler keeps that text, behind a
    notice when the file does not exist.  For [doneReply] the path is
    [/tmp/a.png] and the cleaned text holds [Done!] and [enjoy] but no
    [[SEND_FILE:]. *)
Theorem directive_is_extracted_and_stripped :
  (forall (existsSync : str -> bool) (send : str -> str -> bool)
          (aiResponse : str),
     contains aiResponse ->
     exists pre cap post,
       aiResponse = pre ++ directive cap ++ post /\ wellFormed cap /\
       (forall pre' cap' post',
          wellFormed cap' -> aiResponse = pre' ++ directive cap' ++ post' ->
          length pre <= length pre') /\
       let o := postProcess existsSync send aiResponse in
       let path := resolvePath existsSync (trim cap) in
       o.(viaHeuristic) = false /\
       o.(filePath) = Some path /\
       (existsSync (trim cap) = true -> path = trim cap) /\
       (path = trim cap \/ path = narrowSpaceFix (trim cap)) /\
       (existsSync path = true ->
        o.(cleanResponse) = stripDirectives aiResponse) /\
       (existsSync path = false ->
        o.(cleanResponse) =
        js "File not found: " ++ path ++ nl ++ nl ++ stripDirectives aiResponse) /\
       ~ contains (stripDirectives aiResponse) /\
       exists g0 pieces,
         aiResponse = weave g0 pieces /\
         Forall (fun p => padded (fst p)) pieces /\
         stripDirectives aiResponse = trim (spaced g0 pieces)) /\
  (forall (existsSync : str -> bool) (send : str -> str -> bool),
     let o := postProcess existsSync send doneReply in
     o.(filePath) = Some (js "/tmp/a.png") /\
     stripDirectives doneReply = js "Done! enjoy" /\
     includes o.(cleanResponse) (js "[SEND_FILE:") = false /\
     includes o.(cleanResponse) (js "Done!") = true /\
     includes o.(cleanResponse) (js "enjoy") = true).
Proof.
  split.
  - intros existsSync send aiResponse Hc.
    destruct (sendFileMatch aiResponse) as [f|] eqn:E.
    2:{ apply sendFileMatch_none in E. contradiction. }
    destruct (sendFileMatch_some _ _ E) as (pre & cap & post & Hs & Hw & Hg & Hfirst).
    exists pre, cap, post.
    split; [exact Hs|]. split; [exact Hw|]. split; [exact Hfirst|].
    rewrite <- E in Hg.
    destruct (postProcess_directive existsSync send aiResponse cap Hg)
      as (Hv & Hp & Hclean & Hnotice).
    cbv zeta.
    split; [exact Hv|]. split; [exact Hp|].
    split; [apply resolvePath_existing|].
    split; [apply resolvePath_cases|].
    split; [exact Hclean|]. split; [exact Hnotice|].
    split; [apply stripDirectives_clean|].
    destruct (blanked_pieces (length aiResponse) aiResponse (le_n _))
      as (g0 & pieces & Hweave & Hpad & Hb).
    exists g0, pieces. split; [exact Hweave|]. split; [exact Hpad|].
    unfold stripDirectives. rewrite Hb. reflexivity.
  - intros existsSync send.
    assert (Hm : group1 (sendFileMatch doneReply) = Some (js "/tmp/a.png"))
      by (vm_compute; reflexivity).
    assert (Hs : stripDirectives doneReply = js "Done! enjoy")
      by (vm_compute; reflexivity).
    assert (Hpath : resolvePath existsSync (trim (js "/tmp/a.png")) =
                    js "/tmp/a.png").
    { unfold resolvePath.
      replace (trim (js "/tmp/a.png")) with (js "/tmp/a.png")
        by (vm_compute; reflexivity).
      replace (narrowSpaceFix (js "/tmp/a.png")) with (js "/tmp/a.png")
        by (vm_compute; reflexivity).
      destruct (existsSync (js "/tmp/a.png")); reflexivity. }
    destruct (postProcess_directive existsSync send doneReply _ Hm)
      as (_ & Hp & Hclean & Hnotice).
    rewrite Hpath in Hp, Hclean, Hnotice. cbv zeta.
    split; [exact Hp|]. split; [exact Hs|].
    destruct (existsSync (js "/tmp/a.png")).
    + rewrite (Hclean eq_refl), Hs. repeat split; vm_compute; reflexivity.
    + rewrite (Hnotice eq_refl), Hs. repeat split; vm_compute; reflexivity.
Qed.

Lemma doneReply_contains : contains doneReply.
Proof.
  exists (js "Done! "), (js "/tmp/a.png"), (js " enjoy").
  split; [split; [discriminate | reflexivity] | reflexivity].
Qed.

Lemma directive_is_extracted_and_stripped_witness :
  ~ contains (stripDirectives doneReply).
Proof.
  destruct (proj1 directive_is_extracted_and_stripped
              (fun _ => true) (fun _ _ => true) doneReply doneReply_contains)
    as (pre & cap & post & _ & _ & _ & H).
  cbv zeta in H. apply H.
Defined.

Lemma postProcess_plain (existsSync : str -> bool)
  (send : str -> str -> bool) (aiResponse : str) :
  group1 (sendFileMatch aiResponse) = None ->
  let o := postProcess existsSync send aiResponse in
  o.(cleanResponse) = aiResponse /\
  o.(reply) = (if o.(fileSent) then None else Some aiResponse) /\
  (forall path caption,
     o.(media) = Some (path, caption) ->
     o.(viaHeuristic) = true /\ o.(filePath) = Some path /\
     caption = substring0 200 aiResponse).
Proof.
  intros H. unfold postProcess. rewrite H.
  assert (Ht : forall b, textReply b aiResponse aiResponse =
                         if b then None else Some aiResponse).
  { intros b. unfold textReply. destruct b; [reflexivity|].
    destruct (truthy aiResponse); reflexivity. }
  destruct (group1 (imagePathMatch aiResponse)) as [g|].
  - destruct (existsSync (trim g));
      cbn [cleanResponse reply fileSent media viaHeuristic filePath];
      rewrite Ht; split; try reflexivity; split; try reflexivity;
      intros path caption Hm; try discriminate Hm.
    injection Hm as <- <-. repeat split.
  - cbn [cleanResponse reply fileSent media viaHeuristic filePath].
    rewrite Ht. repeat split; discriminate.
Qed.

(** C8, as the code has it.  When a reply contains no directive, the
    cleaned text is the raw reply whether or not the heuristic finds a
    path; the text reply, which is sent when no file is sent, is the raw
    reply; the caption of a file that is sent is the first 200 code units of
    the raw reply.  For [savedReply] the path found is
    [/Users/x/Desktop/shot.png] and the cleaned text is the reply itself. *)
Theorem heuristic_keeps_reply :
  (forall (existsSync : str -> bool) (send : str -> str -> bool)
          (aiResponse : str),
     ~ contains aiResponse ->
     let o := postProcess existsSync send aiResponse in
     o.(cleanResponse) = aiResponse /\
     o.(reply) = (if o.(fileSent) then None else Some aiResponse) /\
     (forall path caption,
        o.(media) = Some (path, caption) ->
        o.(viaHeuristic) = true /\ o.(filePath) = Some path /\
        caption = substring0 200 aiResponse /\
        (length aiResponse <= 200 -> caption = aiResponse))) /\
  (forall (existsSync : str -> bool) (send : str -> str -> bool),
     let o := postProcess existsSync send savedReply in
     ~ contains savedReply /\
     o.(filePath) = Some (js "/Users/x/Desktop/shot.png") /\
     o.(viaHeuristic) = true /\
     o.(cleanResponse) = savedReply).
Proof.
  split.
  - intros existsSync send aiResponse Hc.
    assert (Hg : group1 (sendFileMatch aiResponse) = None).
    { apply sendFileMatch_none in Hc. rewrite Hc. reflexivity. }
    destruct (postProcess_plain existsSync send aiResponse Hg)
      as (Hclean & Hreply & Hmedia).
    cbv zeta. split; [exact Hclean|]. split; [exact Hreply|].
    intros path caption Hm. destruct (Hmedia path caption Hm) as (Hv & Hp & Hcap).
    repeat split; try assumption.
    intros Hlen. rewrite Hcap. unfold substring0. apply firstn_all2. exact Hlen.
  - intros existsSync send.
    assert (Hn : sendFileMatch savedReply = None) by (vm_compute; reflexivity).
    assert (Hi : group1 (imagePathMatch savedReply) =
                 Some (js "/Users/x/Desktop/shot.png"))
      by (vm_compute; reflexivity).
    cbv zeta. split; [apply sendFileMatch_none; exact Hn|].
    unfold postProcess. rewrite Hn, Hi. simpl group1.
    replace (trim (js "/Users/x/Desktop/shot.png"))
      with (js "/Users/x/Desktop/shot.png") by (vm_compute; reflexivity).
    destruct (existsSync (js "/Users/x/Desktop/shot.png")); simpl;
      repeat split; reflexivity.
Qed.

Lemma savedReply_plain : ~ contains savedReply.
Proof.
  apply sendFileMatch_none. vm_compute. reflexivity.
Qed.

Lemma heuristic_keeps_reply_witness :
  (postProcess (fun _ => true) (fun _ _ => true) savedReply).(cleanResponse) =
  savedReply.
Proof.
  apply (proj1 heuristic_keeps_reply (fun _ => true) (fun _ _ => true)
           savedReply savedReply_plain).
Defined.

(** C8 as stated fails: the caption is cut at 200 code units, and a reply
    that went out as a caption is not sent as text. *)
Lemma caption_is_truncated :
  let o := postProcess (fun _ => true) (fun _ _ => true) longReply in
  ~ contains longReply /\
  o.(cleanResponse) = longReply /\
  o.(media) = Some (js "/tmp/a.png", firstn 200 longReply) /\
  firstn 200 longReply <> longReply /\
  o.(reply) = None.
Proof.
  cbv zeta. split; [apply sendFileMatch_none; vm_compute; reflexivity|].
  split; [vm_compute; reflexivity|].
  split; [vm_compute; reflexivity|].
  split; [|vm_compute; reflexivity].
  intros H. apply (f_equal (@length char)) in H.
  vm_compute in H. discriminate H.
Qed.

End ReplyFacts.

(** ** The file queue *)

Module QueueFacts.

Import Timers Queue.

(** *** What the directory scan lists *)

Section Listing.

Variable before : str -> str -> bool.
Hypothesis before_total : forall a b, before a b = true \/ before b a = true.
Hypothesis before_trans :
  forall a b c, before a b = true -> before b c = true -> before a c = true.

Local Abbreviation byName :=
  (fun x y : str * bool => before (fst x) (fst y) = true).

Lemma listedIn_perm (e : str * bool) (l : listing) :
  Permutation (listedIn before e l) (e :: l).
Proof.
  induction l as [|x l IH]; simpl; [apply Permutation_refl|].
  destruct (before (fst e) (fst x)); [apply Permutation_refl|].
  apply perm_trans with (x :: e :: l); [apply perm_skip; exact IH|].
  apply perm_swap.
Qed.

Lemma readdirSync_perm (content : listing) :
  Permutation (readdirSync before content) content.
Proof.
  induction content as [|e l IH]; simpl; [apply perm_nil|].
  apply perm_trans with (e :: readdirSync before l);
    [apply listedIn_perm | apply perm_skip; exact IH].
Qed.

Lemma listedIn_sorted (e : str * bool) (l : listing) :
  StronglySorted byName l -> StronglySorted byName (listedIn before e l).
Proof.
  induction l as [|x l IH]; intros H; simpl.
  - constructor; constructor.
  - inversion H as [|? ? Hs Hf]; subst.
    destruct (before (fst e) (fst x)) eqn:E.
    + constructor; [exact H|]. constructor; [exact E|].
      apply Forall_forall. intros y Hy.
      rewrite Forall_forall in Hf. eapply before_trans; [exact E|].
      apply Hf. exact Hy.
    + constructor; [apply IH; exact Hs|].
      apply (Permutation_Forall (Permutation_sym (listedIn_perm e l))).
      constructor; [|exact Hf].
      destruct (before_total (fst e) (fst x)) as [H1|H1];
        [congruence | exact H1].
Qed.

Lemma readdirSync_sorted (content : listing) :
  StronglySorted byName (readdirSync before content).
Proof.
  induction content as [|e l IH]; simpl;
    [constructor | apply listedIn_sorted; exact IH].
Qed.

Lemma filter_sorted {A : Type} (R : A -> A -> Prop) (f : A -> bool)
  (l : list A) :
  StronglySorted R l -> StronglySorted R (filter f l).
Proof.
  induction 1 as [|a l Hs IH Hf]; simpl; [constructor|].
  destruct (f a); [|exact IH]. constructor; [exact IH|].
  apply Forall_forall. intros y Hy. apply filter_In in Hy.
  rewrite Forall_forall in Hf. apply Hf. apply Hy.
Qed.

Lemma filter_perm {A : Type} (f : A -> bool) (l l' : list A) :
  Permutation l l' -> Permutation (filter f l) (filter f l').
Proof.
  induction 1 as [|x l l' _ IH|x y l|l l' l'' _ IH1 _ IH2]; simpl.
  - apply perm_nil.
  - destruct (f x); [apply perm_skip|]; exact IH.
  - destruct (f x); destruct (f y);
      try apply Permutation_refl. apply perm_swap.
  - eapply perm_trans; eassumption.
Qed.

(** The regular files come out in name order, each once. *)
Lemma listed_names (content : listing) :
  StronglySorted (fun a b => before a b = true)
    (map fst (filter (fun e => snd e) (readdirSync before content))) /\
  Permutation (map fst (filter (fun e => snd e) (readdirSync before content)))
              (map fst (filter (fun e => snd e) content)).
Proof.
  split.
  - pose proof (filter_sorted byName (fun e => snd e) _
                  (readdirSync_sorted content)) as H.
    induction H as [|a l Hs IH Hf]; simpl; constructor; [exact IH|].
    apply Forall_forall. intros y Hy. apply in_map_iff in Hy.
    destruct Hy as (z & <- & Hz). rewrite Forall_forall in Hf.
    apply Hf. exact Hz.
  - apply Permutation_map, filter_perm, readdirSync_perm.
Qed.

End Listing.

Lemma unitLeb_total (a b : str) : unitLeb a b = true \/ unitLeb b a = true.
Proof.
  revert b. induction a as [|x a IH]; intros [|y b]; simpl; auto.
  destruct (N.lt_total x y) as [H|[H|H]].
  - left. apply N.ltb_lt in H. rewrite H. reflexivity.
  - subst y. rewrite N.ltb_irrefl, N.eqb_refl. simpl. apply IH.
  - right. apply N.ltb_lt in H. rewrite H. reflexivity.
Qed.

Lemma unitLeb_trans (a b c : str) :
  unitLeb a b = true -> unitLeb b c = true -> unitLeb a c = true.
Proof.
  revert b c. induction a as [|x a IH]; intros [|y b] [|z c]; simpl;
    try reflexivity; try discriminate.
  rewrite !orb_true_iff, !andb_true_iff, !N.ltb_lt, !N.eqb_eq.
  intros [H1|[H1 H1']] [H2|[H2 H2']].
  - left. lia.
  - left. lia.
  - left. lia.
  - right. split; [lia | eapply IH; eassumption].
Qed.

Section WithPaths.

Variable join : str -> str -> str.
Variable basename : str -> str.

Local Abbreviation perform := (perform join basename).
Local Abbreviation performs := (performs join basename).
Local Abbreviation attained := (attained join basename).
Local Abbreviation tick := (tick basename).
Local Abbreviation sendNextQueuedFile := (sendNextQueuedFile basename).

Lemma performs_cons (a : act) (acts : list act) (r : running) :
  performs (a :: acts) r = performs acts (perform a r).
Proof. reflexivity. Qed.

Lemma performs_app (acts1 acts2 : list act) (r : running) :
  performs (acts1 ++ acts2) r = performs acts2 (performs acts1 r).
Proof. unfold Queue.performs. apply fold_left_app. Qed.

(** What a start on a folder with files leaves. *)
Lemma perform_starts (folderPath : str) (interval : Z) (entries : listing)
  (name : str) (names : list str) (r : running) :
  map fst (filter (fun e => snd e) entries) = name :: names ->
  perform (Starts folderPath interval (Some entries)) r =
  mkRun (mkQ (map (join folderPath) names) (Some (fresh (cleared r.(now))))
             (mkStatus true (Some folderPath) interval (S (length names)) 0 [])
             (snd (setInterval interval (cleared r.(now)))))
        (r.(underWay) ++ [join folderPath name])
        (r.(handed) ++ [join folderPath name]) /\
  snd (fst (startFileQueue join folderPath interval (Some entries) r.(now))) =
  Queued (S (length names)) interval.
Proof.
  intros Hfiles.
  assert (Hmap : map (fun e => join folderPath (fst e))
                     (filter (fun e => snd e) entries) =
                 join folderPath name :: map (join folderPath) names).
  { rewrite <- (map_map fst (join folderPath)), Hfiles. reflexivity. }
  unfold Queue.perform, startFileQueue, cleared. rewrite Hmap.
  cbn [takeNext fileQueue queueInterval queueStatus timers setInterval fst snd
       taken length].
  rewrite length_map. split; reflexivity.
Qed.

(** What a start that finds nothing leaves. *)
Lemma perform_starts_nothing (folderPath : str) (interval : Z)
  (dir : option listing) (r : running) :
  (dir = None \/
   exists entries, dir = Some entries /\ filter (fun e => snd e) entries = []) ->
  perform (Starts folderPath interval dir) r =
  mkRun (mkQ r.(now).(fileQueue) r.(now).(queueInterval) r.(now).(queueStatus)
             (cleared r.(now)))
        r.(underWay) r.(handed).
Proof.
  intros [->|(entries & -> & Hf)]; unfold Queue.perform, startFileQueue, cleared.
  - simpl. rewrite !app_nil_r. destruct r; reflexivity.
  - rewrite Hf. simpl. rewrite !app_nil_r. destruct r; reflexivity.
Qed.

Lemma starts_cases (folderPath : str) (interval : Z) (dir : option listing) :
  (dir = None \/
   exists entries, dir = Some entries /\ filter (fun e => snd e) entries = []) \/
  exists entries name names,
    dir = Some entries /\
    map fst (filter (fun e => snd e) entries) = name :: names.
Proof.
  destruct dir as [entries|]; [|left; left; reflexivity].
  destruct (filter (fun e => snd e) entries) as [|e l] eqn:E.
  - left. right. exists entries. split; [reflexivity | exact E].
  - right. exists entries, (fst e), (map fst l). split; [reflexivity|].
    rewrite E. reflexivity.
Qed.

Lemma settled_length {A : Type} (i : nat) (l : list A) (x : A) :
  nth_error l i = Some x ->
  S (length (firstn i l ++ skipn (S i) l)) = length l.
Proof.
  intros H. assert (Hi : i < length l) by (apply nth_error_Some; congruence).
  rewrite length_app, length_firstn, length_skipn. lia.
Qed.

(** The counts agree while the queue is active, and never exceed the
    total. *)

Lemma counted_perform (a : act) (r : running) :
  orderly a r = true -> counted r -> counted (perform a r).
Proof.
  intros Ha [Heq Hle]. unfold counted, accounted in *.
  destruct a as [folderPath interval dir| |i sent|].
  - unfold orderly in Ha. destruct (underWay r) as [|u uw] eqn:Eu;
      [|discriminate].
    destruct (starts_cases folderPath interval dir)
      as [Hn|(entries & name & names & -> & Hfiles)].
    + rewrite (perform_starts_nothing _ _ _ _ Hn). simpl. rewrite Eu.
      split; assumption.
    + rewrite (proj1 (perform_starts _ interval _ _ _ r Hfiles)). simpl.
      rewrite Eu, length_map. simpl. split; intros; lia.
  - unfold Queue.perform. destruct (armed (now r)); [|split; assumption].
    unfold takeNext. destruct (fileQueue (now r)) as [|f q] eqn:E.
    + simpl. rewrite app_nil_r. simpl in Hle. split; [discriminate | lia].
    + simpl. rewrite length_app. simpl in *.
      unfold str, char in *.
      split; [intros Hact; specialize (Heq Hact); lia | lia].
  - unfold Queue.perform. destruct (nth_error (underWay r) i) as [f|] eqn:En;
      [|split; assumption].
    pose proof (settled_length _ _ _ En) as Hl.
    unfold delivered.
    unfold str, char in *.
    destruct sent;
      cbn [now underWay queueStatus fileQueue sentFiles totalFiles active
           length];
      (split; [intros Hact; specialize (Heq Hact); lia | lia]).
  - unfold Queue.perform, queueStop.
    destruct (active (queueStatus (now r))) eqn:Ea;
      [|simpl; split; [rewrite Ea; discriminate | exact Hle]].
    simpl in *. split; [discriminate | lia].
Qed.

(** C5, as the code has it.  Counting the deliveries under way, in every
    state reached by starts issued while no delivery is under way, firings
    of the timer, answers of the transport (delivered or not) and stops,
    the files sent, queued and under way add up to [totalFiles] as long as
    the queue is active, and never exceed it; with no delivery under way
    that is [sentFiles + |fileQueue| = totalFiles]. *)
Theorem counts_agree_while_active (r : running) :
  attained orderly r ->
  (r.(now).(queueStatus).(active) = true ->
   r.(now).(queueStatus).(sentFiles) + length r.(now).(fileQueue) +
   length r.(underWay) = r.(now).(queueStatus).(totalFiles)) /\
  r.(now).(queueStatus).(sentFiles) + length r.(now).(fileQueue) +
  length r.(underWay) <= r.(now).(queueStatus).(totalFiles) /\
  (r.(now).(queueStatus).(active) = true -> r.(underWay) = [] ->
   r.(now).(queueStatus).(sentFiles) + length r.(now).(fileQueue) =
   r.(now).(queueStatus).(totalFiles)).
Proof.
  intros H.
  assert (Hc : counted r).
  { induction H as [|r a _ IH Ha].
    - unfold counted, accounted. simpl. split; intros; lia.
    - apply counted_perform; assumption. }
  destruct Hc as [Heq Hle]. unfold accounted in *.
  repeat split; try assumption.
  intros Ha Hu. specialize (Heq Ha). rewrite Hu in Heq. simpl in Heq.
  unfold str, char in *. lia.
Qed.

(** C6. A tick whose delivery fails puts the path it took back at the head
    of the queue and changes nothing else: counts, sent list, timer and
    period are as before, the next tick attempts the same file, and this
    repeats for any number of failures.  Whatever happened to the state
    while the delivery was under way, its failure puts the path at the head
    of the queue, which the tick after it takes. *)
Theorem failed_delivery_is_retried (st : queue_state) (filePath : str) (others : list str) :
  st.(fileQueue) = filePath :: others ->
  snd (takeNext st) = Some filePath /\
  delivered basename filePath false (fst (takeNext st)) = st /\
  sendNextQueuedFile false st = (st, NotDelivered filePath) /\
  (tick false st).(fileQueue) = filePath :: others /\
  (tick false st).(queueStatus).(sentFiles) = st.(queueStatus).(sentFiles) /\
  (tick false st).(queueStatus).(sentList) = st.(queueStatus).(sentList) /\
  (tick false st).(timers) = st.(timers) /\
  (forall sent,
     snd (sendNextQueuedFile sent (tick false st)) =
     if sent then Delivered filePath else NotDelivered filePath) /\
  (forall n, Nat.iter n (tick false) st = st) /\
  (forall st1,
     let st2 := delivered basename filePath false st1 in
     st2.(fileQueue) = filePath :: st1.(fileQueue) /\
     st2.(queueStatus) = st1.(queueStatus) /\
     st2.(timers) = st1.(timers) /\
     snd (takeNext st2) = Some filePath).
Proof.
  intros E.
  assert (Htk : takeNext st =
                (mkQ others st.(queueInterval) st.(queueStatus) st.(timers),
                 Some filePath)).
  { unfold takeNext. rewrite E. reflexivity. }
  assert (Hd : delivered basename filePath false (fst (takeNext st)) = st).
  { rewrite Htk. unfold delivered. simpl.
    destruct st; simpl in *. subst. reflexivity. }
  assert (Hs : sendNextQueuedFile false st = (st, NotDelivered filePath)).
  { unfold Queue.sendNextQueuedFile. rewrite Htk in *. simpl in Hd.
    cbv iota beta. f_equal. exact Hd. }
  assert (Ht : tick false st = st).
  { unfold Queue.tick. rewrite Hs. reflexivity. }
  rewrite Ht.
  repeat split; try assumption; try reflexivity.
  - rewrite Htk. reflexivity.
  - intros sent. unfold Queue.sendNextQueuedFile. rewrite Htk.
    destruct sent; reflexivity.
  - intros n. induction n as [|n IH]; simpl; [reflexivity|].
    rewrite IH. exact Ht.
Qed.

Lemma skipn_cons_firstn {A : Type} (j : nat) (l : list A) (x : A) (t : list A) :
  skipn j l = x :: t ->
  firstn (S j) l = firstn j l ++ [x] /\ skipn (S j) l = t /\ j < length l.
Proof.
  revert l. induction j as [|j IH]; intros l H.
  - simpl in H. subst l. simpl. repeat split. lia.
  - destruct l as [|y l]; [discriminate|]. simpl in H.
    destruct (IH l H) as (H1 & H2 & H3).
    change (firstn (S (S j)) (y :: l)) with (y :: firstn (S j) l).
    rewrite H1. repeat split; [exact H2 | simpl; lia].
Qed.

Lemma skipn_lt_cons {A : Type} (j : nat) (l : list A) :
  j < length l -> exists x, skipn j l = x :: skipn (S j) l.
Proof.
  revert l. induction j as [|j IH]; intros [|y l] H; simpl in H; try lia.
  - exists y. reflexivity.
  - apply IH. lia.
Qed.

(** Firings of the timer and successful deliveries, in any order, on a
    started queue: each firing hands the next path of the queue to the
    transport, and nothing else about the queue changes but the count of
    sent files. *)
Lemma calm_performs (folderPath : str) (all hd : list str) :
  forall acts r j,
    forallb calm acts = true ->
    j + fires acts <= length all ->
    r.(now).(fileQueue) = map (join folderPath) (skipn j all) ->
    r.(handed) = hd ++ map (join folderPath) (firstn j all) ->
    armed r.(now) = true ->
    let r' := performs acts r in
    r'.(now).(fileQueue) = map (join folderPath) (skipn (j + fires acts) all) /\
    r'.(handed) = hd ++ map (join folderPath) (firstn (j + fires acts) all) /\
    r'.(now).(queueInterval) = r.(now).(queueInterval) /\
    r'.(now).(timers) = r.(now).(timers) /\
    r'.(now).(queueStatus).(active) = r.(now).(queueStatus).(active) /\
    r'.(now).(queueStatus).(totalFiles) = r.(now).(queueStatus).(totalFiles) /\
    r'.(now).(queueStatus).(intervalMs) = r.(now).(queueStatus).(intervalMs) /\
    r'.(now).(queueStatus).(sentFiles) + length r'.(underWay) =
    r.(now).(queueStatus).(sentFiles) + length r.(underWay) + fires acts.
Proof.
  induction acts as [|a acts IH]; intros r j Hc Hj Hq Hh Ha.
  - simpl. rewrite !Nat.add_0_r. repeat split; assumption.
  - rewrite performs_cons.
    destruct a as [folderPath' interval dir| |i sent|];
      try discriminate Hc.
    + change (fires (Fires :: acts)) with (S (fires acts)) in *.
      destruct (skipn_lt_cons j all ltac:(lia)) as [x Hx].
      destruct (skipn_cons_firstn _ _ _ _ Hx) as (Hf & _ & _).
      assert (E : perform Fires r =
                  mkRun (mkQ (map (join folderPath) (skipn (S j) all))
                             r.(now).(queueInterval) r.(now).(queueStatus)
                             r.(now).(timers))
                        (r.(underWay) ++ [join folderPath x])
                        (r.(handed) ++ [join folderPath x])).
      { unfold Queue.perform. rewrite Ha. unfold takeNext.
        rewrite Hq, Hx. reflexivity. }
      assert (F1 : (perform Fires r).(now).(fileQueue) =
                   map (join folderPath) (skipn (S j) all))
        by (rewrite E; reflexivity).
      assert (F2 : (perform Fires r).(handed) =
                   hd ++ map (join folderPath) (firstn (S j) all))
        by (rewrite E; cbn [handed]; rewrite Hh, Hf, map_app, app_assoc;
            reflexivity).
      assert (F3 : armed (perform Fires r).(now) = true)
        by (rewrite E; exact Ha).
      assert (F4 : (perform Fires r).(now).(queueInterval) =
                   r.(now).(queueInterval) /\
                   (perform Fires r).(now).(timers) = r.(now).(timers) /\
                   (perform Fires r).(now).(queueStatus) =
                   r.(now).(queueStatus) /\
                   length (perform Fires r).(underWay) = S (length r.(underWay)))
        by (rewrite E; cbn [now underWay queueInterval timers queueStatus];
            rewrite length_app; simpl; repeat split; lia).
      destruct F4 as (F4 & F5 & F6 & F7).
      replace (j + S (fires acts)) with (S j + fires acts) by lia.
      destruct (IH (perform Fires r) (S j) Hc ltac:(lia) F1 F2 F3)
        as (I1 & I2 & I3 & I4 & I5 & I6 & I7 & I8).
      rewrite F4 in I3. rewrite F5 in I4. rewrite F6 in I5, I6, I7, I8.
      repeat split; try assumption.
      rewrite I8, F7. lia.
    + simpl in Hc. destruct sent; [|discriminate].
      change (fires (Settles i true :: acts)) with (fires acts) in *.
      unfold Queue.perform at 1.
      destruct (nth_error (underWay r) i) as [f|] eqn:En;
        [|apply IH; assumption].
      pose proof (settled_length _ _ _ En) as Hl.
      set (r1 := mkRun (delivered basename f true r.(now))
                       (firstn i r.(underWay) ++ skipn (S i) r.(underWay))
                       r.(handed)).
      destruct (IH r1 j Hc Hj Hq Hh Ha)
        as (I1 & I2 & I3 & I4 & I5 & I6 & I7 & I8).
      repeat split; try assumption.
      rewrite I8. unfold r1.
      cbn [now underWay delivered queueStatus sentFiles]. lia.
Qed.

Lemma armedDelay_cases (after : Z) :
  ((1 <= after <= TIMEOUT_MAX)%Z -> armedDelay after = after) /\
  ((after < 1 \/ TIMEOUT_MAX < after)%Z -> armedDelay after = 1%Z).
Proof.
  unfold armedDelay. split.
  - intros [H1 H2]. apply Z.leb_le in H1, H2. rewrite H1, H2. reflexivity.
  - intros [H|H].
    + apply Z.leb_gt in H. rewrite H. reflexivity.
    + apply Z.leb_gt in H. rewrite H, andb_false_r. reflexivity.
Qed.

Section NameOrder.

Variable before : str -> str -> bool.
Hypothesis before_total : forall a b, before a b = true \/ before b a = true.
Hypothesis before_trans :
  forall a b c, before a b = true -> before b c = true -> before a c = true.

(** C3.  The claim describes the code on every interval a timer can take,
    and the code breaks it on the others.  The regular files of the folder
    are enumerated in name order, the order of the directory scan.  The
    first is handed to the transport inside the call of [startFileQueue],
    which answers that the files are queued at [interval] and arms the
    timer; every firing of the timer hands over the next file in that
    order, at whatever moment the earlier deliveries are confirmed (one
    that fails is retried, as C6 has it).  The timer is
    armed with [interval] only while [1 <= interval <= TIMEOUT_MAX]: with a
    larger one, which [/queue] passes on unchecked, it fires every
    millisecond. *)
Theorem start_delivers_in_name_order
  (r : running) (folderPath : str) (interval : Z) (content : listing)
  (name : str) (names : list str) :
  let entries := readdirSync before content in
  map fst (filter (fun e => snd e) entries) = name :: names ->
  let r1 := perform (Starts folderPath interval (Some entries)) r in
  StronglySorted (fun a b => before a b = true) (name :: names) /\
  Permutation (name :: names) (map fst (filter (fun e => snd e) content)) /\
  snd (fst (startFileQueue join folderPath interval (Some entries) r.(now))) =
  Queued (S (length names)) interval /\
  r1.(handed) = r.(handed) ++ [join folderPath name] /\
  r1.(now).(fileQueue) = map (join folderPath) names /\
  (exists h, r1.(now).(queueInterval) = Some h /\
             In (h, armedDelay interval) r1.(now).(timers).(live) /\
             armed r1.(now) = true) /\
  ((1 <= interval <= TIMEOUT_MAX)%Z -> armedDelay interval = interval) /\
  ((interval < 1 \/ TIMEOUT_MAX < interval)%Z -> armedDelay interval = 1%Z) /\
  forall acts,
    forallb calm acts = true -> fires acts <= length names ->
    let r2 := performs acts r1 in
    r2.(handed) =
    r.(handed) ++
    map (join folderPath) (firstn (S (fires acts)) (name :: names)) /\
    r2.(now).(fileQueue) = map (join folderPath) (skipn (fires acts) names) /\
    (getQueueStatus basename r2.(now)).(remaining) = length names - fires acts /\
    r2.(now).(queueStatus).(totalFiles) = S (length names) /\
    r2.(now).(queueStatus).(active) = true /\
    (r.(underWay) = [] ->
     r2.(now).(queueStatus).(sentFiles) + length r2.(underWay) =
     S (fires acts)).
Proof.
  intros entries Hfiles r1.
  destruct (listed_names before before_total before_trans content)
    as [Hsorted Hperm].
  fold entries in Hsorted, Hperm. rewrite Hfiles in Hsorted, Hperm.
  destruct (perform_starts folderPath interval entries name names r Hfiles)
    as [E Hres].
  fold r1 in E.
  assert (Harmed : armed r1.(now) = true).
  { rewrite E. unfold armed, isLive. simpl. rewrite Nat.eqb_refl. reflexivity. }
  destruct (armedDelay_cases interval) as [Hin Hout].
  split; [exact Hsorted|]. split; [exact Hperm|]. split; [exact Hres|].
  split; [rewrite E; reflexivity|]. split; [rewrite E; reflexivity|].
  split.
  { exists (fresh (cleared r.(now))). rewrite E. simpl.
    split; [reflexivity|]. split; [left; reflexivity|].
    rewrite E in Harmed. exact Harmed. }
  split; [exact Hin|]. split; [exact Hout|].
  intros acts Hc Hf r2.
  destruct (calm_performs folderPath (name :: names) r.(handed) acts r1 1 Hc
              ltac:(simpl; lia)
              ltac:(rewrite E; reflexivity)
              ltac:(rewrite E; reflexivity)
              Harmed)
    as (I1 & I2 & _ & _ & I5 & I6 & _ & I8).
  fold r2 in I1, I2, I5, I6, I8.
  change (1 + fires acts) with (S (fires acts)) in I1, I2.
  change (skipn (S (fires acts)) (name :: names))
    with (skipn (fires acts) names) in I1.
  split; [exact I2|]. split; [exact I1|].
  split.
  { unfold getQueueStatus. cbn [remaining]. rewrite I1, length_map, length_skipn.
    reflexivity. }
  split; [rewrite I6, E; reflexivity|].
  split; [rewrite I5, E; reflexivity|].
  intros Hu. rewrite I8, E. cbn [now underWay queueStatus sentFiles].
  rewrite Hu. simpl. lia.
Qed.

End NameOrder.

End WithPaths.

Lemma basenamePlain_join (d f : str) :
  forallb (fun c => negb (c =? 47)%N) f = true ->
  basenamePlain (joinPlain d f) = f.
Proof.
  intros Hf. unfold basenamePlain, joinPlain.
  assert (Hseg : forall acc, lastSegment acc f = acc ++ f).
  { induction f as [|c f IH]; intros acc; simpl.
    - rewrite app_nil_r. reflexivity.
    - simpl in Hf. apply andb_true_iff in Hf. destruct Hf as [Hc Hf].
      apply negb_true_iff in Hc. rewrite Hc, IH by exact Hf.
      rewrite <- app_assoc. reflexivity. }
  assert (Hpre : forall p acc, lastSegment acc (p ++ js "/" ++ f) = f).
  { induction p as [|c p IH]; intros acc; simpl.
    - apply Hseg.
    - destruct (c =? 47)%N; apply IH. }
  apply Hpre.
Qed.

(** [/queue /data 2147484] on the fixture folder: the start answers that
    three files are queued at 2147484000 milliseconds, and the timer it
    arms fires every millisecond. *)
Lemma start_delivers_in_name_order_witness :
  let r1 := perform joinPlain basenamePlain
              (Starts (js "/data") overflowing (Some listed)) idle in
  snd (fst (startFileQueue joinPlain (js "/data") overflowing (Some listed)
              initial)) = Queued 3 overflowing /\
  r1.(now).(timers).(live) = [(0, 1%Z)] /\
  armedDelay overflowing <> overflowing.
Proof.
  pose proof (start_delivers_in_name_order joinPlain basenamePlain unitLeb
                unitLeb_total unitLeb_trans idle (js "/data") overflowing
                fixture (js "a.txt") [js "b.txt"; js "c.txt"] eq_refl) as H.
  cbv zeta in H.
  destruct H as (_ & _ & Hres & _ & _ & _ & _ & Hout & _).
  split; [exact Hres|]. split; [reflexivity|].
  rewrite Hout; [discriminate|]. right. reflexivity.
Defined.

(** On the folder of the claim the files go out in name order, and after
    the delivery of the start and the one of the first firing the status
    counts two sent and one remaining. *)
Example fixture_goes_out_in_name_order :
  let r := performs joinPlain basenamePlain
             [Starts (js "/data") 1000%Z (Some listed); Settles 0 true;
              Fires; Settles 0 true] idle in
  map fst listed = [js "a.txt"; js "b.txt"; js "c.txt"] /\
  r.(handed) = [js "/data/a.txt"; js "/data/b.txt"] /\
  (getQueueStatus basenamePlain r.(now)).(current).(sentFiles) = 2 /\
  (getQueueStatus basenamePlain r.(now)).(remaining) = 1 /\
  (perform joinPlain basenamePlain Fires r).(handed) =
  [js "/data/a.txt"; js "/data/b.txt"; js "/data/c.txt"].
Proof. vm_compute. repeat split. Qed.

(** C5 as stated fails: stopping a queue that still holds files empties
    [fileQueue] and keeps the counts. *)
Lemma stop_breaks_count_equation :
  attained joinPlain basenamePlain orderly stoppedEarly /\
  stoppedEarly.(underWay) = [] /\
  stoppedEarly.(now).(queueStatus).(sentFiles) +
  length stoppedEarly.(now).(fileQueue) <>
  stoppedEarly.(now).(queueStatus).(totalFiles).
Proof.
  split; [|split; [reflexivity | discriminate]].
  unfold stoppedEarly, performs. cbn [fold_left].
  apply attained_step; [|reflexivity].
  apply attained_step; [|reflexivity].
  apply attained_step; [|reflexivity]. apply attained_idle.
Qed.

Lemma counts_agree_while_active_witness :
  let r := performs joinPlain basenamePlain
             [Starts (js "/data") 1000%Z (Some listed); Fires] idle in
  r.(now).(queueStatus).(sentFiles) + length r.(now).(fileQueue) +
  length r.(underWay) = r.(now).(queueStatus).(totalFiles).
Proof.
  intros r.
  apply (counts_agree_while_active joinPlain basenamePlain r).
  - unfold r, performs. cbn [fold_left].
    apply attained_step; [|reflexivity].
    apply attained_step; [|reflexivity]. apply attained_idle.
  - reflexivity.
Defined.

Lemma failed_delivery_is_retried_witness :
  let st := apply joinPlain basenamePlain
              (Start (js "/data") 1000%Z (Some listed) true) initial in
  Queue.sendNextQueuedFile basenamePlain false st =
  (st, NotDelivered (js "/data/b.txt")).
Proof.
  intros st.
  apply (failed_delivery_is_retried basenamePlain st (js "/data/b.txt")
           [js "/data/c.txt"]).
  reflexivity.
Defined.

End QueueFacts.

(** ** The typing indicator *)

Module TypingFacts.

Import Timers Typing.

Lemma stopTyping_clears (st : typing_state) :
  running (stopTyping st) = false /\
  forall h, st.(typingInterval) = Some h ->
            isLive h (stopTyping st).(timers) = false.
Proof.
  unfold stopTyping, running. destruct (typingInterval st) as [h|] eqn:E.
  - split; [reflexivity|]. intros h' Hh. injection Hh as <-.
    simpl. unfold isLive, clearInterval. simpl.
    induction (live (timers st)) as [|e l IH]; simpl; [reflexivity|].
    destruct (fst e =? h) eqn:Eh; simpl; [exact IH|].
    rewrite Eh. exact IH.
  - rewrite E. split; [reflexivity | discriminate].
Qed.

Lemma stopTyping_idempotent (st : typing_state) :
  stopTyping (stopTyping st) = stopTyping st.
Proof.
  unfold stopTyping at 2 3. destruct (typingInterval st) eqn:E.
  - reflexivity.
  - unfold stopTyping. rewrite E. reflexivity.
Qed.

Lemma stopTyping_when_idle (st : typing_state) :
  st.(typingInterval) = None -> stopTyping st = st.
Proof.
  intros E. unfold stopTyping. rewrite E. reflexivity.
Qed.

Lemma stopTyping_settles (n : nat) (st : typing_state) :
  Nat.iter (S n) stopTyping st = stopTyping st.
Proof.
  induction n as [|n IH]; [reflexivity|].
  change (Nat.iter (S (S n)) stopTyping st)
    with (stopTyping (Nat.iter (S n) stopTyping st)).
  rewrite IH. apply stopTyping_idempotent.
Qed.

Lemma isLive_other (h k : nat) (t : table) :
  h <> k -> isLive h (clearInterval k t) = isLive h t.
Proof.
  intros Hk. unfold isLive, clearInterval. simpl.
  induction (live t) as [|e l IH]; simpl; [reflexivity|].
  destruct (fst e =? k) eqn:Ek; simpl.
  - apply Nat.eqb_eq in Ek.
    replace (fst e =? h) with false
      by (symmetry; apply Nat.eqb_neq; lia).
    exact IH.
  - rewrite IH. reflexivity.
Qed.

(** C7.  [stopTyping] does what the claim says: it cancels the timer whose
    handle is stored and clears the handle, is idempotent, and leaves a
    state with no indicator running as it is.  [startTyping] does not: it
    carries no check for an indicator that is already running.  Called
    while one is running, on a connected session, it sends the typing
    state, arms a second timer and overwrites the stored handle; the first
    timer stays live through any number of calls of [stopTyping] and keeps
    sending the typing state. *)
Theorem second_start_leaks_timer
  (st : typing_state) (chat : str) (h : nat) :
  st.(isReady) = true ->
  st.(selfChatId) = Some chat ->
  st.(typingInterval) = Some h ->
  isLive h st.(timers) = true ->
  h < st.(timers).(fresh) ->
  let st1 := startTyping true st in
  st1 <> st /\
  st1.(typingInterval) = Some st.(timers).(fresh) /\
  st1.(signals) = S st.(signals) /\
  isLive h st1.(timers) = true /\
  isLive st.(timers).(fresh) st1.(timers) = true /\
  2 <= length st1.(timers).(live) /\
  (forall n,
     let stn := Nat.iter (S n) stopTyping st1 in
     running stn = false /\
     isLive h stn.(timers) = true /\
     (fire h stn).(signals) = S stn.(signals)) /\
  (forall s,
     running (stopTyping s) = false /\
     forall k, s.(typingInterval) = Some k ->
               isLive k (stopTyping s).(timers) = false) /\
  (forall s, stopTyping (stopTyping s) = stopTyping s) /\
  (forall s, running s = false -> stopTyping s = s).
Proof.
  intros Hr Hc Hh Hlive Hfresh st1.
  assert (E1 : st1 = mkT true (Some chat) (Some st.(timers).(fresh))
                         (snd (setInterval period st.(timers)))
                         (S st.(signals))).
  { unfold st1, startTyping. rewrite Hr, Hc. reflexivity. }
  assert (H1 : isLive h st1.(timers) = true).
  { rewrite E1. unfold isLive in *. simpl. rewrite Hlive.
    apply orb_true_r. }
  assert (H2 : isLive h (stopTyping st1).(timers) = true).
  { rewrite E1. unfold stopTyping. cbn [typingInterval timers].
    rewrite isLive_other by lia.
    rewrite E1 in H1. exact H1. }
  split.
  { rewrite E1. intros E. rewrite <- E in Hh. cbn [typingInterval] in Hh.
    injection Hh as Hh. lia. }
  split; [rewrite E1; reflexivity|].
  split; [rewrite E1; reflexivity|].
  split; [exact H1|].
  split.
  { rewrite E1. unfold isLive. simpl. rewrite Nat.eqb_refl. reflexivity. }
  split.
  { rewrite E1. cbn [timers setInterval snd live length].
    unfold isLive in Hlive. destruct (live (timers st)); [discriminate|].
    simpl. lia. }
  split.
  { intros n stn. unfold stn. rewrite stopTyping_settles.
    split; [apply stopTyping_clears|]. split; [exact H2|].
    unfold fire. rewrite H2. reflexivity. }
  split; [intros s; apply stopTyping_clears|].
  split; [intros s; apply stopTyping_idempotent|].
  intros s Hs. apply stopTyping_when_idle.
  unfold running in Hs. destruct (typingInterval s); [discriminate|].
  reflexivity.
Qed.

(** A second prompt handled while the first is being answered:
    [startTyping] runs twice before the two calls of [stopTyping], and the
    timer of the first start is still live after both. *)
Lemma second_start_leaks_timer_witness :
  isLive 0
    (stopTyping (stopTyping (startTyping true (startTyping true ready))))
    .(timers) = true.
Proof.
  pose proof (second_start_leaks_timer (startTyping true ready) (js "me@lid")
                0 eq_refl eq_refl eq_refl eq_refl ltac:(simpl; lia)) as H.
  cbv zeta in H. destruct H as (_ & _ & _ & _ & _ & _ & H & _).
  exact (proj1 (proj2 (H 1))).
Defined.

End TypingFacts.

(** ** Classification of commands *)

Module RouterFacts.

Import Router.

Section Classify.

Variable toLowerCase : str -> str.
Hypothesis toLowerCase_empty : toLowerCase [] = [].

Lemma text_branch (body : str) (target : str) :
  target <> [] ->
  toLowerCase (trim body) = target ->
  truthy body && truthy (trim body) = true.
Proof.
  intros Ht E.
  destruct (trim body) as [|c t] eqn:Et.
  - rewrite toLowerCase_empty in E. congruence.
  - destruct body; [discriminate Et | reflexivity].
Qed.

(** C9, as the code has it.  A message without attached media whose
    trimmed text lower-cases to [/queue-status] or [/queue-stop] takes the
    branch of that command.  Whether or not media is attached, such a
    message is never a free-form prompt and never reaches the [/queue
    <folder>] command. *)
Theorem queue_commands_dispatch (body : str) (hasMedia downloaded : bool) :
  (toLowerCase (trim body) = js "/queue-status" ->
   (hasMedia = false -> classify toLowerCase body hasMedia downloaded = QueueStatus) /\
   (forall text, classify toLowerCase body hasMedia downloaded <> FreeformPrompt text) /\
   (forall f s, classify toLowerCase body hasMedia downloaded <> QueueStart f s) /\
   classify toLowerCase body hasMedia downloaded <> QueueUsage) /\
  (toLowerCase (trim body) = js "/queue-stop" ->
   (hasMedia = false -> classify toLowerCase body hasMedia downloaded = QueueStop) /\
   (forall text, classify toLowerCase body hasMedia downloaded <> FreeformPrompt text) /\
   (forall f s, classify toLowerCase body hasMedia downloaded <> QueueStart f s) /\
   classify toLowerCase body hasMedia downloaded <> QueueUsage).
Proof.
  split; intros E.
  - assert (Hb : truthy body && truthy (trim body) = true)
      by (apply (text_branch body (js "/queue-status")); [discriminate | exact E]).
    unfold classify. rewrite Hb, E. destruct hasMedia; simpl.
    + destruct downloaded; repeat split; intros; discriminate.
    + repeat split; intros; discriminate.
  - assert (Hb : truthy body && truthy (trim body) = true)
      by (apply (text_branch body (js "/queue-stop")); [discriminate | exact E]).
    unfold classify. rewrite Hb, E. destruct hasMedia; simpl.
    + destruct downloaded; repeat split; intros; discriminate.
    + repeat split; intros; discriminate.
Qed.

End Classify.

Lemma queue_commands_dispatch_witness :
  classify asciiLower (js " /Queue-Status ") false false = QueueStatus.
Proof.
  apply (queue_commands_dispatch asciiLower eq_refl (js " /Queue-Status ")
           false false); reflexivity.
Defined.

(** C9 as stated fails: the commands are only looked for in messages
    without media, so a media message captioned [/queue-status] is handed
    to the AI with its attachment. *)
Lemma captioned_media_is_not_a_command :
  asciiLower (trim (js "/queue-status")) = js "/queue-status" /\
  classify asciiLower (js "/queue-status") true true =
  MediaPrompt (js "/queue-status") /\
  classify asciiLower (js "/queue-status") true true <> QueueStatus.
Proof.
  repeat split; discriminate.
Qed.

End RouterFacts.

(** ** Shell quoting *)

Module ShellFacts.

Import Regex RegexFacts Shell.

(** Replacing the characters of a class one by one. *)
Lemma replaceAll_class (p : char -> bool) (rep : str) (s : str) :
  replaceAll (Chr p) (fun _ => rep) s =
  flat_map (fun x => if p x then rep else [x]) s.
Proof.
  induction s as [|x t IH]; rewrite replaceAll_step; unfold match_here.
  - reflexivity.
  - cbn [m flat_map]. destruct (p x).
    + rewrite (proj2 (Nat.ltb_lt (length t) (length (x :: t))))
        by (simpl; lia).
      rewrite IH. reflexivity.
    + rewrite IH. reflexivity.
Qed.

Lemma replaceChar_flat_map (c : char) (rep s : str) :
  replaceChar c rep s =
  flat_map (fun x => if (c =? x)%N then rep else [x]) s.
Proof. apply replaceAll_class. Qed.

Lemma flat_map_flat_map {A B C : Type} (f : A -> list B) (g : B -> list C)
  (l : list A) :
  flat_map g (flat_map f l) = flat_map (fun x => flat_map g (f x)) l.
Proof.
  induction l as [|x l IH]; simpl; [reflexivity|].
  rewrite flat_map_app, IH. reflexivity.
Qed.

Ltac char_cases x :=
  destruct (N.eqb_spec x 34); [subst; reflexivity|];
  destruct (N.eqb_spec x 36); [subst; reflexivity|];
  destruct (N.eqb_spec x 96); [subst; reflexivity|];
  destruct (N.eqb_spec x 92); [subst; reflexivity|];
  destruct (N.eqb_spec x 10); [subst; reflexivity|].

Ltac plain_char x :=
  unfold special, dquote, dollar, backtick, backslash;
  repeat match goal with
         | H : x <> ?c |- _ =>
             let E := fresh "E" in
             let F := fresh "F" in
             assert (E : (x =? c)%N = false) by (apply N.eqb_neq; exact H);
             assert (F : (c =? x)%N = false)
               by (apply N.eqb_neq; intros ?; apply H; congruence);
             clear H
         end;
  repeat (cbn [flat_map app orb];
          repeat match goal with
                 | E : _ = false |- _ => rewrite E
                 end);
  reflexivity.

Lemma escapedMsg_chars (s : str) : escapedMsg s = flat_map escMsgChar s.
Proof.
  unfold escapedMsg. rewrite !replaceChar_flat_map, !flat_map_flat_map.
  apply flat_map_ext. intros x. unfold escMsgChar.
  char_cases x. plain_char x.
Qed.

Lemma escapedValue_chars (s : str) : escapedValue s = flat_map escValueChar s.
Proof.
  unfold escapedValue. rewrite !replaceChar_flat_map, !flat_map_flat_map.
  apply flat_map_ext. intros x. unfold escValueChar.
  char_cases x. plain_char x.
Qed.

Lemma escapedPrompt_chars (s : str) :
  escapedPrompt s = flat_map escPromptChar s.
Proof.
  unfold escapedPrompt. rewrite !replaceChar_flat_map, !flat_map_flat_map.
  apply flat_map_ext. intros x. unfold escPromptChar.
  char_cases x. plain_char x.
Qed.

Lemma forallb_flat_map {A B : Type} (q : B -> bool) (f : A -> list B)
  (l : list A) :
  (forall x, forallb q (f x) = true) -> forallb q (flat_map f l) = true.
Proof.
  intros H. induction l as [|x l IH]; simpl; [reflexivity|].
  rewrite forallb_app, H, IH. reflexivity.
Qed.

Lemma special_not_backslash (x : char) : special x = true -> (x =? backslash)%N = false.
Proof.
  unfold special, dquote, dollar, backtick, backslash.
  destruct (N.eqb_spec x 92); [subst; discriminate | reflexivity].
Qed.

Lemma plainRead_escaped (x : char) (t : str) :
  special x || (x =? backslash)%N = true ->
  plainRead (backslash :: x :: t) = option_map (cons x) (plainRead t).
Proof.
  intros H. cbn [plainRead]. rewrite N.eqb_refl.
  replace ((x =? dollar) || (x =? backtick) || (x =? dquote) || (x =? backslash))%N
    with true; [reflexivity|].
  symmetry. unfold special in H.
  destruct (x =? dquote)%N, (x =? dollar)%N, (x =? backtick)%N,
           (x =? backslash)%N; try reflexivity; discriminate H.
Qed.

Lemma plainRead_plain (x : char) (t : str) :
  special x = false -> (x =? backslash)%N = false ->
  plainRead (x :: t) = option_map (cons x) (plainRead t).
Proof.
  intros Hs Hb. cbn [plainRead]. rewrite Hb.
  unfold special in Hs. rewrite Hs. reflexivity.
Qed.

(** The value of an environment variable, as [addMcpWithEnv] escapes it,
    is read back by the shell as the value itself, whatever it holds. *)
Theorem escapedValue_read_back (value : str) :
  plainRead (escapedValue value) = Some value.
Proof.
  rewrite escapedValue_chars.
  induction value as [|x v IH]; [reflexivity|].
  change (flat_map escValueChar (x :: v))
    with (escValueChar x ++ flat_map escValueChar v).
  unfold escValueChar in *.
  destruct (special x || (x =? backslash)%N) eqn:E.
  - cbn [app]. rewrite plainRead_escaped by exact E. rewrite IH. reflexivity.
  - apply orb_false_iff in E. destruct E as [Hs Hb].
    cbn [app]. rewrite plainRead_plain by assumption. rewrite IH. reflexivity.
Qed.

(** A message without backslash, as the [claude-message] handler escapes
    it, is read back by the shell as the message itself. *)
Theorem escapedMsg_read_back (message : str) :
  forallb (fun x => negb (x =? backslash)%N) message = true ->
  plainRead (escapedMsg message) = Some message.
Proof.
  rewrite escapedMsg_chars.
  induction message as [|x v IH]; intros H; [reflexivity|].
  simpl in H. apply andb_true_iff in H. destruct H as [Hx H].
  apply negb_true_iff in Hx.
  change (flat_map escMsgChar (x :: v))
    with (escMsgChar x ++ flat_map escMsgChar v).
  unfold escMsgChar in *. destruct (special x) eqn:E.
  - cbn [app]. rewrite plainRead_escaped by (rewrite E; reflexivity).
    rewrite IH by exact H. reflexivity.
  - cbn [app]. rewrite plainRead_plain by assumption.
    rewrite IH by exact H. reflexivity.
Qed.

Lemma escapedMsg_read_back_witness :
  plainRead (escapedMsg (js "echo $HOME `id`")) = Some (js "echo $HOME `id`").
Proof.
  apply (escapedMsg_read_back (js "echo $HOME `id`")). reflexivity.
Defined.

(** The prompt of [sendToAI], as escaped for the command line, holds no
    newline; when the prompt has no backslash, the shell reads it back as
    the prompt with every newline spelled as a backslash and the letter n,
    without any expansion and without an early end of the word. *)
Theorem escapedPrompt_read_back (fullPrompt : str) :
  forallb (fun x => negb (x =? 10)%N) (escapedPrompt fullPrompt) = true /\
  (forallb (fun x => negb (x =? backslash)%N) fullPrompt = true ->
   plainRead (escapedPrompt fullPrompt) = Some (newlinesSpelled fullPrompt)).
Proof.
  rewrite escapedPrompt_chars. split.
  - apply forallb_flat_map. intros x. unfold escPromptChar.
    destruct (special x) eqn:E.
    + unfold special, dquote, dollar, backtick in E.
      destruct (N.eqb_spec x 10) as [->|Hn]; [discriminate E|].
      apply N.eqb_neq in Hn. cbn [forallb]. rewrite Hn. reflexivity.
    + destruct (N.eqb_spec x 10) as [->|Hn]; [reflexivity|].
      apply N.eqb_neq in Hn. cbn [forallb]. rewrite Hn. reflexivity.
  - induction fullPrompt as [|x v IH]; intros H; [reflexivity|].
    simpl in H. apply andb_true_iff in H. destruct H as [Hx H].
    apply negb_true_iff in Hx. unfold newlinesSpelled in *.
    change (flat_map escPromptChar (x :: v))
      with (escPromptChar x ++ flat_map escPromptChar v).
    change (flat_map ?f (x :: v)) with (f x ++ flat_map f v).
    unfold escPromptChar in *. destruct (special x) eqn:E.
    + assert (Hn : (x =? 10)%N = false).
      { unfold special, dquote, dollar, backtick in E.
        destruct (N.eqb_spec x 10); [subst; discriminate E | reflexivity]. }
      rewrite Hn. cbn [app].
      rewrite plainRead_escaped by (rewrite E; reflexivity).
      rewrite IH by exact H. reflexivity.
    + destruct (N.eqb_spec x 10) as [->|Hn].
      * cbn [app]. cbn [plainRead]. rewrite N.eqb_refl.
        change ((110 =? dollar) || (110 =? backtick) || (110 =? dquote)
                || (110 =? backslash))%N with false.
        change (110 =? 10)%N with false. cbn iota.
        change (110 =? backslash)%N with false.
        change ((110 =? dquote) || (110 =? dollar) || (110 =? backtick))%N
          with false.
        cbn iota. rewrite IH by exact H. reflexivity.
      * cbn [app]. rewrite plainRead_plain by assumption.
        rewrite IH by exact H. reflexivity.
Qed.

Lemma escapedPrompt_read_back_witness :
  plainRead (escapedPrompt (AI.buildPrompt [] (js "price in $?"))) =
  Some (newlinesSpelled (AI.buildPrompt [] (js "price in $?"))).
Proof.
  apply (escapedPrompt_read_back (AI.buildPrompt [] (js "price in $?"))).
  vm_compute. reflexivity.
Defined.

End ShellFacts.

(** ** Media files and images *)

Module MediaFacts.

Import Regex RegexFacts ShellFacts Media.

Lemma splitFrom_chars (sep : char) (s : str) :
  forall cur seg c,
    In seg (splitFrom sep cur s) -> In c seg ->
    (In c cur \/ In c s) /\ (c = sep -> In c cur).
Proof.
  induction s as [|x t IH]; intros cur seg c Hseg Hc; simpl in Hseg.
  - destruct Hseg as [<-|[]]. split; [left; exact Hc | intros _; exact Hc].
  - destruct (N.eqb_spec x sep) as [->|Hx].
    + destruct Hseg as [<-|Hseg].
      * split; [left; exact Hc | intros _; exact Hc].
      * destruct (IH [] seg c Hseg Hc) as [[[]|Hin] Hsep].
        split; [right; right; exact Hin | intros E; destruct (Hsep E)].
    + destruct (IH (cur ++ [x]) seg c Hseg Hc) as [Hin Hsep]. split.
      * destruct Hin as [Hin|Hin]; [|right; right; exact Hin].
        apply in_app_or in Hin. destruct Hin as [Hin|[<-|[]]];
          [left; exact Hin | right; left; reflexivity].
      * intros E. pose proof (Hsep E) as Hin'. apply in_app_or in Hin'.
        destruct Hin' as [Hin'|[Hin'|[]]]; [exact Hin' | congruence].
Qed.

(** No piece of a split holds the separator, and every character of a
    piece is a character of the text. *)
Lemma split_chars (sep : char) (s seg : str) (c : char) :
  In seg (split sep s) -> In c seg -> In c s /\ c <> sep.
Proof.
  intros Hseg Hc. destruct (splitFrom_chars sep s [] seg c Hseg Hc) as [Hin Hsep].
  split.
  - destruct Hin as [[]|Hin]. exact Hin.
  - intros E. destruct (Hsep E).
Qed.

Lemma split_not_nil (sep : char) (s : str) : split sep s <> [].
Proof.
  unfold split. generalize (@nil char) as cur.
  induction s as [|x t IH]; intros cur; simpl; [discriminate|].
  destruct (x =? sep)%N; [discriminate | apply IH].
Qed.

Lemma extension_chars (mimetype : str) (c : char) :
  In c (extension mimetype) ->
  In c (js "bin") \/ (In c mimetype /\ c <> 47%N /\ c <> 59%N).
Proof.
  unfold extension.
  destruct (nth_error (split 47%N mimetype) 1) as [sub|] eqn:E;
    [|left; assumption].
  apply nth_error_In in E.
  destruct (split 59%N sub) as [|piece pieces] eqn:Es;
    [destruct (split_not_nil _ _ Es)|].
  simpl. destruct (truthy piece); [|left; assumption].
  intros Hc. right.
  assert (Hp : In piece (split 59%N sub)) by (rewrite Es; left; reflexivity).
  destruct (split_chars _ _ _ _ Hp Hc) as [Hsub H59].
  destruct (split_chars _ _ _ _ E Hsub) as [Hm H47].
  repeat split; assumption.
Qed.

Lemma extension_not_empty (mimetype : str) : extension mimetype <> [].
Proof.
  unfold extension.
  destruct (nth_error (split 47%N mimetype) 1) as [sub|]; [|discriminate].
  simpl. destruct (hd [] (split 59%N sub)); simpl; discriminate.
Qed.

Lemma sanitizedId_chars (serialized : str) :
  sanitizedId serialized =
  map (fun c => if isAlnum c then c else 95%N) serialized.
Proof.
  unfold sanitizedId. rewrite replaceAll_class.
  induction serialized as [|x t IH]; [reflexivity|].
  cbn [flat_map map]. rewrite IH. destruct (isAlnum x); reflexivity.
Qed.

(** The name a media file is saved under always has an extension that is
    not empty, holds no path separator and no semicolon in the extension,
    and keeps of the message identifier only letters, digits and
    underscores: whatever the message identifier and the MIME type are,
    the file lands in the media directory itself. *)
Theorem saved_name_stays_in_media_dir (mimetype serialized : str) :
  extension mimetype <> [] /\
  forallb (fun c => negb (c =? 47)%N && negb (c =? 59)%N) (extension mimetype)
  = true /\
  length (sanitizedId serialized) = length serialized /\
  forallb (fun c => isAlnum c || (c =? 95)%N) (sanitizedId serialized) = true /\
  forallb (fun c => negb (c =? 47)%N) (savedName mimetype serialized) = true.
Proof.
  assert (Hext : forallb (fun c => negb (c =? 47)%N && negb (c =? 59)%N)
                         (extension mimetype) = true).
  { apply forallb_forall. intros c Hc. apply extension_chars in Hc.
    destruct Hc as [Hc|(_ & H47 & H59)].
    - simpl in Hc. destruct Hc as [<-|[<-|[<-|[]]]]; reflexivity.
    - apply N.eqb_neq in H47, H59. rewrite H47, H59. reflexivity. }
  assert (Hid : forallb (fun c => isAlnum c || (c =? 95)%N)
                        (sanitizedId serialized) = true).
  { rewrite sanitizedId_chars. apply forallb_forall. intros c Hc.
    apply in_map_iff in Hc. destruct Hc as (x & <- & _).
    destruct (isAlnum x) eqn:E; [rewrite E|]; reflexivity. }
  split; [apply extension_not_empty|]. split; [exact Hext|].
  split; [rewrite sanitizedId_chars; apply length_map|].
  split; [exact Hid|].
  unfold savedName, mediaFileName. rewrite !forallb_app.
  apply andb_true_iff. split; [|apply andb_true_iff; split; [reflexivity|]].
  - apply forallb_forall. intros c Hc.
    rewrite forallb_forall in Hid. specialize (Hid c Hc).
    destruct (N.eqb_spec c 47) as [->|]; [discriminate Hid | reflexivity].
  - apply forallb_forall. intros c Hc.
    rewrite forallb_forall in Hext. specialize (Hext c Hc).
    apply andb_true_iff in Hext. apply Hext.
Qed.

Lemma semicolon_not_word (c : char) (t : str) (cs : caps) (k : cont) :
  is_word c = true -> m (lit (js ";base64,")) (c :: t) cs k = None.
Proof.
  intros H. rewrite m_lit. change (js ";base64,") with (59%N :: js "base64,").
  rewrite startsWith_cons.
  destruct (N.eqb_spec 59 c) as [<-|]; [discriminate H | reflexivity].
Qed.

(** What [sendWhatsAppBase64Image] takes off: a data URL of an image gives
    back exactly its payload, a text that does not start as one is left as
    it is, and in every case what is kept is the end of the text. *)
Theorem stripDataUrl_payload (base64Data : str) :
  (forall subtype payload,
     subtype <> [] -> forallb is_word subtype = true ->
     base64Data = js "data:image/" ++ subtype ++ js ";base64," ++ payload ->
     stripDataUrl base64Data = payload) /\
  (startsWith base64Data (js "data:image/") = false ->
   stripDataUrl base64Data = base64Data) /\
  suffix (stripDataUrl base64Data) base64Data.
Proof.
  split; [|split].
  - intros subtype payload Hne Hw ->.
    unfold stripDataUrl, match_here, dataUrlRe.
    rewrite m_seq, m_lit.
    replace (startsWith (js "data:image/" ++ subtype ++ js ";base64," ++ payload)
                        (js "data:image/")) with true
      by (symmetry; apply startsWith_app; eexists; reflexivity).
    rewrite skipn_app_exact, m_seq.
    rewrite m_plus_commit
      by (intros c t Hc; apply semicolon_not_word; exact Hc).
    destruct subtype as [|c w]; [contradiction|].
    simpl in Hw. apply andb_true_iff in Hw. destruct Hw as [Hc Hw].
    cbn [app]. rewrite Hc.
    change (js ";base64," ++ payload) with (59%N :: js "base64," ++ payload).
    match goal with
    | |- context [dropWhile is_word ?u] =>
        replace (dropWhile is_word u) with (59%N :: js "base64," ++ payload)
          by (symmetry; apply (span_app is_word w 59%N _ Hw eq_refl))
    end.
    rewrite m_lit.
    change (59%N :: js "base64," ++ payload) with (js ";base64," ++ payload).
    replace (startsWith (js ";base64," ++ payload) (js ";base64,")) with true
      by (symmetry; apply startsWith_app; eexists; reflexivity).
    rewrite skipn_app_exact. reflexivity.
  - intros H. unfold stripDataUrl, match_here, dataUrlRe.
    rewrite m_seq, m_lit, H. reflexivity.
  - unfold stripDataUrl.
    destruct (match_here dataUrlRe base64Data) as [[cs behind]|] eqn:E.
    + apply (match_here_suffix _ _ _ _ E).
    + apply suffix_refl.
Qed.

Lemma stripDataUrl_payload_witness :
  stripDataUrl (js "data:image/png;base64,iVBORw0KGgo=") = js "iVBORw0KGgo=".
Proof.
  apply (proj1 (stripDataUrl_payload (js "data:image/png;base64,iVBORw0KGgo="))
           (js "png") (js "iVBORw0KGgo=")); [discriminate | reflexivity | reflexivity].
Defined.

End MediaFacts.

(** ** Tool permissions *)

Module PermissionsFacts.

Import Regex RegexFacts Permissions.

Lemma without_without (perm : str) (l : list str) :
  without perm (without perm l) = without perm l.
Proof.
  unfold without. induction l as [|x l IH]; simpl; [reflexivity|].
  destruct (str_eqb x perm) eqn:E; simpl; [exact IH|].
  rewrite E. simpl. rewrite IH. reflexivity.
Qed.

Lemma without_snoc (perm : str) (l : list str) :
  without perm (l ++ [perm]) = without perm l.
Proof.
  unfold without. rewrite filter_app. simpl. rewrite str_eqb_refl. simpl.
  apply app_nil_r.
Qed.

Lemma occurrences_without (perm : str) (l : list str) :
  occurrences perm (without perm l) = 0.
Proof.
  unfold occurrences, without. induction l as [|x l IH]; simpl; [reflexivity|].
  destruct (str_eqb x perm) eqn:E; simpl; [exact IH|].
  rewrite E. exact IH.
Qed.

Lemma occurrences_snoc (perm : str) (l : list str) :
  occurrences perm (l ++ [perm]) = S (occurrences perm l).
Proof.
  unfold occurrences. rewrite filter_app, length_app. simpl.
  rewrite str_eqb_refl. simpl. lia.
Qed.

(** Updating a permission leaves it in exactly one place: once in the
    list of the action ([allow] or [deny]) and in no other list, or in no
    list at all for any other action.  The other permissions keep their
    lists and their order, and doing the same update again changes
    nothing. *)
Theorem update_permission_places_once
  (mcp tool action : str) (settings : option permissions) :
  let perm := permString mcp tool in
  let after := updatePermission mcp tool action settings in
  occurrences perm (orEmpty after.(allow)) =
    (if str_eqb action (js "allow") then 1 else 0) /\
  occurrences perm (orEmpty after.(deny)) =
    (if str_eqb action (js "allow") then 0
     else if str_eqb action (js "deny") then 1 else 0) /\
  occurrences perm (orEmpty after.(ask)) = 0 /\
  without perm (orEmpty after.(allow)) =
    without perm (orEmpty (before settings).(allow)) /\
  without perm (orEmpty after.(deny)) =
    without perm (orEmpty (before settings).(deny)) /\
  without perm (orEmpty after.(ask)) =
    without perm (orEmpty (before settings).(ask)) /\
  updatePermission mcp tool action (Some after) = after.
Proof.
  intros perm after. unfold after, updatePermission. fold perm.
  destruct (str_eqb action (js "allow")) eqn:Ea;
    [|destruct (str_eqb action (js "deny")) eqn:Ed];
    cbn [allow deny ask orEmpty before];
    rewrite ?Ea, ?Ed; cbn [allow deny ask orEmpty];
    rewrite ?without_snoc, ?without_without, ?occurrences_snoc,
            ?occurrences_without;
    repeat split; reflexivity.
Qed.

Lemma underscore_stops (c : char) (t : str) (cs : caps) (k : cont) (r : regex) :
  notUnderscore c = true ->
  m (Seq (lit (js "__")) r) (c :: t) cs k = None.
Proof.
  intros H. rewrite m_seq, m_lit. change (js "__") with (95%N :: js "_").
  rewrite startsWith_cons. unfold notUnderscore in H.
  apply negb_true_iff in H. rewrite N.eqb_sym, H. reflexivity.
Qed.

(** A greedy run in front of the end of the text has to reach the end. *)
Lemma backoff_end (p : char -> bool) (k : cont) (cs : caps) (s : str) :
  (forall c t, k (c :: t) cs = None) ->
  backoff p k cs s = if forallb p s then k [] cs else None.
Proof.
  intros H. induction s as [|c t IH]; simpl; [reflexivity|].
  destruct (p c); simpl.
  - rewrite IH, H. apply orElse_none_r.
  - apply H.
Qed.

Lemma match_here_permRe (s : str) :
  match_here permRe s =
  if startsWith s (js "mcp__") then
    match skipn 5 s with
    | c :: t =>
        if notUnderscore c then
          if startsWith (dropWhile notUnderscore t) (js "__") then
            match skipn 2 (dropWhile notUnderscore t) with
            | d :: t2 =>
                if is_dot d && forallb is_dot t2 then
                  Some ([(2, d :: t2); (1, c :: takeWhile notUnderscore t)], [])
                else None
            | [] => None
            end
          else None
        else None
    | [] => None
    end
  else None.
Proof.
  unfold match_here, permRe. rewrite m_seq, m_lit.
  destruct (startsWith s (js "mcp__")); [|reflexivity].
  change (length (js "mcp__")) with 5.
  set (u := skipn 5 s).
  rewrite m_seq, m_group.
  rewrite m_plus_commit
    by (intros c t Hc; apply underscore_stops; exact Hc).
  destruct u as [|c t]; [reflexivity|].
  destruct (notUnderscore c) eqn:Ec; [|reflexivity].
  pose proof (ReplyFacts.firstn_takeWhile notUnderscore (c :: t)) as Hf.
  simpl takeWhile in Hf. simpl dropWhile in Hf. rewrite Ec in Hf.
  rewrite Hf. rewrite m_seq, m_lit.
  destruct (startsWith (dropWhile notUnderscore t) (js "__")); [|reflexivity].
  change (length (js "__")) with 2.
  set (r2 := skipn 2 (dropWhile notUnderscore t)).
  rewrite m_seq, m_group, m_plus_class.
  destruct r2 as [|d t2]; [reflexivity|].
  destruct (is_dot d); [|reflexivity].
  rewrite backoff_end by (intros; reflexivity).
  cbn [andb]. destruct (forallb is_dot t2); [|reflexivity].
  cbn [m length]. rewrite Nat.sub_0_r.
  change (S (length t2)) with (length (d :: t2)). rewrite firstn_all.
  reflexivity.
Qed.

Lemma parsePermission_some (perm : str) (e : entry) :
  parsePermission perm = Some e ->
  e.(raw) = perm /\ splittable e.(mcp) e.(tool) /\
  perm = permString e.(mcp) e.(tool).
Proof.
  unfold parsePermission. rewrite match_here_permRe.
  destruct (startsWith perm (js "mcp__")) eqn:Es; [|discriminate].
  apply startsWith_app in Es. destruct Es as [u ->].
  change 5 with (length (js "mcp__")). rewrite skipn_app_exact.
  destruct u as [|c t]; [discriminate|].
  destruct (notUnderscore c) eqn:Ec; [|discriminate].
  destruct (startsWith (dropWhile notUnderscore t) (js "__")) eqn:E2;
    [|discriminate].
  apply startsWith_app in E2. destruct E2 as [r2 E2].
  rewrite E2. change 2 with (length (js "__")). rewrite skipn_app_exact.
  destruct r2 as [|d t2]; [discriminate|].
  destruct (is_dot d && forallb is_dot t2) eqn:Ed; [|discriminate].
  cbn [group Nat.eqb]. intros H. injection H as <-. cbn [raw mcp tool].
  split; [reflexivity|]. split.
  - repeat split; try discriminate.
    + simpl. rewrite Ec. apply takeWhile_all.
    + exact Ed.
  - unfold permString. f_equal.
    rewrite <- (takeWhile_dropWhile notUnderscore t) at 1.
    rewrite E2. reflexivity.
Qed.

Lemma parsePermission_permString (a b : str) :
  splittable a b ->
  parsePermission (permString a b) = Some (mkEntry a b (permString a b)).
Proof.
  intros (Ha & Hau & Hb & Hbd).
  unfold parsePermission. rewrite match_here_permRe. unfold permString.
  replace (startsWith (js "mcp__" ++ a ++ js "__" ++ b) (js "mcp__")) with true
    by (symmetry; apply startsWith_app; eexists; reflexivity).
  change 5 with (length (js "mcp__")). rewrite skipn_app_exact.
  destruct a as [|c t]; [contradiction|].
  simpl in Hau. apply andb_true_iff in Hau. destruct Hau as [Hc Ht].
  cbn [app]. rewrite Hc.
  change (js "__" ++ b) with (95%N :: js "_" ++ b).
  destruct (span_app notUnderscore t 95%N (js "_" ++ b) Ht eq_refl) as [Etk Edr].
  match goal with
  | |- context [dropWhile notUnderscore ?u] =>
      replace (dropWhile notUnderscore u) with (js "__" ++ b) by (symmetry; exact Edr)
  end.
  match goal with
  | |- context [takeWhile notUnderscore ?u] =>
      replace (takeWhile notUnderscore u) with t by (symmetry; exact Etk)
  end.
  replace (startsWith (js "__" ++ b) (js "__")) with true
    by (symmetry; apply startsWith_app; eexists; reflexivity).
  change 2 with (length (js "__")). rewrite skipn_app_exact.
  destruct b as [|d t2]; [contradiction|].
  change (forallb is_dot (d :: t2)) with (is_dot d && forallb is_dot t2) in Hbd.
  rewrite Hbd. reflexivity.
Qed.

(** The listing of the dashboard reads a permission back exactly when its
    server name has no underscore: a permission written for such a server
    and a tool comes back as that server and that tool, whatever is parsed
    is spelled [mcp__server__tool] with a server name free of
    underscores, and so a server whose name holds an underscore is never
    listed under its name. *)
Theorem permission_listing_round_trip (mcp tool : str) :
  (splittable mcp tool ->
   parsePermission (permString mcp tool) =
   Some (mkEntry mcp tool (permString mcp tool))) /\
  (forall perm e,
     parsePermission perm = Some e ->
     e.(raw) = perm /\ perm = permString e.(Permissions.mcp) e.(Permissions.tool) /\
     forallb notUnderscore e.(Permissions.mcp) = true) /\
  (existsb (fun c => (c =? 95)%N) mcp = true ->
   forall e, parsePermission (permString mcp tool) = Some e ->
             e.(Permissions.mcp) <> mcp).
Proof.
  split; [apply parsePermission_permString|]. split.
  - intros perm e H. apply parsePermission_some in H.
    destruct H as (Hr & (_ & Hu & _) & Hp). repeat split; assumption.
  - intros Hus e H Heq. apply parsePermission_some in H.
    destruct H as (_ & (_ & Hu & _) & _). rewrite Heq in Hu.
    apply existsb_exists in Hus. destruct Hus as (c & Hc & Hc95).
    rewrite forallb_forall in Hu. specialize (Hu c Hc).
    unfold notUnderscore in Hu. rewrite Hc95 in Hu. discriminate Hu.
Qed.

Lemma permission_listing_round_trip_witness :
  parsePermission (permString (js "notion") (js "search_pages")) =
  Some (mkEntry (js "notion") (js "search_pages")
                (js "mcp__notion__search_pages")).
Proof.
  apply (proj1 (permission_listing_round_trip (js "notion") (js "search_pages"))).
  repeat split; try discriminate; reflexivity.
Defined.

Lemma parseAll_in (l : list str) (perm : str) (e : entry) :
  In perm l -> parsePermission perm = Some e -> In e (parseAll l).
Proof.
  intros Hin Hp. induction l as [|x l IH]; [destruct Hin|].
  simpl. destruct Hin as [->|Hin].
  - rewrite Hp. left. reflexivity.
  - destruct (parsePermission x); [right|]; apply IH; exact Hin.
Qed.

Lemma parseAll_raw (l : list str) (e : entry) :
  In e (parseAll l) -> In e.(raw) l.
Proof.
  induction l as [|x l IH]; simpl; [tauto|].
  destruct (parsePermission x) as [e'|] eqn:E.
  - intros [<-|H]; [left | right; apply IH; exact H].
    apply parsePermission_some in E. symmetry. apply E.
  - intros H. right. apply IH. exact H.
Qed.

Lemma without_not_in (perm : str) (l : list str) : ~ In perm (without perm l).
Proof.
  unfold without. intros H. apply filter_In in H. destruct H as [_ H].
  rewrite str_eqb_refl in H. discriminate H.
Qed.

(** After a tool of a server is allowed, the listing sent back to the
    dashboard shows it among the allowed ones and nowhere else; after it is
    denied, among the denied ones and nowhere else. *)
Theorem update_then_listing (mcp tool : str) (settings : option permissions) :
  splittable mcp tool ->
  let perm := permString mcp tool in
  let shown action := mcpPermissions (updatePermission mcp tool action settings) in
  (In (mkEntry mcp tool perm) (shown (js "allow")).(allowed) /\
   (forall e, In e (shown (js "allow")).(denied) -> e.(raw) <> perm) /\
   (forall e, In e (shown (js "allow")).(asked) -> e.(raw) <> perm)) /\
  (In (mkEntry mcp tool perm) (shown (js "deny")).(denied) /\
   (forall e, In e (shown (js "deny")).(allowed) -> e.(raw) <> perm) /\
   (forall e, In e (shown (js "deny")).(asked) -> e.(raw) <> perm)).
Proof.
  intros Hs perm shown.
  pose proof (parsePermission_permString mcp tool Hs) as Hp. fold perm in Hp.
  unfold shown, mcpPermissions, updatePermission. fold perm.
  cbn [str_eqb js N_of_ascii N.eqb Pos.eqb andb allowed denied asked
       allow deny ask orEmpty].
  repeat split.
  - apply (parseAll_in _ perm); [apply in_or_app; right; left; reflexivity | exact Hp].
  - intros e He Hr. apply parseAll_raw in He. rewrite Hr in He.
    apply (without_not_in _ _ He).
  - intros e He Hr. apply parseAll_raw in He. rewrite Hr in He.
    apply (without_not_in _ _ He).
  - apply (parseAll_in _ perm); [apply in_or_app; right; left; reflexivity | exact Hp].
  - intros e He Hr. apply parseAll_raw in He. rewrite Hr in He.
    apply (without_not_in _ _ He).
  - intros e He Hr. apply parseAll_raw in He. rewrite Hr in He.
    apply (without_not_in _ _ He).
Qed.

Lemma update_then_listing_witness :
  In (mkEntry (js "notion") (js "search") (js "mcp__notion__search"))
     (mcpPermissions
        (updatePermission (js "notion") (js "search") (js "allow") None)).(allowed).
Proof.
  apply (update_then_listing (js "notion") (js "search") None).
  repeat split; try discriminate; reflexivity.
Defined.

End PermissionsFacts.

(** ** The file queue: timers, completion and failed starts *)

Module QueueTimerFacts.

Import Timers Queue QueueFacts.

Lemma isLive_cleared (h : nat) (t : table) :
  isLive h (clearInterval h t) = false.
Proof.
  unfold isLive, clearInterval. simpl.
  induction (live t) as [|e l IH]; simpl; [reflexivity|].
  destruct (fst e =? h) eqn:E; simpl; [exact IH|].
  rewrite E. exact IH.
Qed.

Lemma cleared_live (st : queue_state) : timed st -> (cleared st).(live) = [].
Proof.
  unfold cleared. intros [Hl|(h & Hq & Hl & _)].
  - destruct (queueInterval st); [|exact Hl].
    unfold clearInterval. simpl. rewrite Hl. reflexivity.
  - rewrite Hq. unfold clearInterval. simpl. rewrite Hl. simpl.
    rewrite Nat.eqb_refl. reflexivity.
Qed.

Section WithPaths.

Variable join : str -> str -> str.
Variable basename : str -> str.

Lemma timed_stop (st : queue_state) : timed st -> timed (stopFileQueue st).
Proof.
  intros H. left. apply (cleared_live st H).
Qed.

Lemma timed_delivered (filePath : str) (sent : bool) (st : queue_state) :
  timed st -> timed (delivered basename filePath sent st).
Proof.
  intros [Hl|(h & Hq & Hl & Ha)]; [left; destruct sent; exact Hl|].
  right. exists h. destruct sent; repeat split; assumption.
Qed.

Lemma timed_perform (a : act) (r : running) :
  timed r.(now) -> timed (perform join basename a r).(now).
Proof.
  intros H. destruct a as [folderPath interval dir| |i sent|].
  - pose proof (cleared_live _ H) as Hc.
    destruct (starts_cases folderPath interval dir)
      as [Hn|(entries & name & names & -> & Hfiles)].
    + rewrite (perform_starts_nothing join basename _ _ _ _ Hn).
      left. exact Hc.
    + rewrite (proj1 (perform_starts join basename _ interval _ _ _ r Hfiles)).
      right. exists (fresh (cleared (now r))). simpl. rewrite Hc.
      repeat split.
  - unfold perform. destruct (armed (now r)); [|exact H].
    unfold takeNext. destruct (fileQueue (now r)) as [|f q].
    + apply timed_stop. exact H.
    + exact H.
  - unfold perform. destruct (nth_error (underWay r) i); [|exact H].
    apply timed_delivered. exact H.
  - unfold perform, queueStop. cbn [now].
    destruct (active (queueStatus (now r))); [apply timed_stop|]; exact H.
Qed.

(** The queue never has two timers.  In every state reached by starts,
    firings of the timer, answers of the transport and stops, in any
    order, at most one timer is live; a live timer is the one whose handle
    is stored in [queueInterval], the queue is active, and the timer is
    armed with the interval of the status as the runtime takes it. *)
Theorem queue_has_one_timer (r : running) :
  attained join basename anytime r ->
  length r.(now).(timers).(live) <= 1 /\
  forall h p,
    In (h, p) r.(now).(timers).(live) ->
    r.(now).(queueInterval) = Some h /\
    r.(now).(queueStatus).(active) = true /\
    p = armedDelay r.(now).(queueStatus).(intervalMs).
Proof.
  intros H.
  assert (Ht : timed r.(now)).
  { induction H as [|r a _ IH _]; [left; reflexivity|].
    apply timed_perform. exact IH. }
  destruct Ht as [Hl|(h & Hq & Hl & Ha)]; rewrite Hl.
  - split; [simpl; lia|]. intros h p [].
  - split; [simpl; lia|]. intros h' p [E|[]]. injection E as <- <-.
    repeat split; assumption.
Qed.

End WithPaths.

Lemma queue_has_one_timer_witness :
  length (performs joinPlain basenamePlain
            [Starts (js "/data") 5000%Z (Some listed);
             Starts (js "/data") overflowing (Some listed)] idle)
         .(now).(timers).(live) <= 1.
Proof.
  apply (queue_has_one_timer joinPlain basenamePlain).
  unfold performs. cbn [fold_left].
  apply attained_step; [|reflexivity].
  apply attained_step; [|reflexivity]. apply attained_idle.
Defined.

End QueueTimerFacts.

Module QueueRunFacts.

Import Timers Queue QueueFacts QueueTimerFacts.

Section WithPaths.

Variable join : str -> str -> str.
Variable basename : str -> str.

(** The counter of sent files is the length of the list of sent names, in
    every state reached by starts, firings of the timer, answers of the
    transport and stops, in any order. *)
Theorem sent_count_is_list_length (r : running) :
  attained join basename anytime r ->
  r.(now).(queueStatus).(sentFiles) = length r.(now).(queueStatus).(sentList).
Proof.
  induction 1 as [|r a _ IH _]; [reflexivity|].
  destruct a as [folderPath interval dir| |i sent|].
  - destruct (starts_cases folderPath interval dir)
      as [Hn|(entries & name & names & -> & Hfiles)].
    + rewrite (perform_starts_nothing join basename _ _ _ _ Hn). exact IH.
    + rewrite (proj1 (perform_starts join basename _ interval _ _ _ r Hfiles)).
      reflexivity.
  - unfold perform. destruct (armed (now r)); [|exact IH].
    unfold takeNext. destruct (fileQueue (now r)); exact IH.
  - unfold perform. destruct (nth_error (underWay r) i); [|exact IH].
    destruct sent; cbn [now delivered queueStatus sentFiles sentList];
      [|exact IH].
    rewrite length_app, IH. simpl. lia.
  - unfold perform, queueStop. cbn [now].
    destruct (active (queueStatus (now r))); exact IH.
Qed.

(** The schedule in which every delivery is answered before the timer
    fires again, on a started queue. *)
Lemma steady_serving (folderPath : str) (interval : Z) (total h : nat)
  (t : table) :
  isLive h t = true ->
  forall k done todo hd,
    k <= length todo ->
    (forall f, In f todo -> basename (join folderPath f) = f) ->
    performs join basename (steady k)
      (mkRun (serving join folderPath interval total h t done todo) [] hd) =
    mkRun (serving join folderPath interval total h t (done ++ firstn k todo)
             (skipn k todo))
          [] (hd ++ map (join folderPath) (firstn k todo)).
Proof.
  intros Hlive. induction k as [|k IH]; intros done todo hd Hk Hb.
  - simpl. rewrite !app_nil_r. reflexivity.
  - destruct todo as [|f todo]; [simpl in Hk; lia|].
    change (steady (S k)) with (Fires :: Settles 0 true :: steady k).
    rewrite !performs_cons.
    replace (perform join basename (Settles 0 true)
               (perform join basename Fires
                  (mkRun (serving join folderPath interval total h t done
                            (f :: todo)) [] hd)))
      with (mkRun (serving join folderPath interval total h t (done ++ [f])
                     todo) [] (hd ++ [join folderPath f])).
    + rewrite IH.
      * simpl. rewrite <- !app_assoc. reflexivity.
      * simpl in Hk. lia.
      * intros g Hg. apply Hb. right. exact Hg.
    + unfold perform, armed, serving, takeNext.
      cbn [now queueInterval timers fileQueue map]. rewrite Hlive.
      cbn [now underWay handed app taken nth_error firstn skipn delivered
           queueStatus fileQueue queueInterval timers active folder intervalMs
           totalFiles sentFiles sentList].
      rewrite Hb by (left; reflexivity). rewrite length_app. simpl.
      replace (length done + 1) with (S (length done)) by lia.
      reflexivity.
Qed.

(** A queue whose deliveries all succeed, each before the timer fires
    again, runs to its end: after the start and one firing for each further
    file every file has been handed over and sent, in listing order, and
    the firing after that finds the queue empty, reports its completion
    with the number of files, and leaves the queue inactive with its timer
    cancelled and the counts of the finished run kept. *)
Theorem queue_runs_to_completion
  (r : running) (folderPath : str) (interval : Z) (entries : listing)
  (name : str) (names : list str) :
  r.(underWay) = [] ->
  map fst (filter (fun e => snd e) entries) = name :: names ->
  (forall f, In f (name :: names) -> basename (join folderPath f) = f) ->
  let r1 := performs join basename
              (Starts folderPath interval (Some entries) :: Settles 0 true ::
               steady (length names)) r in
  let r2 := perform join basename Fires r1 in
  r1.(now).(fileQueue) = [] /\
  r1.(underWay) = [] /\
  r1.(handed) = r.(handed) ++ map (join folderPath) (name :: names) /\
  r1.(now).(queueStatus).(active) = true /\
  r1.(now).(queueStatus).(sentList) = name :: names /\
  snd (sendNextQueuedFile basename true r1.(now)) =
  QueueComplete (S (length names)) /\
  r2.(now).(queueStatus).(active) = false /\
  r2.(now).(queueInterval) = None /\
  armed r2.(now) = false /\
  isLive (fresh (cleared r.(now))) r2.(now).(timers) = false /\
  r2.(underWay) = [] /\
  r2.(now).(queueStatus).(sentFiles) = S (length names) /\
  r2.(now).(queueStatus).(totalFiles) = S (length names) /\
  r2.(now).(queueStatus).(sentList) = name :: names.
Proof.
  intros Hu Hfiles Hb r1 r2.
  set (t1 := snd (setInterval interval (cleared r.(now)))).
  set (h1 := fresh (cleared r.(now))).
  assert (Hlive : isLive h1 t1 = true).
  { unfold isLive, t1, h1. simpl. rewrite Nat.eqb_refl. reflexivity. }
  assert (E1 : r1 = mkRun (serving join folderPath interval (S (length names))
                             h1 t1 (name :: names) [])
                          [] (r.(handed) ++ map (join folderPath) (name :: names))).
  { unfold r1. rewrite !performs_cons.
    rewrite (proj1 (perform_starts join basename _ interval _ _ _ r Hfiles)).
    rewrite Hu.
    replace (perform join basename (Settles 0 true) _)
      with (mkRun (serving join folderPath interval (S (length names)) h1 t1
                     [name] names)
                  [] (r.(handed) ++ [join folderPath name])).
    - rewrite (steady_serving folderPath interval _ h1 t1 Hlive)
        by (auto; intros; apply Hb; right; assumption).
      rewrite firstn_all, skipn_all. simpl. rewrite <- app_assoc. reflexivity.
    - unfold perform, serving.
      cbn [now underWay handed app nth_error firstn skipn delivered
           queueStatus fileQueue queueInterval timers active folder intervalMs
           totalFiles sentFiles sentList length].
      rewrite Hb by (left; reflexivity). reflexivity. }
  unfold r2. rewrite E1.
  unfold perform, armed, serving.
  cbn [now queueInterval timers]. rewrite Hlive.
  unfold sendNextQueuedFile, takeNext, stopFileQueue, armed.
  cbn [map fileQueue queueInterval queueStatus timers fst snd active
       sentList sentFiles totalFiles length now underWay handed taken app].
  unfold h1, t1. rewrite isLive_cleared. repeat split.
Qed.

Lemma firing_serving (folderPath : str) (interval : Z) (total h : nat)
  (t : table) (done : list str) :
  isLive h t = true ->
  forall k todo uw hd,
    k <= length todo ->
    performs join basename (repeat Fires k)
      (mkRun (serving join folderPath interval total h t done todo) uw hd) =
    mkRun (serving join folderPath interval total h t done (skipn k todo))
          (uw ++ map (join folderPath) (firstn k todo))
          (hd ++ map (join folderPath) (firstn k todo)).
Proof.
  intros Hlive. induction k as [|k IH]; intros todo uw hd Hk.
  - simpl. rewrite !app_nil_r. reflexivity.
  - destruct todo as [|f todo]; [simpl in Hk; lia|].
    change (repeat Fires (S k)) with (Fires :: repeat Fires k).
    rewrite performs_cons.
    replace (perform join basename Fires
               (mkRun (serving join folderPath interval total h t done
                         (f :: todo)) uw hd))
      with (mkRun (serving join folderPath interval total h t done todo)
                  (uw ++ [join folderPath f]) (hd ++ [join folderPath f])).
    + rewrite IH by (simpl in Hk; lia).
      simpl. rewrite <- !app_assoc. reflexivity.
    + unfold perform, armed, serving, takeNext.
      cbn [now queueInterval timers fileQueue map]. rewrite Hlive.
      reflexivity.
Qed.

(** A transport slower than the timer.  When no delivery is answered
    before the timer has fired once for every further file, all files are
    under way and none is counted; the next firing finds the queue empty
    and stops it as complete, with no delivery confirmed.  A delivery that
    fails after that is put back on the stopped queue, where no timer takes
    it again. *)
Theorem slow_transport_completes_early
  (r : running) (folderPath : str) (interval : Z) (entries : listing)
  (name : str) (names : list str) :
  r.(underWay) = [] ->
  map fst (filter (fun e => snd e) entries) = name :: names ->
  let paths := map (join folderPath) (name :: names) in
  let r1 := performs join basename
              (Starts folderPath interval (Some entries) ::
               repeat Fires (length names)) r in
  let r2 := perform join basename Fires r1 in
  r1.(underWay) = paths /\
  r1.(now).(fileQueue) = [] /\
  r1.(now).(queueStatus).(active) = true /\
  r2.(underWay) = paths /\
  r2.(now).(queueStatus).(active) = false /\
  armed r2.(now) = false /\
  r2.(now).(queueStatus).(sentFiles) = 0 /\
  r2.(now).(queueStatus).(totalFiles) = S (length names) /\
  forall i filePath,
    nth_error paths i = Some filePath ->
    let r3 := perform join basename (Settles i false) r2 in
    r3.(now).(fileQueue) = [filePath] /\
    r3.(now).(queueStatus).(active) = false /\
    perform join basename Fires r3 = r3.
Proof.
  intros Hu Hfiles paths r1 r2.
  set (t1 := snd (setInterval interval (cleared r.(now)))).
  set (h1 := fresh (cleared r.(now))).
  assert (Hlive : isLive h1 t1 = true).
  { unfold isLive, t1, h1. simpl. rewrite Nat.eqb_refl. reflexivity. }
  assert (E1 : r1 = mkRun (serving join folderPath interval (S (length names))
                             h1 t1 [] [])
                          paths (r.(handed) ++ paths)).
  { unfold r1. rewrite performs_cons.
    rewrite (proj1 (perform_starts join basename _ interval _ _ _ r Hfiles)).
    rewrite Hu.
    change (mkQ (map (join folderPath) names) (Some (fresh (cleared (now r))))
              (mkStatus true (Some folderPath) interval (S (length names)) 0 [])
              (snd (setInterval interval (cleared (now r)))))
      with (serving join folderPath interval (S (length names)) h1 t1 [] names).
    rewrite (firing_serving folderPath interval _ h1 t1 [] Hlive) by lia.
    rewrite firstn_all, skipn_all. unfold paths. simpl.
    rewrite <- app_assoc. reflexivity. }
  assert (E2 : r2 = mkRun (mkQ [] None
                             (mkStatus false (Some folderPath) interval
                                (S (length names)) 0 [])
                             (clearInterval h1 t1))
                          paths (r.(handed) ++ paths)).
  { unfold r2. rewrite E1. unfold perform, armed, serving.
    cbn [now queueInterval timers]. rewrite Hlive.
    unfold takeNext, stopFileQueue.
    cbn [map fileQueue queueInterval queueStatus timers active folder
         intervalMs totalFiles sentFiles sentList underWay handed taken].
    rewrite ?app_nil_r. reflexivity. }
  rewrite E1, E2.
  cbn [now underWay fileQueue queueStatus active sentFiles totalFiles serving
       map].
  do 8 (split; [reflexivity|]).
  intros i filePath Hn.
  match goal with
  | |- context [perform join basename (Settles i false) ?x] =>
      set (r3 := perform join basename (Settles i false) x)
  end.
  assert (E3 : r3 = mkRun (mkQ [filePath] None
                             (mkStatus false (Some folderPath) interval
                                (S (length names)) 0 [])
                             (clearInterval h1 t1))
                          (firstn i paths ++ skipn (S i) paths)
                          (r.(handed) ++ paths)).
  { unfold r3, perform. cbn [underWay]. rewrite Hn. reflexivity. }
  rewrite E3. repeat split.
Qed.

(** A start that finds no regular file, or cannot read the folder, keeps
    the files and the counts of the queue that was running but has already
    cancelled its timer: no tick is left to deliver them. *)
Theorem failed_start_stalls_queue
  (st : queue_state) (folderPath : str) (interval : Z) (dir : option listing)
  (sent : bool) :
  (dir = None \/
   exists entries, dir = Some entries /\ filter (fun e => snd e) entries = []) ->
  let st' := start join basename folderPath interval dir sent st in
  st'.(fileQueue) = st.(fileQueue) /\
  st'.(queueStatus) = st.(queueStatus) /\
  st'.(queueInterval) = st.(queueInterval) /\
  success (snd (fst (startFileQueue join folderPath interval dir st))) = false /\
  armed st' = false /\
  forall sent', enabled (Tick sent') st' = false.
Proof.
  intros Hdir st'.
  assert (E : st' = mkQ st.(fileQueue) st.(queueInterval) st.(queueStatus)
                        (cleared st) /\
              success (snd (fst (startFileQueue join folderPath interval dir st)))
              = false).
  { unfold st', start, startFileQueue, cleared.
    destruct Hdir as [->|(entries & -> & Hf)]; [split; reflexivity|].
    rewrite Hf. split; reflexivity. }
  destruct E as [E Hs]. rewrite E.
  assert (Ha : armed (mkQ st.(fileQueue) st.(queueInterval) st.(queueStatus)
                          (cleared st)) = false).
  { unfold armed, cleared. simpl.
    destruct (queueInterval st) as [h|]; [apply isLive_cleared | reflexivity]. }
  repeat split; try assumption. intros sent'. exact Ha.
Qed.

End WithPaths.

Lemma queue_runs_to_completion_witness :
  (performs joinPlain basenamePlain
     [Starts (js "/data") 1000%Z (Some listed); Settles 0 true;
      Fires; Settles 0 true; Fires; Settles 0 true] idle)
  .(now).(fileQueue) = [].
Proof.
  apply (queue_runs_to_completion joinPlain basenamePlain idle (js "/data")
           1000%Z listed (js "a.txt") [js "b.txt"; js "c.txt"]).
  - reflexivity.
  - reflexivity.
  - intros f Hf. apply basenamePlain_join.
    simpl in Hf. destruct Hf as [<-|[<-|[<-|[]]]]; reflexivity.
Defined.

Lemma failed_start_stalls_queue_witness :
  armed (apply joinPlain basenamePlain
           (Start (js "/empty") 1000%Z (Some [(js "sub", false)]) true)
           (apply joinPlain basenamePlain
              (Start (js "/data") 1000%Z (Some listed) true) initial))
  = false.
Proof.
  apply (failed_start_stalls_queue joinPlain basenamePlain
           (apply joinPlain basenamePlain
              (Start (js "/data") 1000%Z (Some listed) true) initial)
           (js "/empty") 1000%Z (Some [(js "sub", false)]) true).
  right. exists [(js "sub", false)]. split; reflexivity.
Defined.

Lemma slow_transport_completes_early_witness :
  (performs joinPlain basenamePlain
     [Starts (js "/data") 1000%Z (Some listed); Fires; Fires; Fires] idle)
  .(now).(queueStatus).(sentFiles) = 0.
Proof.
  pose proof (slow_transport_completes_early joinPlain basenamePlain idle
                (js "/data") 1000%Z listed (js "a.txt")
                [js "b.txt"; js "c.txt"] eq_refl eq_refl) as H.
  cbv zeta in H. destruct H as (_ & _ & _ & _ & _ & _ & H & _). exact H.
Defined.

Lemma sent_count_is_list_length_witness :
  (performs joinPlain basenamePlain
     [Starts (js "/data") 1000%Z (Some listed); Settles 0 true] idle)
  .(now).(queueStatus).(sentFiles) = 1.
Proof.
  apply (sent_count_is_list_length joinPlain basenamePlain).
  unfold performs. cbn [fold_left].
  apply attained_step; [|reflexivity].
  apply attained_step; [|reflexivity]. apply attained_idle.
Defined.

End QueueRunFacts.

(** ** The adapter: responses, the bound on the history and the prompt *)

Module SessionFacts.

Import Regex RegexFacts AI AIFacts AdapterFacts Router Session.

Lemma claudeResponse_not_empty (r : exec_result) : claudeResponse r <> [].
Proof.
  unfold claudeResponse. rewrite truthy_trim, hasAuthMarker_truthy, truthy_trim.
  destruct (truthy (trim (stdout r))) eqn:E1; [apply truthy_true; exact E1|].
  destruct (hasAuthMarker (stderr r)); [discriminate|].
  destruct (truthy (trim (stderr r))); [discriminate|].
  destruct (error r); discriminate.
Qed.

Lemma spawnResponse_not_empty (provider output errorOutput : str) :
  spawnResponse provider output errorOutput <> [].
Proof.
  unfold spawnResponse.
  destruct (truthy (trim output)) eqn:E1; [apply truthy_true; exact E1|].
  destruct (hasAuthMarker errorOutput); [discriminate|].
  destruct (truthy (trim errorOutput)); [|discriminate].
  intros H. apply app_eq_nil in H. destruct H as [_ H]. discriminate H.
Qed.

(** Whatever the backend produces, a response [sendToAI] resolves with is
    never the empty string: blank output and no output at all are turned
    into a message. *)
Theorem response_is_never_empty
  (prompt provider : str) (ex : exec_result) (sp : spawn_event)
  (st : ai_state) (response : str) :
  snd (sendToAI prompt provider ex sp st) = Resolved response ->
  response <> [].
Proof.
  unfold sendToAI. destruct (str_eqb provider (js "claude")).
  - simpl. intros H. injection H as <-. apply claudeResponse_not_empty.
  - destruct sp as [output errorOutput|message]; simpl; [|discriminate].
    intros H. injection H as <-. apply spawnResponse_not_empty.
Qed.

Lemma response_is_never_empty_witness :
  js "No response from Claude" <> [].
Proof.
  apply (response_is_never_empty (js "hi") (js "claude") (mkExec None [] [])
           (Failed []) (mkState (js "claude") [])).
  reflexivity.
Defined.

Lemma claudeBegin_length (prompt : str) (st : ai_state) :
  length (fst (claudeBegin prompt st)).(conversationHistory) <= MAX_HISTORY.
Proof.
  unfold claudeBegin. cbn [fst conversationHistory].
  destruct (MAX_HISTORY <? length (conversationHistory st ++ [mkEntry user prompt]))
    eqn:E.
  - rewrite slice_last_length. lia.
  - apply Nat.ltb_ge in E. exact E.
Qed.

Lemma promptSent_with_history (prompt : str) (st : ai_state) :
  conversationHistory st <> [] ->
  promptSent prompt st =
  systemInstructions ++ js "Previous conversation:" ++ nl ++
  historyLines (conversationHistory st) ++ nl ++ js "Current message:" ++ nl ++
  prompt.
Proof.
  intros H. unfold promptSent, claudeBegin. cbn [snd]. unfold buildPrompt.
  rewrite removelast_last, length_app.
  destruct (conversationHistory st) as [|e h]; [contradiction|].
  replace (1 <? length (e :: h) + length [mkEntry user prompt]) with true
    by (symmetry; apply Nat.ltb_lt; simpl; lia).
  reflexivity.
Qed.

Lemma prompted_claude (prompt : str) (s : session) :
  currentAI s.(state) = js "claude" ->
  prompted prompt s =
  mkSession (fst (claudeBegin prompt s.(state))) (S s.(waiting)).
Proof.
  intros H. unfold prompted. rewrite H. reflexivity.
Qed.

Section Handle.

Variable toLowerCase : str -> str.
Hypothesis toLowerCase_empty : toLowerCase [] = [].

Local Abbreviation handle := (handle toLowerCase).
Local Abbreviation handles := (handles toLowerCase).
Local Abbreviation within := (within toLowerCase).
Local Abbreviation command := (command toLowerCase).

Lemma handles_cons (e : event) (evs : list event) (s : session) :
  handles (e :: evs) s = handles evs (handle e s).
Proof. reflexivity. Qed.

Lemma command_history (body : str) (s : session) :
  length (command body s).(state).(conversationHistory) <=
  length s.(state).(conversationHistory) /\
  (command body s).(waiting) = s.(waiting).
Proof.
  unfold Session.command.
  destruct (classify toLowerCase body false false); simpl; split; lia.
Qed.

(** The history is bounded by the rounds in flight.  Along any sequence of
    commands, prompts and answers during which at most [n] Claude
    processes are waiting at a time, the entries of the history and the
    answers still to come never add up to more than [MAX_HISTORY + n]: at
    most 21 entries when rounds do not overlap, one more for every further
    round in flight. *)
Theorem history_is_bounded (n : nat) (evs : list event) (s : session) :
  length s.(state).(conversationHistory) + s.(waiting) <= MAX_HISTORY + n ->
  within n evs s = true ->
  let s' := handles evs s in
  length s'.(state).(conversationHistory) + s'.(waiting) <= MAX_HISTORY + n.
Proof.
  revert s. induction evs as [|e evs IH]; intros s Hs Hw; [exact Hs|].
  cbn [Session.within] in Hw. apply andb_true_iff in Hw.
  destruct Hw as [_ Hw]. rewrite handles_cons. apply IH; [|exact Hw].
  assert (Hn : (handle e s).(waiting) <= n).
  { destruct evs; cbn [Session.within] in Hw;
      apply andb_true_iff in Hw; destruct Hw as [Hw _];
      apply Nat.leb_le in Hw; exact Hw. }
  destruct e as [body|prompt|ex]; cbn [Session.handle] in *.
  - destruct (command_history body s) as [H1 H2]. lia.
  - unfold prompted in *.
    destruct (str_eqb (currentAI (state s)) (js "claude")); [|exact Hs].
    cbn [state waiting] in *.
    pose proof (claudeBegin_length prompt (state s)). lia.
  - unfold answered in *.
    destruct (waiting s) as [|k] eqn:Ek; [rewrite Ek; exact Hs|].
    unfold claudeFinish. cbn [state waiting fst conversationHistory] in *.
    rewrite length_app. unfold MAX_HISTORY in *. simpl. lia.
Qed.

(** The prompt of a call of [sendToAI] lists the whole history stored at
    that moment, before it is trimmed; with an empty history it is the
    instructions and the message.  When rounds run one after the other on
    Claude, each answered before the next prompt, from an empty history,
    the history is the most recent 21 entries inserted so far, and the
    next prompt lists them in order. *)
Theorem prompt_carries_stored_history (s : session) (prompt : str) :
  (conversationHistory s.(state) = [] ->
   promptSent prompt s.(state) = systemInstructions ++ prompt) /\
  (conversationHistory s.(state) <> [] ->
   promptSent prompt s.(state) =
   systemInstructions ++ js "Previous conversation:" ++ nl ++
   historyLines (conversationHistory s.(state)) ++ nl ++
   js "Current message:" ++ nl ++ prompt) /\
  (forall prs,
     currentAI s.(state) = js "claude" ->
     conversationHistory s.(state) = [] -> s.(waiting) = 0 -> prs <> [] ->
     let s' := handles (inTurn prs) s in
     s'.(waiting) = 0 /\
     conversationHistory s'.(state) = slice_last 21 (inserted prs) /\
     promptSent prompt s'.(state) =
     systemInstructions ++ js "Previous conversation:" ++ nl ++
     historyLines (slice_last 21 (inserted prs)) ++ nl ++
     js "Current message:" ++ nl ++ prompt).
Proof.
  split; [|split].
  - intros H. unfold promptSent, claudeBegin. rewrite H. reflexivity.
  - apply promptSent_with_history.
  - intros prs Hc Hh Hw Hne s'.
    assert (Hturn : forall l x,
              currentAI x.(state) = js "claude" -> x.(waiting) = 0 ->
              handles (inTurn l) x = mkSession (rounds x.(state) l) 0).
    { induction l as [|pr l IH]; intros x Hx Hx0.
      - simpl. destruct x; simpl in *. subst. reflexivity.
      - change (inTurn (pr :: l))
          with (Prompted (fst pr) :: Answered (snd pr) :: inTurn l).
        rewrite !handles_cons. cbn [Session.handle].
        rewrite (prompted_claude _ _ Hx). unfold answered. cbn [waiting state].
        rewrite IH; [|exact Hx|exact Hx0].
        reflexivity. }
    assert (E : s' = mkSession (rounds s.(state) prs) 0)
      by (apply Hturn; assumption).
    assert (Hhist : conversationHistory (rounds s.(state) prs) =
                    slice_last 21 (inserted prs)).
    { rewrite rounds_history; rewrite Hh; simpl; [reflexivity | lia]. }
    rewrite E. cbn [waiting state]. split; [reflexivity|].
    split; [exact Hhist|].
    rewrite promptSent_with_history; rewrite Hhist; [reflexivity|].
    intros E0. apply (f_equal (@length entry)) in E0.
    rewrite slice_last_length, inserted_length in E0.
    destruct prs; [contradiction | simpl in E0; lia].
Qed.

(** [/clear], in any spelling of its letters, empties the history at once
    and keeps the provider, so that a prompt sent next carries the
    instructions and the message only.  It does not cancel the rounds in
    flight.  With none in flight, the next round on Claude leaves exactly
    its own two entries; with one in flight, its answer is pushed after the
    clear and the following prompt lists it. *)
Theorem clear_forgets_the_conversation (body : str) (s : session) :
  toLowerCase (trim body) = js "/clear" ->
  let s1 := command body s in
  conversationHistory s1.(state) = [] /\
  currentAI s1.(state) = currentAI s.(state) /\
  s1.(waiting) = s.(waiting) /\
  (forall prompt,
     promptSent prompt s1.(state) = systemInstructions ++ prompt) /\
  (currentAI s.(state) = js "claude" -> s.(waiting) = 0 ->
   forall prompt ex,
     conversationHistory (answered ex (prompted prompt s1)).(state) =
     [mkEntry user prompt; mkEntry assistant (claudeResponse ex)]) /\
  (0 < s.(waiting) ->
   forall ex,
     let s2 := answered ex s1 in
     conversationHistory s2.(state) =
     [mkEntry assistant (claudeResponse ex)] /\
     forall prompt,
       promptSent prompt s2.(state) =
       systemInstructions ++ js "Previous conversation:" ++ nl ++
       historyLines [mkEntry assistant (claudeResponse ex)] ++ nl ++
       js "Current message:" ++ nl ++ prompt).
Proof.
  intros E s1.
  assert (Hb : truthy body && truthy (trim body) = true)
    by (apply (RouterFacts.text_branch toLowerCase toLowerCase_empty body
                 (js "/clear")); [discriminate | exact E]).
  assert (Hs : s1 = mkSession (mkState (currentAI s.(state)) []) s.(waiting)).
  { unfold s1, Session.command, classify. rewrite Hb, E. reflexivity. }
  rewrite Hs. cbn [state waiting conversationHistory currentAI].
  split; [reflexivity|]. split; [reflexivity|]. split; [reflexivity|].
  split; [reflexivity|]. split.
  - intros Hc Hw prompt ex. unfold prompted. cbn [state currentAI].
    rewrite Hc. reflexivity.
  - intros Hw ex. unfold answered. cbn [waiting].
    destruct (waiting s) as [|k]; [lia|].
    cbn [state claudeFinish fst conversationHistory app].
    split; [reflexivity|]. intros prompt.
    apply promptSent_with_history. discriminate.
Qed.

End Handle.

Lemma history_is_bounded_witness :
  length (handles asciiLower overlapping twenty).(state).(conversationHistory)
  + (handles asciiLower overlapping twenty).(waiting) <= MAX_HISTORY + 2.
Proof.
  apply (history_is_bounded asciiLower 2 overlapping twenty).
  - vm_compute. repeat constructor.
  - reflexivity.
Defined.

(** Two rounds in flight from a history of twenty entries leave 22. *)
Example overlapping_rounds_leave_22 :
  length (handles asciiLower overlapping twenty).(state).(conversationHistory)
  = 22.
Proof. reflexivity. Qed.

Lemma prompt_carries_stored_history_witness :
  promptSent (js "and now?")
    (handles asciiLower (inTurn [(js "hi", mkExec None (js "ok") [])])
       (mkSession (mkState (js "claude") []) 0)).(state) =
  systemInstructions ++ js "Previous conversation:" ++ nl ++
  js "User: hi" ++ nl ++ js "Assistant: ok" ++ nl ++ nl ++
  js "Current message:" ++ nl ++ js "and now?".
Proof.
  pose proof (prompt_carries_stored_history asciiLower
                (mkSession (mkState (js "claude") []) 0) (js "and now?")) as H.
  destruct H as (_ & _ & H).
  specialize (H [(js "hi", mkExec None (js "ok") [])] eq_refl eq_refl eq_refl
                ltac:(discriminate)).
  cbv zeta in H. destruct H as (_ & _ & H). exact H.
Defined.

Lemma clear_forgets_the_conversation_witness :
  conversationHistory
    (answered (mkExec None (js "late") [])
       (command asciiLower (js " /Clear")
          (mkSession (mkState (js "claude") [mkEntry user (js "a")]) 1)))
    .(state) = [mkEntry assistant (js "late")].
Proof.
  pose proof (clear_forgets_the_conversation asciiLower eq_refl (js " /Clear")
                (mkSession (mkState (js "claude") [mkEntry user (js "a")]) 1)
                eq_refl) as H.
  cbv zeta in H. destruct H as (_ & _ & _ & _ & _ & H).
  exact (proj1 (H ltac:(simpl; lia) (mkExec None (js "late") []))).
Defined.

End SessionFacts.

(** ** The reply handler: what is delivered *)

Module DeliveryFacts.

Import Regex RegexFacts Reply.

(** The pattern of the time suffix, read as two prefixes. *)
Lemma match_here_ampmRe (s : str) :
  match_here ampmRe s =
  if startsWith s (js " AM.") then Some ([(1, js "AM")], skipn 4 s)
  else if startsWith s (js " PM.") then Some ([(1, js "PM")], skipn 4 s)
  else None.
Proof.
  unfold match_here, ampmRe. rewrite m_seq.
  destruct s as [|c0 s]; [reflexivity|].
  rewrite m_chr_cons.
  change (js " AM.") with (32%N :: js "AM.").
  change (js " PM.") with (32%N :: js "PM.").
  rewrite !startsWith_cons.
  destruct (32 =? c0)%N; [|reflexivity]. cbn [andb].
  rewrite m_seq, m_group. cbn [m]. rewrite !m_lit.
  destruct s as [|c1 s]; [reflexivity|].
  change (js "AM") with [65%N; 77%N]. change (js "PM") with [80%N; 77%N].
  change (js "AM.") with [65%N; 77%N; 46%N]. change (js "PM.") with [80%N; 77%N; 46%N].
  rewrite !startsWith_cons.
  destruct s as [|c2 s]; [destruct (65 =? c1)%N; destruct (80 =? c1)%N; reflexivity|].
  rewrite !startsWith_cons.
  destruct s as [|c3 s].
  - destruct (65 =? c1)%N; destruct (80 =? c1)%N; destruct (77 =? c2)%N; reflexivity.
  - rewrite !startsWith_cons. cbn [startsWith andb length skipn].
    rewrite !andb_true_r.
    assert (Hl : forall n, S (S (S n)) - S n = 2) by (intros; lia).
    destruct (N.eqb_spec 65 c1) as [<-|H1].
    + cbn [andb]. destruct (N.eqb_spec 77 c2) as [<-|H2]; cbn [andb orElse].
      * rewrite m_chr_cons. destruct (46 =? c3)%N; cbn [orElse].
        -- rewrite Hl. reflexivity.
        -- reflexivity.
      * reflexivity.
    + cbn [andb orElse]. destruct (N.eqb_spec 80 c1) as [<-|H3]; cbn [andb]; [|reflexivity].
      destruct (N.eqb_spec 77 c2) as [<-|H2]; cbn [andb]; [|reflexivity].
      rewrite m_chr_cons. destruct (46 =? c3)%N; [|reflexivity].
      rewrite Hl. reflexivity.
Qed.

Lemma narrowSpaceFix_step (s : str) :
  narrowSpaceFix s =
  if startsWith s (js " AM.") then 0x202f%N :: js "AM." ++ narrowSpaceFix (skipn 4 s)
  else if startsWith s (js " PM.") then 0x202f%N :: js "PM." ++ narrowSpaceFix (skipn 4 s)
  else match s with [] => [] | c :: t => c :: narrowSpaceFix t end.
Proof.
  unfold narrowSpaceFix at 1. rewrite replaceAll_step, match_here_ampmRe.
  destruct (startsWith s (js " AM.")) eqn:EA.
  - apply startsWith_app in EA. destruct EA as [t ->].
    change (skipn 4 (js " AM." ++ t)) with t.
    change (length (js " AM." ++ t)) with (4 + length t).
    rewrite (proj2 (Nat.ltb_lt _ _)) by lia. reflexivity.
  - destruct (startsWith s (js " PM.")) eqn:EP; [|reflexivity].
    apply startsWith_app in EP. destruct EP as [t ->].
    change (skipn 4 (js " PM." ++ t)) with t.
    change (length (js " PM." ++ t)) with (4 + length t).
    rewrite (proj2 (Nat.ltb_lt _ _)) by lia. reflexivity.
Qed.

Lemma narrowSpaceFix_spaces :
  forall n s, length s <= n -> Forall2 narrowed s (narrowSpaceFix s).
Proof.
  induction n as [|n IH]; intros s Hn.
  - destruct s; [|simpl in Hn; lia]. constructor.
  - rewrite narrowSpaceFix_step.
    destruct (startsWith s (js " AM.")) eqn:EA.
    + apply startsWith_app in EA. destruct EA as [t ->].
      change (skipn 4 (js " AM." ++ t)) with t.
      constructor; [right; split; reflexivity|].
      repeat (constructor; [left; reflexivity|]).
      apply IH. simpl in Hn. lia.
    + destruct (startsWith s (js " PM.")) eqn:EP.
      * apply startsWith_app in EP. destruct EP as [t ->].
        change (skipn 4 (js " PM." ++ t)) with t.
        constructor; [right; split; reflexivity|].
        repeat (constructor; [left; reflexivity|]).
        apply IH. simpl in Hn. lia.
      * destruct s as [|c t]; [constructor|].
        constructor; [left; reflexivity|]. apply IH. simpl in Hn. lia.
Qed.

Lemma includes_false (s p : str) :
  includes s p = false -> forall a b, s = a ++ b -> startsWith b p = false.
Proof.
  revert p. induction s as [|c t IH]; intros p H a b Hab.
  - destruct a; destruct b; try discriminate. simpl in H.
    apply orb_false_iff in H. apply H.
  - simpl in H. apply orb_false_iff in H. destruct H as [H1 H2].
    destruct a as [|a0 a].
    + simpl in Hab. subst b. exact H1.
    + injection Hab as _ Hab. exact (IH p H2 a b Hab).
Qed.

Lemma narrowSpaceFix_plain (s : str) :
  includes s (js " AM.") = false -> includes s (js " PM.") = false ->
  narrowSpaceFix s = s.
Proof.
  induction s as [|c t IH]; intros HA HP; rewrite narrowSpaceFix_step.
  - reflexivity.
  - rewrite (includes_false _ _ HA [] _ eq_refl), (includes_false _ _ HP [] _ eq_refl).
    f_equal. apply IH.
    + simpl in HA. apply orb_false_iff in HA. apply HA.
    + simpl in HP. apply orb_false_iff in HP. apply HP.
Qed.

Section Delivery.

Variable existsSync : str -> bool.
Variable send : str -> str -> bool.

(** The handler answers with a file or with text, never both and never
    neither.  A file is handed to the transport only when it exists, with
    a caption of at most 200 code units; the text reply is left out exactly
    when the transport took the file; and a text reply to a non-empty
    response is never empty. *)
Theorem reply_is_file_or_text (aiResponse : str) :
  let o := postProcess existsSync send aiResponse in
  (forall path caption,
     o.(media) = Some (path, caption) ->
     existsSync path = true /\ length caption <= 200 /\
     o.(filePath) = Some path /\ o.(fileSent) = send path caption) /\
  (o.(media) = None -> o.(fileSent) = false) /\
  (o.(reply) = None <-> o.(fileSent) = true) /\
  (aiResponse <> [] -> o.(reply) <> Some []).
Proof.
  assert (Hcap : forall s, length (substring0 200 s) <= 200)
    by (intros s; unfold substring0; rewrite length_firstn; lia).
  assert (Htext : forall b clean, (textReply b clean aiResponse = None <-> b = true) /\
            (aiResponse <> [] -> textReply b clean aiResponse <> Some [])).
  { intros b clean. unfold textReply. destruct b.
    - split; [split; reflexivity | discriminate].
    - split; [split; discriminate|].
      intros Hne H. injection H as H. destruct clean; simpl in H; [contradiction|discriminate]. }
  unfold postProcess.
  destruct (group1 (sendFileMatch aiResponse)) as [g|].
  - destruct (existsSync (resolvePath existsSync (trim g))) eqn:E; cbn [media filePath fileSent reply].
    + split; [|split; [discriminate | apply Htext]].
      intros path caption H. injection H as <- <-.
      repeat split; [exact E | apply Hcap].
    + split; [discriminate | split; [reflexivity | apply Htext]].
  - destruct (group1 (imagePathMatch aiResponse)) as [g|].
    + destruct (existsSync (trim g)) eqn:E; cbn [media filePath fileSent reply].
      * split; [|split; [discriminate | apply Htext]].
        intros path caption H. injection H as <- <-.
        repeat split; [exact E | apply Hcap].
      * split; [discriminate | split; [reflexivity | apply Htext]].
    + cbn [media filePath fileSent reply].
      split; [discriminate | split; [reflexivity | apply Htext]].
Qed.

(** The path the handler settles on is the extracted path up to plain
    spaces turned into narrow no-break spaces: same length, unchanged when
    it holds no [ AM.] or [ PM.], and changed only when the extracted path
    does not exist and the changed one does. *)
Theorem resolved_path_differs_in_spaces_only (path : str) :
  let r := resolvePath existsSync path in
  Forall2 narrowed path r /\
  length r = length path /\
  (includes path (js " AM.") = false -> includes path (js " PM.") = false ->
   r = path) /\
  (r <> path -> existsSync path = false /\ existsSync r = true).
Proof.
  intros r.
  assert (Hsame : Forall2 narrowed path path).
  { clear. induction path; constructor; [left; reflexivity | assumption]. }
  assert (Hr : r = path \/
               (r = narrowSpaceFix path /\ existsSync path = false /\
                existsSync r = true)).
  { unfold r, resolvePath. destruct (existsSync path) eqn:E1; [left; reflexivity|].
    destruct (existsSync (narrowSpaceFix path)) eqn:E2; [|left; reflexivity].
    right. repeat split. exact E2. }
  assert (H2 : Forall2 narrowed path r).
  { destruct Hr as [-> | [-> _]]; [exact Hsame|].
    apply (narrowSpaceFix_spaces (length path)). lia. }
  split; [exact H2|]. split; [symmetry; eapply Forall2_length; exact H2|].
  split.
  - intros HA HP. destruct Hr as [-> | [-> _]]; [reflexivity|].
    apply narrowSpaceFix_plain; assumption.
  - intros Hne. destruct Hr as [E | [_ H]]; [contradiction | exact H].
Qed.

End Delivery.

Lemma reply_is_file_or_text_witness :
  reply (postProcess (fun _ => true) (fun _ _ => false) doneReply) <> Some [].
Proof.
  pose proof (reply_is_file_or_text (fun _ => true) (fun _ _ => false)
                doneReply) as H.
  cbv zeta in H. destruct H as (_ & _ & _ & H). apply H. discriminate.
Defined.

Lemma resolved_path_differs_in_spaces_only_witness :
  resolvePath (fun _ => false) (js "/tmp/a.png") = js "/tmp/a.png".
Proof.
  pose proof (resolved_path_differs_in_spaces_only (fun _ => false)
                (js "/tmp/a.png")) as H.
  cbv zeta in H. destruct H as (_ & _ & H & _). apply H; reflexivity.
Defined.

End DeliveryFacts.

(** ** The router: what the commands carry *)

Module RoutingFacts.

Import Regex RegexFacts Router.

Lemma backoff_some (p : char -> bool) (k : cont) (cs : caps) :
  forall s res, backoff p k cs s = Some res ->
    exists a b, s = a ++ b /\ forallb p a = true /\ k b cs = Some res.
Proof.
  induction s as [|c t IH]; intros res H; simpl in H.
  - exists [], []. repeat split. exact H.
  - destruct (p c) eqn:E.
    + destruct (backoff p k cs t) as [x|] eqn:Eb; simpl in H.
      * injection H as <-. destruct (IH _ eq_refl) as (a & b & -> & Ha & Hk).
        exists (c :: a), b. repeat split; [|exact Hk].
        simpl. rewrite E. exact Ha.
      * exists [], (c :: t). repeat split. exact H.
    + exists [], (c :: t). repeat split. exact H.
Qed.

(** What a group around a greedy run of a class captures. *)
Lemma m_group_run (i : nat) (p : char -> bool) (s : str) (cs cs1 : caps)
  (behind : str) :
  m (Group i (plus true (Chr p))) s cs (fun s' cs' => Some (cs', s')) =
  Some (cs1, behind) ->
  exists g, cs1 = (i, g) :: cs /\ g <> [] /\ forallb p g = true /\
            s = g ++ behind.
Proof.
  rewrite m_group, m_plus_class. intros H.
  destruct s as [|c t]; [discriminate|].
  destruct (p c) eqn:E; [|discriminate].
  apply backoff_some in H. destruct H as (a & b & -> & Ha & H).
  assert (Hn : length (c :: a ++ b) - length b = length (c :: a))
    by (cbn [length]; rewrite length_app; lia).
  cbv beta in H. rewrite Hn in H.
  change (c :: a ++ b) with ((c :: a) ++ b) in H.
  rewrite firstn_app, Nat.sub_diag, firstn_all in H.
  cbn [firstn] in H. rewrite app_nil_r in H.
  injection H as <- <-.
  exists (c :: a). repeat split.
  - discriminate.
  - simpl. rewrite E. exact Ha.
Qed.

Lemma backoff_first (p : char -> bool) (k : cont) (cs : caps) :
  forall s res, k (dropWhile p s) cs = Some res ->
                backoff p k cs s = Some res.
Proof.
  induction s as [|c t IH]; intros res H; simpl in *; [exact H|].
  destruct (p c); [|exact H].
  rewrite (IH _ H). reflexivity.
Qed.

Lemma not_dot_is_space (c : char) : is_dot c = false -> is_space c = true.
Proof.
  unfold is_dot. rewrite negb_false_iff, !orb_true_iff, !N.eqb_eq.
  intros [[[-> | ->] | ->] | ->]; reflexivity.
Qed.

Lemma trimStart_head (s : str) (c : char) (t : str) :
  trimStart s = c :: t -> is_space c = false.
Proof.
  induction s as [|x s IH]; simpl; [discriminate|].
  destruct (is_space x) eqn:E; [exact IH|].
  intros H. injection H as <- _. exact E.
Qed.

Lemma trimStart_keeps (x : char) (s : str) :
  In x s -> is_space x = false -> trimStart s <> [].
Proof.
  induction s as [|c s IH]; simpl; [contradiction|].
  intros [-> | Hin] Hx.
  - rewrite Hx. discriminate.
  - destruct (is_space c); [apply IH; assumption | discriminate].
Qed.

Lemma trim_last (s a : str) (w : char) :
  trim s = a ++ [w] -> is_space w = false.
Proof.
  unfold trim, trimEnd. intros H.
  apply (f_equal (@rev char)) in H. rewrite rev_involutive, rev_unit in H.
  exact (trimStart_head _ _ _ H).
Qed.

Lemma trim_keeps (x : char) (t : str) :
  is_space x = false -> trim (x :: t) <> [].
Proof.
  intros Hx. unfold trim, trimEnd. simpl trimStart. rewrite Hx.
  intros H. apply (f_equal (@rev char)) in H. rewrite rev_involutive in H.
  revert H. apply (trimStart_keeps x); [|exact Hx].
  apply in_rev. rewrite rev_involutive. left. reflexivity.
Qed.

Lemma dropWhile_nil_all (p : char -> bool) (s : str) :
  dropWhile p s = [] -> forallb p s = true.
Proof.
  induction s as [|c t IH]; simpl; [reflexivity|].
  destruct (p c); [exact IH | discriminate].
Qed.

Lemma send_capture (body : str) (f : found) :
  exec sendRe (trim body) = Some f ->
  trim (capture 1 f) <> [] /\
  forallb is_dot (capture 1 f) = true /\
  exists a b, trim body = a ++ capture 1 f ++ b.
Proof.
  intros H. apply exec_from_some in H.
  destruct H as (pre & _ & Htext & Hm & _).
  unfold match_here, sendRe in Hm. rewrite m_seq in Hm.
  apply m_suffix in Hm. destruct Hm as (s1 & cs1 & [p1 Hs1] & Hm).
  rewrite m_seq, m_plus_class in Hm.
  destruct s1 as [|c t]; [discriminate|].
  destruct (is_space c) eqn:Ec; [|discriminate].
  destruct (dropWhile is_space t) as [|x u] eqn:Ed.
  - exfalso. apply dropWhile_nil_all in Ed.
    assert (Hend : exists a w, trim body = a ++ [w] /\ is_space w = true).
    { destruct (exists_last (l := c :: t) ltac:(discriminate)) as (a & w & E).
      exists (pre ++ p1 ++ a), w. split.
      - rewrite Htext, Hs1, E, <- !app_assoc. reflexivity.
      - assert (Hall : forallb is_space (c :: t) = true)
          by (simpl; rewrite Ec; exact Ed).
        rewrite E, forallb_app in Hall. apply andb_true_iff in Hall.
        destruct Hall as [_ Hw]. simpl in Hw. rewrite andb_true_r in Hw. exact Hw. }
    destruct Hend as (a & w & E & Hw).
    apply trim_last in E. congruence.
  - assert (Hx : is_space x = false) by (apply (dropWhile_head _ _ _ _ Ed)).
    assert (Hdot : is_dot x = true).
    { destruct (is_dot x) eqn:E; [reflexivity|].
      apply not_dot_is_space in E. congruence. }
    set (k := fun (s' : str) (cs' : caps) =>
                m (Group 1 (plus true (Chr is_dot))) s' cs'
                  (fun s'' cs'' => Some (cs'', s''))) in Hm.
    destruct (k (x :: u) cs1) as [[cs2 behind]|] eqn:Ek.
    + assert (Hb : backoff is_space k cs1 t = Some (cs2, behind))
        by (apply backoff_first; rewrite Ed; exact Ek).
      rewrite Hb in Hm. injection Hm as Hg Hr.
      unfold k in Ek. apply m_group_run in Ek.
      destruct Ek as (g & -> & Hne & Hall & Hs).
      unfold capture. rewrite <- Hg. simpl group.
      destruct g as [|g0 g]; [contradiction|].
      injection Hs as <- Hu.
      repeat split; [apply trim_keeps; exact Hx | exact Hall|].
      pose proof (takeWhile_dropWhile is_space t) as Ht. rewrite Ed in Ht.
      exists (pre ++ p1 ++ c :: takeWhile is_space t), behind.
      rewrite Htext, Hs1. rewrite <- Ht at 1. rewrite Hu, <- !app_assoc.
      reflexivity.
    + exfalso. unfold k in Ek. rewrite m_group, m_plus_class, Hdot in Ek.
      rewrite backoff_total in Ek by discriminate. discriminate.
Qed.

Lemma screenshot_capture (text : str) (f : found) :
  exec screenshotRe text = Some f ->
  capture 1 f <> [] /\
  forallb (fun c => negb (is_space c)) (capture 1 f) = true /\
  exists a b, text = a ++ capture 1 f ++ b.
Proof.
  intros H. apply exec_from_some in H.
  destruct H as (pre & _ & Htext & Hm & _).
  unfold match_here, screenshotRe in Hm. rewrite m_seq in Hm.
  apply m_suffix in Hm. destruct Hm as (s1 & cs1 & [p1 Hs1] & Hm).
  rewrite m_seq in Hm.
  apply m_suffix in Hm. destruct Hm as (s2 & cs2 & [p2 Hs2] & Hm).
  apply m_group_run in Hm. destruct Hm as (g & Hg & Hne & Hall & Hs).
  unfold capture. rewrite Hg. simpl group.
  repeat split; [exact Hne | exact Hall|].
  exists (pre ++ p1 ++ p2), (rest f).
  rewrite Htext, Hs1, Hs2, Hs. rewrite <- !app_assoc. reflexivity.
Qed.

Section Classify.

Variable toLowerCase : str -> str.

(** The address [/screenshot] hands to the browser always starts with
    [http://] or [https://] and holds no white space: it is the first run
    of non-blank characters behind the command, with [https://] put before
    it when it names no protocol. *)
Theorem screenshot_url_is_normalised
  (body : str) (hasMedia downloaded : bool) (url : str) :
  classify toLowerCase body hasMedia downloaded = Screenshot url ->
  startsWith url (js "http://") || startsWith url (js "https://") = true /\
  forallb (fun c => negb (is_space c)) url = true /\
  exists raw a b,
    raw <> [] /\ trim body = a ++ raw ++ b /\
    (url = raw \/ url = js "https://" ++ raw).
Proof.
  unfold classify. intros H.
  repeat match type of H with
         | context [if ?b then _ else _] => destruct b eqn:?
         | context [match exec ?r ?t with _ => _ end] =>
             destruct (exec r t) eqn:?
         end; try discriminate H.
  all: injection H as <-.
  all: match goal with
       | Hf : exec screenshotRe _ = Some _ |- _ =>
           apply screenshot_capture in Hf;
           destruct Hf as (Hne & Hall & a & b & Htext)
       end.
  all: match goal with
       | En : negb _ && negb _ = true |- _ =>
           split; [reflexivity|]; split;
           [match type of Hall with
            | forallb _ ?u = true =>
                change (forallb (fun c => negb (is_space c))
                          (js "https://" ++ u) = true)
            end;
            rewrite forallb_app, Hall; reflexivity|];
           eexists _, a, b; repeat split;
           [exact Hne | exact Htext | right; reflexivity]
       | En : negb _ && negb _ = false |- _ =>
           apply andb_false_iff in En; rewrite !negb_false_iff in En;
           split; [apply orb_true_iff; exact En|]; split; [exact Hall|];
           eexists _, a, b; repeat split;
           [exact Hne | exact Htext | left; reflexivity]
       end.
Qed.




(** [/send] never asks for the empty path: the path it names is a
    non-empty piece of one line of the message. *)
Theorem send_command_names_a_path
  (body : str) (hasMedia downloaded : bool) (path : str) :
  classify toLowerCase body hasMedia downloaded = SendFile path ->
  path <> [] /\ forallb is_dot path = true /\
  exists a b, trim body = a ++ path ++ b.
Proof.
  unfold classify. intros H.
  repeat match type of H with
         | context [if ?b then _ else _] => destruct b eqn:?
         | context [match exec ?r ?t with _ => _ end] =>
             destruct (exec r t) eqn:?
         end; try discriminate H.
  injection H as <-.
  match goal with
  | Hf : exec sendRe _ = Some _ |- _ =>
      apply send_capture in Hf; destruct Hf as (Hne & Hall & a & b & Htext)
  end.
  split; [exact Hne|].
  match goal with
  | |- context [trim (capture 1 ?f)] =>
      destruct (ReplyFacts.trim_infix (capture 1 f)) as (x & y & Hg)
  end.
  split.
  - rewrite Hg, !forallb_app in Hall.
    apply andb_true_iff in Hall. destruct Hall as [_ Hall].
    apply andb_true_iff in Hall. apply Hall.
  - exists (a ++ x), (y ++ b). rewrite Htext. rewrite Hg at 1.
    rewrite <- !app_assoc. reflexivity.
Qed.

End Classify.

Lemma screenshot_url_is_normalised_witness :
  forallb (fun c => negb (is_space c)) (js "https://example.com") = true.
Proof.
  apply (screenshot_url_is_normalised asciiLower
           (js "/screenshot example.com") false false
           (js "https://example.com")).
  vm_compute. reflexivity.
Defined.


Lemma send_command_names_a_path_witness :
  js "/tmp/a.png" <> [].
Proof.
  apply (send_command_names_a_path asciiLower (js "/send /tmp/a.png")
           false false (js "/tmp/a.png")).
  vm_compute. reflexivity.
Defined.

End RoutingFacts.
